(** * lazy-lens: the prompt-to-album matching engine of [core/matcher.py]

    A shallow embedding of [PromptParser] and [PatternMatcher] together with
    the part of Python's [str] and [re] libraries they call.
    Around them, the code that feeds and uses them is embedded as well: the
    album creator of [core/albums.py] in dry-run mode, the extension test
    of [core/scanner.py] and the sidebar filters of [app.py].

    Conventions of the embedding.
    - A Python [str] is a list of characters and stands for text of code
      points below 128: case mapping, the classes [\d], [\s], [\w],
      whitespace splitting and case-blind matching are Python's on that
      range.  Text with larger code points is outside the embedding (the
      characters 128..255 are carried along as uncased, non-word, non-space
      characters, which is not what Python makes of them).
    - A [datetime] is a naive time stamp, compared field by field.
    - A Python call that can raise returns a [result].
    - Regular expressions are compiled from their pattern text, as the code
      does, and run by a backtracking matcher that lists the ways a pattern
      can match in the order Python tries them; the match Python reports is
      the head of that list. *)

From Stdlib Require Import String Ascii List ZArith Bool Arith Lia Permutation Sorted.
Import ListNotations.


(* ================================================================== *)
(** ** Outcomes of a call *)

Inductive failure : Type :=
| ReError      (* re.error: the pattern text is not a regular expression *)
| KeyError     (* a dict was indexed with a key it does not hold *)
| ValueError   (* int() was given text that is not a number *)
| NoneError    (* None was used as a string: AttributeError or TypeError *)
| OverflowError (* re: the repetition number of a pattern is too large *)
| NotModelled. (* the pattern uses syntax this development does not embed:
                  character sets, (?...) groups, ranges {m,n}, lazy or
                  possessive repetition, escapes other than \b \d \s \w and
                  escaped punctuation *)

Inductive result (A : Type) : Type :=
| Ok (a : A)
| Fail (e : failure).

Arguments Ok {A} a.
Arguments Fail {A} e.

Definition bind {A B : Type} (m : result A) (k : A -> result B) : result B :=
  match m with
  | Ok a => k a
  | Fail e => Fail e
  end.

Declare Scope result_scope.
Delimit Scope result_scope with result.
Notation "x <- m ;; k" := (bind m (fun x => k))
  (at level 61, m at next level, right associativity) : result_scope.
Local Open Scope result_scope.

(** [for x in xs: acc = body(acc, x)] where the body can raise. *)
Fixpoint foldM {A S : Type} (body : S -> A -> result S) (xs : list A) (acc : S)
  : result S :=
  match xs with
  | [] => Ok acc
  | x :: xs' => acc' <- body acc x ;; foldM body xs' acc'
  end.

(* ================================================================== *)
(** ** Python strings *)

Module PyStr.

Definition str : Type := list ascii.

Definition lit (x : string) : str := list_ascii_of_string x.

Definition code (c : ascii) : nat := nat_of_ascii c.

Definition between (lo hi : nat) (c : ascii) : bool :=
  (lo <=? code c) && (code c <=? hi).

Definition is_upper (c : ascii) : bool := between 65 90 c.
Definition is_lower (c : ascii) : bool := between 97 122 c.
Definition is_digit (c : ascii) : bool := between 48 57 c.
Definition is_alpha (c : ascii) : bool := is_upper c || is_lower c.

(** [\w]: letters, digits and the underscore. *)
Definition is_word (c : ascii) : bool :=
  is_alpha c || is_digit c || (code c =? 95).

(** [str.isspace] and [\s]: tab, line feed, vertical tab, form feed,
    carriage return, the four separators 28..31 and the space. *)
Definition is_space (c : ascii) : bool :=
  between 9 13 c || between 28 32 c.

Definition lower_char (c : ascii) : ascii :=
  if is_upper c then ascii_of_nat (code c + 32) else c.

Definition upper_char (c : ascii) : ascii :=
  if is_lower c then ascii_of_nat (code c - 32) else c.

(** [s.lower()] *)
Definition lower (s : str) : str := map lower_char s.

(** [s.capitalize()]: first character upper-cased, the others lower-cased. *)
Definition capitalize (s : str) : str :=
  match s with
  | [] => []
  | c :: s' => upper_char c :: lower s'
  end.

Fixpoint lstrip (s : str) : str :=
  match s with
  | [] => []
  | c :: s' => if is_space c then lstrip s' else s
  end.

(** [s.strip()] *)
Definition strip (s : str) : str := rev (lstrip (rev (lstrip s))).

Fixpoint split_ws_from (cur : str) (s : str) : list str :=
  match s with
  | [] => match cur with [] => [] | _ => [rev cur] end
  | c :: s' =>
      if is_space c
      then match cur with
           | [] => split_ws_from [] s'
           | _ => rev cur :: split_ws_from [] s'
           end
      else split_ws_from (c :: cur) s'
  end.

(** [s.split()]: the maximal runs of non-space characters. *)
Definition split_ws (s : str) : list str := split_ws_from [] s.

Fixpoint split_on_from (sep : ascii) (cur : str) (s : str) : list str :=
  match s with
  | [] => [rev cur]
  | c :: s' =>
      if Ascii.eqb c sep
      then rev cur :: split_on_from sep [] s'
      else split_on_from sep (c :: cur) s'
  end.

(** [s.split(sep)] for a one-character separator; never empty. *)
Definition split_on (sep : ascii) (s : str) : list str :=
  split_on_from sep [] s.

(** [sep.join(parts)] *)
Fixpoint join (sep : str) (parts : list str) : str :=
  match parts with
  | [] => []
  | [p] => p
  | p :: ps => p ++ sep ++ join sep ps
  end.

(** [s.replace(old, new)] for a one-character [old]. *)
Definition replace_char (old : ascii) (new : str) (s : str) : str :=
  flat_map (fun c => if Ascii.eqb c old then new else [c]) s.

Fixpoint str_eqb (a b : str) : bool :=
  match a, b with
  | [], [] => true
  | x :: a', y :: b' => Ascii.eqb x y && str_eqb a' b'
  | _, _ => false
  end.

Fixpoint starts_with (p s : str) : bool :=
  match p, s with
  | [], _ => true
  | x :: p', y :: s' => Ascii.eqb x y && starts_with p' s'
  | _ :: _, [] => false
  end.

(** [needle in hay] *)
Fixpoint contains (needle hay : str) : bool :=
  starts_with needle hay
  || match hay with
     | [] => false
     | _ :: hay' => contains needle hay'
     end.

(** [c in s] for a character *)
Definition has_char (c : ascii) (s : str) : bool :=
  existsb (Ascii.eqb c) s.

(** [x in xs] for a list of strings *)
Definition mem (x : str) (xs : list str) : bool := existsb (str_eqb x) xs.

Definition digit_value (c : ascii) : Z := Z.of_nat (code c - 48).

(** [int(s)] on decimal text.  Python also accepts a sign, surrounding
    blanks and underscores; the engine only passes groups matched by
    [\d{n}], so other text is reported as the [ValueError] it is for
    everything that is not a number. *)
Definition int_of (s : str) : result Z :=
  match s with
  | [] => Fail ValueError
  | _ => if forallb is_digit s
         then Ok (fold_left (fun acc c => (10 * acc + digit_value c)%Z) s 0%Z)
         else Fail ValueError
  end.

End PyStr.
Import PyStr.

(* ================================================================== *)
(** ** Regular expressions: syntax, compilation, backtracking matcher *)

Module Re.

Inductive atom : Type :=
| ALit (c : ascii)   (* an ordinary character *)
| AAny               (* .  : any character but a line feed *)
| ADigit             (* \d *)
| ASpace             (* \s *)
| AWord.             (* \w *)

Inductive regex : Type :=
| Eps
| Atom (a : atom)
| WordB                      (* \b *)
| Bol                        (* ^ *)
| Eol                        (* $ *)
| Seq (r1 r2 : regex)
| Alt (r1 r2 : regex)
| Star (r : regex)           (* greedy *)
| Group (i : nat) (r : regex).

Definition Plus (r : regex) : regex := Seq r (Star r).
Definition Opt (r : regex) : regex := Alt r Eps.

Fixpoint Repeat (n : nat) (r : regex) : regex :=
  match n with
  | 0 => Eps
  | 1 => r
  | S n' => Seq r (Repeat n' r)
  end.

Fixpoint seq_list (rs : list regex) : regex :=
  match rs with
  | [] => Eps
  | [r] => r
  | r :: rs' => Seq r (seq_list rs')
  end.

Fixpoint alt_list (r : regex) (rs : list regex) : regex :=
  match rs with
  | [] => r
  | r' :: rs' => Alt r (alt_list r' rs')
  end.

(** *** Compilation of pattern text *)

(** What a repetition operator finds to its left. *)
Inductive qstate : Type :=
| QNone       (* nothing, or an anchor: "nothing to repeat" *)
| QItem       (* an atom or a closed group *)
| QRepeated.  (* an item that already carries a repetition *)

(** One open parenthesis level: the group number, the alternatives closed
    by [|] so far, and the current sequence, last item first. *)
Record frame : Type := mk_frame {
  f_idx : nat;
  f_alts : list regex;
  f_seq : list regex;
  f_q : qstate
}.

Definition new_frame (i : nat) : frame := mk_frame i [] [] QNone.

Definition frame_regex (f : frame) : regex :=
  match f_alts f ++ [seq_list (rev (f_seq f))] with
  | [] => Eps
  | r :: rs => alt_list r rs
  end.

Definition push_item (q : qstate) (r : regex) (f : frame) : frame :=
  mk_frame (f_idx f) (f_alts f) (r :: f_seq f) q.

Definition next_alt (f : frame) : frame :=
  mk_frame (f_idx f) (f_alts f ++ [seq_list (rev (f_seq f))]) [] QNone.

(** Apply a repetition to the last item.  [again] is what a second
    repetition operator means: an error for [*] and [{n}], a lazy or
    possessive variant for [?] and [+]. *)
Definition quantify (again : failure) (mk : regex -> regex) (f : frame)
  : result frame :=
  match f_q f, f_seq f with
  | QItem, r :: rs => Ok (mk_frame (f_idx f) (f_alts f) (mk r :: rs) QRepeated)
  | QRepeated, _ => Fail again
  | _, _ => Fail ReError
  end.

Fixpoint read_digits (p : str) : str * str :=
  match p with
  | c :: p' =>
      if is_digit c
      then let (ds, tl) := read_digits p' in (c :: ds, tl)
      else ([], p)
  | [] => ([], [])
  end.

Definition nat_of_digits (ds : str) : nat :=
  fold_left (fun acc c => 10 * acc + (code c - 48)) ds 0.

(** The repetition numbers [re] accepts lie below [MAXREPEAT]. *)
Definition MAXREPEAT : N := 4294967295.

Definition N_of_digits (ds : str) : N :=
  fold_left (fun acc c => (10 * acc + N.of_nat (code c - 48))%N) ds 0%N.

Inductive brace : Type :=
| BLiteral               (* the brace is an ordinary character *)
| BExact (n skip : nat)  (* {n}: repeat n times, [skip] characters long *)
| BTooLarge              (* {n} with n at or above MAXREPEAT *)
| BRange.                (* {m,n} and its open forms *)

(** What follows an opening brace, as [sre_parse] reads it. *)
Definition read_brace (p : str) : brace :=
  let (lo, p1) := read_digits p in
  match p1 with
  | "}"%char :: _ =>
      match lo with
      | [] => BLiteral
      | _ =>
          if (MAXREPEAT <=? N_of_digits lo)%N
          then BTooLarge
          else BExact (nat_of_digits lo) (S (length lo))
      end
  | ","%char :: p2 =>
      let (hi, p3) := read_digits p2 in
      match p3 with
      | "}"%char :: _ => BRange
      | _ => BLiteral
      end
  | _ => BLiteral
  end.

Definition is_punct (c : ascii) : bool :=
  (code c <? 128) && negb (is_alpha c || is_digit c).

(** The parser reads the pattern left to right.  [skip] counts characters
    already consumed by a [{n}]; [esc] tells that the previous character
    was a backslash; [cur] is the innermost open level, [up] the enclosing
    ones, [next] the number of the next group. *)
Fixpoint parse (p : str) (skip : nat) (esc : bool)
         (cur : frame) (up : list frame) (next : nat) : result regex :=
  match p with
  | [] =>
      if esc then Fail ReError
      else match up with
           | [] => Ok (frame_regex cur)
           | _ :: _ => Fail ReError
           end
  | c :: p' =>
      match skip with
      | S k => parse p' k false cur up next
      | 0 =>
          if esc then
            if Ascii.eqb c "b" then parse p' 0 false (push_item QNone WordB cur) up next
            else if Ascii.eqb c "d" then parse p' 0 false (push_item QItem (Atom ADigit) cur) up next
            else if Ascii.eqb c "s" then parse p' 0 false (push_item QItem (Atom ASpace) cur) up next
            else if Ascii.eqb c "w" then parse p' 0 false (push_item QItem (Atom AWord) cur) up next
            else if is_punct c then parse p' 0 false (push_item QItem (Atom (ALit c)) cur) up next
            else Fail NotModelled
          else if Ascii.eqb c "\" then parse p' 0 true cur up next
          else if Ascii.eqb c "." then parse p' 0 false (push_item QItem (Atom AAny) cur) up next
          else if Ascii.eqb c "^" then parse p' 0 false (push_item QNone Bol cur) up next
          else if Ascii.eqb c "$" then parse p' 0 false (push_item QNone Eol cur) up next
          else if Ascii.eqb c "|" then parse p' 0 false (next_alt cur) up next
          else if Ascii.eqb c "(" then
            match p' with
            | "?"%char :: _ => Fail NotModelled
            | _ => parse p' 0 false (new_frame next) (cur :: up) (S next)
            end
          else if Ascii.eqb c ")" then
            match up with
            | [] => Fail ReError
            | f :: up' =>
                parse p' 0 false
                      (push_item QItem (Group (f_idx cur) (frame_regex cur)) f)
                      up' next
            end
          else if Ascii.eqb c "*" then
            cur' <- quantify ReError Star cur ;; parse p' 0 false cur' up next
          else if Ascii.eqb c "+" then
            cur' <- quantify NotModelled Plus cur ;; parse p' 0 false cur' up next
          else if Ascii.eqb c "?" then
            cur' <- quantify NotModelled Opt cur ;; parse p' 0 false cur' up next
          else if Ascii.eqb c "[" then Fail NotModelled
          else if Ascii.eqb c "{" then
            match read_brace p' with
            | BLiteral => parse p' 0 false (push_item QItem (Atom (ALit c)) cur) up next
            | BExact n k =>
                cur' <- quantify ReError (Repeat n) cur ;; parse p' k false cur' up next
            | BTooLarge => Fail OverflowError
            | BRange => Fail NotModelled
            end
          else parse p' 0 false (push_item QItem (Atom (ALit c)) cur) up next
      end
  end.

(** [re.compile(pattern)] *)
Definition compile (pattern : str) : result regex :=
  parse pattern 0 false (new_frame 0) [] 1.

(** *** Matching *)

(** A position in the subject: the character before it, the text after it
    and the text of the groups closed so far, latest first. *)
Record cursor : Type := mk_cursor {
  prev : option ascii;
  rest : str;
  caps : list (nat * str)
}.

Definition newline : ascii := ascii_of_nat 10.

Definition atom_match (ic : bool) (a : atom) (c : ascii) : bool :=
  match a with
  | ALit x => if ic then Ascii.eqb (lower_char x) (lower_char c) else Ascii.eqb x c
  | AAny => negb (Ascii.eqb c newline)
  | ADigit => is_digit c
  | ASpace => is_space c
  | AWord => is_word c
  end.

Definition word_at (c : option ascii) : bool :=
  match c with
  | Some x => is_word x
  | None => false
  end.

Definition at_boundary (st : cursor) : bool :=
  xorb (word_at (prev st)) (word_at (hd_error (rest st))).

Definition at_end (st : cursor) : bool :=
  match rest st with
  | [] => true
  | [c] => Ascii.eqb c newline
  | _ => false
  end.

(** The text between two cursors of one subject. *)
Definition consumed (st st' : cursor) : str :=
  firstn (length (rest st) - length (rest st')) (rest st).

Definition close_group (i : nat) (st st' : cursor) : cursor :=
  mk_cursor (prev st') (rest st') ((i, consumed st st') :: caps st').

(** Greedy repetition: one more round first, then stop.  A round that
    consumes nothing is not repeated. *)
Fixpoint star_loop (step : cursor -> list cursor) (n : nat) (st : cursor)
  : list cursor :=
  match n with
  | 0 => [st]
  | S n' =>
      flat_map (fun st' =>
                  if length (rest st') <? length (rest st)
                  then star_loop step n' st'
                  else [])
               (step st)
      ++ [st]
  end.

(** All the ways [r] matches at [st], in the order backtracking finds them. *)
Fixpoint ms (ic : bool) (r : regex) (st : cursor) {struct r} : list cursor :=
  match r with
  | Eps => [st]
  | Atom a =>
      match rest st with
      | c :: t => if atom_match ic a c then [mk_cursor (Some c) t (caps st)] else []
      | [] => []
      end
  | WordB => if at_boundary st then [st] else []
  | Bol => match prev st with None => [st] | Some _ => [] end
  | Eol => if at_end st then [st] else []
  | Seq r1 r2 => flat_map (ms ic r2) (ms ic r1 st)
  | Alt r1 r2 => ms ic r1 st ++ ms ic r2 st
  | Star r1 => star_loop (ms ic r1) (length (rest st)) st
  | Group i r1 => map (close_group i st) (ms ic r1 st)
  end.

(** The match at a position, if any. *)
Definition match_at (ic : bool) (r : regex) (p : option ascii) (s : str)
  : option cursor :=
  hd_error (ms ic r (mk_cursor p s [])).

(** A match object: where it starts, its text and its groups. *)
Record rmatch : Type := mk_match {
  m_start : nat;
  m_text : str;
  m_caps : list (nat * str)
}.

Fixpoint lookup (i : nat) (l : list (nat * str)) : option str :=
  match l with
  | [] => None
  | (j, v) :: l' => if i =? j then Some v else lookup i l'
  end.

(** [m.group(i)], used as a string: a group that took no part in the
    match is [None], and the callers' [.lower()] and [int()] raise on it. *)
Definition group (m : rmatch) (i : nat) : result str :=
  match i with
  | 0 => Ok (m_text m)
  | _ => match lookup i (m_caps m) with
         | Some v => Ok v
         | None => Fail NoneError
         end
  end.

(** Leftmost match at or after the current position. *)
Fixpoint search_from (ic : bool) (r : regex) (at_ : nat) (p : option ascii) (s : str)
  : option rmatch :=
  match match_at ic r p s with
  | Some st => Some (mk_match at_ (consumed (mk_cursor p s []) st) (caps st))
  | None =>
      match s with
      | [] => None
      | c :: s' => search_from ic r (S at_) (Some c) s'
      end
  end.

(** The candidate an attempt reports: the first way to match, or, right
    after an empty match at the same place, the first one that consumes
    something. *)
Definition pick (advance : bool) (s : str) (cands : list cursor) : option cursor :=
  if advance
  then find (fun st => length (rest st) <? length s) cands
  else hd_error cands.

(** Successive non-overlapping matches.  After a match the scan resumes
    where it ended; after an empty match it tries the same place once
    more for a match that is not empty. *)
Fixpoint scan (fuel : nat) (ic : bool) (r : regex) (at_ : nat)
         (p : option ascii) (s : str) (advance : bool) : list rmatch :=
  match fuel with
  | 0 => []
  | S fuel' =>
      match pick advance s (ms ic r (mk_cursor p s [])) with
      | Some st =>
          let m := mk_match at_ (consumed (mk_cursor p s []) st) (caps st) in
          match m_text m with
          | [] => m :: scan fuel' ic r at_ p s true
          | _ :: _ =>
              m :: scan fuel' ic r (at_ + length (m_text m)) (prev st) (rest st) false
          end
      | None =>
          match s with
          | [] => []
          | c :: s' => scan fuel' ic r (S at_) (Some c) s' false
          end
      end
  end.

Fixpoint substitute (fuel : nat) (ic : bool) (r : regex) (repl : str)
         (p : option ascii) (s : str) (advance : bool) : str :=
  match fuel with
  | 0 => s
  | S fuel' =>
      match pick advance s (ms ic r (mk_cursor p s [])) with
      | Some st =>
          match consumed (mk_cursor p s []) st with
          | [] => repl ++ substitute fuel' ic r repl p s true
          | _ :: _ => repl ++ substitute fuel' ic r repl (prev st) (rest st) false
          end
      | None =>
          match s with
          | [] => []
          | c :: s' => c :: substitute fuel' ic r repl (Some c) s' false
          end
      end
  end.

(** Every place of the subject is tried at most twice. *)
Definition fuel_for (s : str) : nat := 2 * S (length s).

(** Does every match of [r] close group [i]? *)
Fixpoint sets_group (i : nat) (r : regex) : bool :=
  match r with
  | Seq r1 r2 => sets_group i r1 || sets_group i r2
  | Alt r1 r2 => sets_group i r1 && sets_group i r2
  | Group j r1 => (i =? j) || sets_group i r1
  | _ => false
  end.

(** The least number of characters a match of [r] consumes. *)
Fixpoint min_len (r : regex) : nat :=
  match r with
  | Atom _ => 1
  | Seq r1 r2 => min_len r1 + min_len r2
  | Alt r1 r2 => Nat.min (min_len r1) (min_len r2)
  | Group _ r1 => min_len r1
  | _ => 0
  end.

(** The lower-cased texts of a pattern made of ordinary characters,
    sequences and alternatives only. *)
Fixpoint words (r : regex) : option (list str) :=
  match r with
  | Eps => Some [[]]
  | Atom (ALit c) => Some [[lower_char c]]
  | Seq r1 r2 =>
      match words r1, words r2 with
      | Some l1, Some l2 => Some (flat_map (fun a => map (app a) l2) l1)
      | _, _ => None
      end
  | Alt r1 r2 =>
      match words r1, words r2 with
      | Some l1, Some l2 => Some (l1 ++ l2)
      | _, _ => None
      end
  | Group _ r1 => words r1
  | _ => None
  end.

(** [re.search(pattern, s, flags)] as a truth value *)
Definition search (pattern : str) (s : str) (ic : bool) : result bool :=
  r <- compile pattern ;;
  Ok (match search_from ic r 0 None s with Some _ => true | None => false end).

(** [re.finditer(pattern, s, flags)] *)
Definition finditer (pattern : str) (s : str) (ic : bool) : result (list rmatch) :=
  r <- compile pattern ;;
  Ok (scan (fuel_for s) ic r 0 None s false).

(** [re.sub(pattern, repl, s, flags=...)] *)
Definition sub (pattern : str) (repl : str) (s : str) (ic : bool) : result str :=
  r <- compile pattern ;;
  Ok (substitute (fuel_for s) ic r repl None s false).

(** *** Notions the statements about the matcher use *)

(** A property of every atom, of every group of a pattern. *)
Fixpoint all_atoms (P : atom -> Prop) (r : regex) : Prop :=
  match r with
  | Atom a => P a
  | Seq r1 r2 | Alt r1 r2 => all_atoms P r1 /\ all_atoms P r2
  | Star r1 | Group _ r1 => all_atoms P r1
  | _ => True
  end.

Fixpoint all_groups (P : nat -> regex -> Prop) (r : regex) : Prop :=
  match r with
  | Seq r1 r2 | Alt r1 r2 => all_groups P r1 /\ all_groups P r2
  | Star r1 => all_groups P r1
  | Group i r1 => P i r1 /\ all_groups P r1
  | _ => True
  end.

(** A pattern consumes a prefix of what is left and only adds groups. *)
Definition extends (a b : cursor) : Prop :=
  (exists w, rest a = w ++ rest b) /\ (exists e, caps b = e ++ caps a).

(** Every recorded group text satisfies [P]. *)
Definition caps_sat (P : nat -> str -> Prop) (c : list (nat * str)) : Prop :=
  Forall (fun iv => P (fst iv) (snd iv)) c.

(** Matches come left to right and do not overlap. *)
Definition precedes (a b : rmatch) : Prop :=
  m_start a + length (m_text a) <= m_start b.

End Re.

(* ================================================================== *)
(** ** Data model *)

(** A naive [datetime]. *)
Record datetime : Type := mk_datetime {
  dt_year : Z;
  dt_month : Z;
  dt_day : Z;
  dt_hour : Z;
  dt_minute : Z;
  dt_second : Z;
  dt_microsecond : Z
}.

Definition dt_fields (d : datetime) : list Z :=
  [dt_year d; dt_month d; dt_day d; dt_hour d; dt_minute d; dt_second d;
   dt_microsecond d].

Fixpoint lex_ltb (a b : list Z) : bool :=
  match a, b with
  | x :: a', y :: b' => (x <? y)%Z || ((x =? y)%Z && lex_ltb a' b')
  | _, _ => false
  end.

(** [a < b] on datetimes *)
Definition dt_ltb (a b : datetime) : bool := lex_ltb (dt_fields a) (dt_fields b).

Record DateFilter : Type := mk_DateFilter {
  year : option Z;
  month : option Z;
  start_date : option datetime;
  end_date : option datetime
}.

Record AlbumSpec : Type := mk_AlbumSpec {
  name : str;
  keywords : list str;
  date_filter : option DateFilter;
  original_prompt : str
}.

(** [file_created] is declared a [datetime]; it is optional here so that
    a record without any date can be written down. *)
Record PhotoMetadata : Type := mk_PhotoMetadata {
  path : str;
  filename : str;
  folder_name : str;
  file_created : option datetime;
  file_modified : option datetime;
  exif_date : option datetime;
  exif_location : option (Z * Z);
  size_bytes : Z
}.

(** A Python dict with string keys: the items in insertion order, every
    key once. *)
Definition dict (V : Type) : Type := list (str * V).

Fixpoint dict_find {V : Type} (k : str) (d : dict V) : option V :=
  match d with
  | [] => None
  | (k', v) :: d' => if str_eqb k k' then Some v else dict_find k d'
  end.

(** [d[k]] *)
Definition dict_get {V : Type} (d : dict V) (k : str) : result V :=
  match dict_find k d with
  | Some v => Ok v
  | None => Fail KeyError
  end.

(** [d[k] = v]: a key already present keeps its place. *)
Fixpoint dict_set {V : Type} (k : str) (v : V) (d : dict V) : dict V :=
  match d with
  | [] => [(k, v)]
  | (k', v') :: d' =>
      if str_eqb k k' then (k', v) :: d' else (k', v') :: dict_set k v d'
  end.

Definition dict_keys {V : Type} (d : dict V) : list str := map fst d.

(** The sizes of the buckets added up, and their contents one after the
    other. *)
Definition total_len {A : Type} (d : dict (list A)) : nat :=
  list_sum (map (fun kv => length (snd kv)) d).

Definition all_values {A : Type} (d : dict (list A)) : list A :=
  concat (map snd d).

Record MatchResult : Type := mk_MatchResult {
  matched : dict (list PhotoMetadata);
  unmatched : list PhotoMetadata;
  match_stats : dict Z
}.

(** Truth value of a string, of an optional number. *)
Definition truthy (s : str) : bool :=
  match s with [] => false | _ :: _ => true end.

Definition truthy_int (n : option Z) : bool :=
  match n with
  | Some v => negb (v =? 0)%Z
  | None => false
  end.

(** [v == n] for an optional number [n] *)
Definition int_is (n : option Z) (v : Z) : bool :=
  match n with
  | Some x => (v =? x)%Z
  | None => false
  end.

(* ================================================================== *)
(** ** PromptParser *)

Module PromptParser.

Definition MONTH_NAMES : dict Z :=
  [ (lit "january", 1); (lit "jan", 1);
    (lit "february", 2); (lit "feb", 2);
    (lit "march", 3); (lit "mar", 3);
    (lit "april", 4); (lit "apr", 4);
    (lit "may", 5);
    (lit "june", 6); (lit "jun", 6);
    (lit "july", 7); (lit "jul", 7);
    (lit "august", 8); (lit "aug", 8);
    (lit "september", 9); (lit "sep", 9); (lit "sept", 9);
    (lit "october", 10); (lit "oct", 10);
    (lit "november", 11); (lit "nov", 11);
    (lit "december", 12); (lit "dec", 12) ]%Z.

Definition STOP_WORDS : list str :=
  map lit
    [ "a"; "an"; "and"; "or"; "the"; "in"; "on"; "at"; "to"; "for";
      "of"; "with"; "by"; "from"; "create"; "albums"; "album"; "photos";
      "organize"; "sort"; "group" ]%string.

(** The body of the loop over [parts]. *)
Definition add_name (album_names : list str) (part : str) : list str :=
  if truthy part && (0 <? length part)
  then
    let name := join (lit " ") (map capitalize (split_ws part)) in
    if truthy name then album_names ++ [name] else album_names
  else album_names.

Definition extract_album_names (prompt : str) : result (list str) :=
  let text := lower prompt in
  text <- Re.sub (lit "create albums? for") [] text false ;;
  text <- Re.sub (lit "organize (photos? )?into") [] text false ;;
  text <- Re.sub (lit "sort (photos? )?by") [] text false ;;
  text <- Re.sub (lit "\b\d{4}\b") [] text false ;;
  text <- Re.sub
            (lit "\b(january|february|march|april|may|june|july|august|september|october|november|december)\b")
            [] text true ;;
  text <- Re.sub (lit "\b(jan|feb|mar|apr|may|jun|jul|aug|sep|sept|oct|nov|dec)\b")
            [] text true ;;
  text <- Re.sub (lit "\d{4}-\d{2}") [] text false ;;
  text <- Re.sub (lit "\s+and\s+") (lit ",") text false ;;
  text <- Re.sub (lit "\s+or\s+") (lit ",") text false ;;
  let parts := map strip (split_on "," text) in
  Ok (fold_left add_name parts []).

Definition in_range (lo hi v : Z) : bool := ((lo <=? v) && (v <=? hi))%Z.

Definition pattern1 : str :=
  lit "\b(" ++ join (lit "|") (dict_keys MONTH_NAMES) ++ lit ")\s+(\d{4})\b".
Definition pattern2 : str := lit "\b(\d{4})-(\d{2})\b".
Definition pattern3 : str := lit "\b(\d{4})\b".

(** The bodies of the three loops over matches. *)
Definition add_month_year (date_filters : list DateFilter) (m : Re.rmatch)
  : result (list DateFilter) :=
  g1 <- Re.group m 1 ;;
  let month_name := lower g1 in
  g2 <- Re.group m 2 ;;
  year <- int_of g2 ;;
  month <- dict_get MONTH_NAMES month_name ;;
  Ok (date_filters ++ [mk_DateFilter (Some year) (Some month) None None]).

Definition add_iso (date_filters : list DateFilter) (m : Re.rmatch)
  : result (list DateFilter) :=
  g1 <- Re.group m 1 ;;
  year <- int_of g1 ;;
  g2 <- Re.group m 2 ;;
  month <- int_of g2 ;;
  if in_range 1 12 month
  then Ok (date_filters ++ [mk_DateFilter (Some year) (Some month) None None])
  else Ok date_filters.

Definition add_year (date_filters : list DateFilter) (m : Re.rmatch)
  : result (list DateFilter) :=
  g1 <- Re.group m 1 ;;
  year <- int_of g1 ;;
  if in_range 2000 2100 year
  then Ok (date_filters ++ [mk_DateFilter (Some year) None None None])
  else Ok date_filters.

Definition extract_dates (prompt : str) : result (list DateFilter) :=
  let date_filters := [] in
  let text := lower prompt in
  ms1 <- Re.finditer pattern1 text true ;;
  date_filters <- foldM add_month_year ms1 date_filters ;;
  ms2 <- Re.finditer pattern2 text false ;;
  date_filters <- foldM add_iso ms2 date_filters ;;
  match date_filters with
  | [] =>
      ms3 <- Re.finditer pattern3 text false ;;
      foldM add_year ms3 date_filters
  | _ :: _ => Ok date_filters
  end.

Definition extract_keywords (album_name : str) : list str :=
  let words := split_ws (lower album_name) in
  let keywords := filter (fun w => negb (mem w STOP_WORDS)) words in
  if negb (mem (lower album_name) keywords)
  then lower album_name :: keywords
  else keywords.

Definition parse (prompt : str) : result (list AlbumSpec) :=
  album_names <- extract_album_names prompt ;;
  dates <- extract_dates prompt ;;
  Ok (fold_left
        (fun album_specs name =>
           let keywords := extract_keywords name in
           let date_filter := hd_error dates in
           album_specs ++ [mk_AlbumSpec name keywords date_filter prompt])
        album_names []).

End PromptParser.

(** *** The loops of [extract_dates] in closed form

    What the three loops of [extract_dates] append, as functions of the
    matches that [finditer] reports for the three patterns of the code.
    This is the code once more, without its error monad; what the
    specification says of date extraction is [DateWords] below. *)

Module DateLoops.
Import PromptParser.

(** The text of group [i], the number a digit string denotes and the
    number of a month name. *)
Definition group_text (m : Re.rmatch) (i : nat) : str :=
  match Re.lookup i (Re.m_caps m) with
  | Some v => v
  | None => []
  end.

Definition number (s : str) : Z :=
  fold_left (fun acc c => (10 * acc + digit_value c)%Z) s 0%Z.

Definition month_number (month_name : str) : Z :=
  match dict_find month_name MONTH_NAMES with
  | Some v => v
  | None => 0%Z
  end.

Definition matches_of (pattern text : str) (ic : bool) : list Re.rmatch :=
  match Re.finditer pattern text ic with
  | Ok l => l
  | Fail _ => []
  end.

Definition month_year_filter (m : Re.rmatch) : list DateFilter :=
  [mk_DateFilter (Some (number (group_text m 2)))
                 (Some (month_number (lower (group_text m 1)))) None None].

Definition iso_filter (m : Re.rmatch) : list DateFilter :=
  if in_range 1 12 (number (group_text m 2))
  then [mk_DateFilter (Some (number (group_text m 1)))
                      (Some (number (group_text m 2))) None None]
  else [].

Definition year_filter (m : Re.rmatch) : list DateFilter :=
  if in_range 2000 2100 (number (group_text m 1))
  then [mk_DateFilter (Some (number (group_text m 1))) None None None]
  else [].

Definition loop1 (text : str) : list DateFilter :=
  flat_map month_year_filter (matches_of pattern1 text true).

Definition loop2 (text : str) : list DateFilter :=
  flat_map iso_filter (matches_of pattern2 text false).

Definition loop3 (text : str) : list DateFilter :=
  flat_map year_filter (matches_of pattern3 text false).

Definition dates (prompt : str) : list DateFilter :=
  let text := lower prompt in
  match loop1 text ++ loop2 text with
  | [] => loop3 text
  | found => found
  end.

(** The three date patterns, compiled. *)
Definition re1 : Re.regex :=
  Eval vm_compute in match Re.compile pattern1 with Ok r => r | Fail _ => Re.Eps end.
Definition re2 : Re.regex :=
  Eval vm_compute in match Re.compile pattern2 with Ok r => r | Fail _ => Re.Eps end.
Definition re3 : Re.regex :=
  Eval vm_compute in match Re.compile pattern3 with Ok r => r | Fail _ => Re.Eps end.

(** Text a number can be read from. *)
Definition digits (w : str) : Prop := w <> [] /\ forallb is_digit w = true.

Definition is_month_key (w : str) : bool :=
  match dict_find w MONTH_NAMES with Some _ => true | None => false end.

(** What the groups of the three patterns hold. *)
Definition group1_spec (i : nat) (w : str) : Prop :=
  match i with
  | 1 => is_month_key (lower w) = true
  | 2 => digits w
  | _ => True
  end.

Definition group23_spec (i : nat) (w : str) : Prop :=
  match i with
  | 1 | 2 => digits w
  | _ => True
  end.

End DateLoops.

(* ================================================================== *)
(** ** Date extraction as the specification words it

    The lower-cased prompt is read from left to right for tokens.  A token
    stands free: neither the character before it nor the character after
    it, where there is one, is a letter, a digit or an underscore.  Where a
    token is recognised it is taken, and reading resumes behind it.

    - (a) A month-year pair is a month name of the lookup table, white
      space, and a 4-digit year.  Each pair gives a filter with that year
      and the month of the name.
    - (b) A YYYY-MM token is four digits, a hyphen and two digits.  Each
      token whose month is 1..12 gives a filter with that year and month.
    - (c) A bare 4-digit number is four digits.  Each number in 2000..2100
      gives a filter with that year.

    The filters of (a) come first, then those of (b); those of (c) are
    the result only when (a) and (b) gave none.

    Nothing here refers to the patterns of [PromptParser] or to the regular
    expression matcher. *)

Module DateWords.

(** The lookup table: the twelve month names in full, each with its first
    three letters as abbreviation, September with its first four as well. *)
Definition month_names : list str :=
  map lit
    [ "january"; "february"; "march"; "april"; "may"; "june"; "july";
      "august"; "september"; "october"; "november"; "december" ]%string.

Definition spellings (full : str) : list str :=
  full :: firstn 3 full
       :: (if str_eqb full (lit "september") then [firstn 4 full] else []).

Fixpoint numbered (n : Z) (names : list str) : list (str * Z) :=
  match names with
  | [] => []
  | full :: names' =>
      map (fun w => (w, n)) (spellings full) ++ numbered (n + 1) names'
  end.

Definition table : list (str * Z) := numbered 1 month_names.

Fixpoint month_in (t : list (str * Z)) (w : str) : option Z :=
  match t with
  | [] => None
  | (k, n) :: t' => if str_eqb w k then Some n else month_in t' w
  end.

(** The month a name stands for, if it is in the table. *)
Definition month_of (w : str) : option Z := month_in table w.

(** The number that decimal digits write. *)
Definition value (digits : str) : Z :=
  fold_left (fun n c => (10 * n + digit_value c)%Z) digits 0%Z.

(** Nothing of a word stands before, or at the head of what follows. *)
Definition free_before (prev : option ascii) : bool :=
  match prev with
  | Some c => negb (is_word c)
  | None => true
  end.

Definition free_after (s : str) : bool :=
  match s with
  | c :: _ => negb (is_word c)
  | [] => true
  end.

(** [n] digits at the head of a text, and the text behind them. *)
Fixpoint digits_at (n : nat) (s : str) : option (str * str) :=
  match n with
  | 0 => Some ([], s)
  | S n' =>
      match s with
      | c :: s' =>
          if is_digit c
          then match digits_at n' s' with
               | Some (ds, t) => Some (c :: ds, t)
               | None => None
               end
          else None
      | [] => None
      end
  end.

(** The longest head of a text whose characters pass [f], and the rest. *)
Fixpoint span (f : ascii -> bool) (s : str) : str * str :=
  match s with
  | c :: s' =>
      if f c then let (w, t) := span f s' in (c :: w, t) else ([], s)
  | [] => ([], [])
  end.

(** The token at the head of [s], [prev] being the character before it:
    what it says and how long it is. *)
Definition year_at (prev : option ascii) (s : str) : option (Z * nat) :=
  match digits_at 4 s with
  | Some (y, t) =>
      if free_before prev && free_after t then Some (value y, 4) else None
  | None => None
  end.

Definition iso_at (prev : option ascii) (s : str) : option ((Z * Z) * nat) :=
  match digits_at 4 s with
  | Some (y, c :: t) =>
      match digits_at 2 t with
      | Some (m, t') =>
          if Ascii.eqb c "-" && free_before prev && free_after t'
          then Some ((value y, value m), 7)
          else None
      | None => None
      end
  | _ => None
  end.

Definition month_year_at (prev : option ascii) (s : str)
  : option ((Z * Z) * nat) :=
  let (w, t) := span (fun c => negb (is_space c)) s in
  let (blank, t') := span is_space t in
  match month_of w, blank, digits_at 4 t' with
  | Some m, _ :: _, Some (y, t'') =>
      if free_before prev && free_after t''
      then Some ((value y, m), length w + length blank + 4)
      else None
  | _, _, _ => None
  end.

(** The tokens of a text from left to right.  [skip] counts the characters
    that still belong to the token taken last. *)
Fixpoint tokens {T : Type} (token_at : option ascii -> str -> option (T * nat))
         (skip : nat) (prev : option ascii) (s : str) : list T :=
  match s with
  | [] => []
  | c :: s' =>
      match skip with
      | S k => tokens token_at k (Some c) s'
      | 0 =>
          match token_at prev s with
          | Some (t, n) => t :: tokens token_at (n - 1) (Some c) s'
          | None => tokens token_at 0 (Some c) s'
          end
      end
  end.

Definition month_year_pairs (text : str) : list (Z * Z) :=
  tokens month_year_at 0 None text.

Definition iso_tokens (text : str) : list (Z * Z) :=
  tokens iso_at 0 None text.

Definition bare_numbers (text : str) : list Z :=
  tokens year_at 0 None text.

Definition within (lo hi v : Z) : bool := ((lo <=? v) && (v <=? hi))%Z.

Definition for_month (ym : Z * Z) : DateFilter :=
  mk_DateFilter (Some (fst ym)) (Some (snd ym)) None None.

Definition for_year (y : Z) : DateFilter :=
  mk_DateFilter (Some y) None None None.

Definition category_a (text : str) : list DateFilter :=
  map for_month (month_year_pairs text).

Definition category_b (text : str) : list DateFilter :=
  map for_month (filter (fun ym => within 1 12 (snd ym)) (iso_tokens text)).

Definition category_c (text : str) : list DateFilter :=
  map for_year (filter (within 2000 2100) (bare_numbers text)).

Definition dates (prompt : str) : list DateFilter :=
  let text := lower prompt in
  match category_a text ++ category_b text with
  | [] => category_c text
  | found => found
  end.

End DateWords.

(** *** Notions the comparison of the two readings uses *)

Module TokenNotions.

(** The character before the position that lies [w] behind a position
    whose character before is [prev]. *)
Definition last_of (prev : option ascii) (w : str) : option ascii :=
  fold_left (fun _ c => Some c) w prev.

(** Text that [lower] leaves as it is. *)
Definition lowered (s : str) : Prop := Forall (fun c => lower_char c = c) s.

(** A pattern moves from a position to one further right. *)
Definition moves (a b : Re.cursor) : Prop :=
  exists w, Re.rest a = w ++ Re.rest b /\ Re.prev b = last_of (Re.prev a) w.

(** The one position that [n] digits lead to. *)
Definition digits_cursor (n : nat) (st : Re.cursor) : list Re.cursor :=
  match DateWords.digits_at n (Re.rest st) with
  | Some (y, t) => [Re.mk_cursor (last_of (Re.prev st) y) t (Re.caps st)]
  | None => []
  end.

(** What every month name of the code's table passes. *)
Definition month_key (k : str) : bool :=
  DateLoops.is_month_key k
  && forallb (fun c => negb (is_space c)) k
  && match k with c :: _ => is_word c | [] => false end.

(** The choice of month names in the first date pattern, and the fixed
    parts of the three patterns. *)
Definition month_choice : Re.regex :=
  Eval vm_compute in
    match DateLoops.re1 with
    | Re.Seq _ (Re.Seq (Re.Group _ r) _) => r
    | _ => Re.Eps
    end.

Definition four_digits : Re.regex :=
  Re.Repeat 4 (Re.Atom Re.ADigit).

Definition blank : Re.regex :=
  Re.Plus (Re.Atom Re.ASpace).

End TokenNotions.

(* ================================================================== *)
(** ** PatternMatcher *)

Module PatternMatcher.

(** The loop over keywords that [match_filename] and [match_folder] both
    run, on the lower-cased file name and folder name. *)
Fixpoint match_keywords (subject_lower : str) (keywords : list str) : result bool :=
  match keywords with
  | [] => Ok false
  | keyword :: keywords' =>
      if has_char "*" keyword
      then
        let pattern := replace_char "*" (lit ".*") keyword in
        let pattern := "^"%char :: pattern in
        hit <- Re.search pattern subject_lower true ;;
        if hit then Ok true else match_keywords subject_lower keywords'
      else
        if contains (lower keyword) subject_lower
        then Ok true
        else match_keywords subject_lower keywords'
  end.

Definition match_filename (photo : PhotoMetadata) (keywords : list str) : result bool :=
  let filename_lower := lower (filename photo) in
  match_keywords filename_lower keywords.

Definition match_folder (photo : PhotoMetadata) (keywords : list str) : result bool :=
  let folder_lower := lower (folder_name photo) in
  match_keywords folder_lower keywords.

Definition match_date (photo : PhotoMetadata) (date_filter : DateFilter) : bool :=
  let photo_date :=
    match exif_date photo with
    | Some d => Some d
    | None => file_created photo
    end in
  match photo_date with
  | None => false
  | Some photo_date =>
      if truthy_int (year date_filter)
         && negb (int_is (year date_filter) (dt_year photo_date))
      then false
      else if truthy_int (month date_filter)
              && negb (int_is (month date_filter) (dt_month photo_date))
      then false
      else if match start_date date_filter with
              | Some d => dt_ltb photo_date d
              | None => false
              end
      then false
      else if match end_date date_filter with
              | Some d => dt_ltb d photo_date
              | None => false
              end
      then false
      else true
  end.

(** [match_filename(...) or match_folder(...)] *)
Definition keyword_match (photo : PhotoMetadata) (keywords : list str) : result bool :=
  by_name <- match_filename photo keywords ;;
  if by_name then Ok true else match_folder photo keywords.

Definition _matches_spec (photo : PhotoMetadata) (spec : AlbumSpec) : result bool :=
  keyword_match <- keyword_match photo (keywords spec) ;;
  match date_filter spec with
  | Some date_filter =>
      let date_match := match_date photo date_filter in
      if keyword_match && date_match then Ok true
      else if keyword_match then Ok true
      else Ok false
  | None => Ok keyword_match
  end.

(** The inner loop of [match]: the name of the first spec that matches. *)
Fixpoint first_match (photo : PhotoMetadata) (album_specs : list AlbumSpec)
  : result (option str) :=
  match album_specs with
  | [] => Ok None
  | spec :: album_specs' =>
      hit <- _matches_spec photo spec ;;
      if hit then Ok (Some (name spec)) else first_match photo album_specs'
  end.

(** The body of the loop over photos; the state is [(matched, unmatched)]. *)
Definition place (album_specs : list AlbumSpec)
           (state : dict (list PhotoMetadata) * list PhotoMetadata)
           (photo : PhotoMetadata)
  : result (dict (list PhotoMetadata) * list PhotoMetadata) :=
  let (matched, unmatched) := state in
  matched_album <- first_match photo album_specs ;;
  match matched_album with
  | Some album =>
      if truthy album
      then
        bucket <- dict_get matched album ;;
        Ok (dict_set album (bucket ++ [photo]) matched, unmatched)
      else Ok (matched, unmatched ++ [photo])
  | None => Ok (matched, unmatched ++ [photo])
  end.

(** [{spec.name: [] for spec in album_specs}] *)
Definition empty_buckets (album_specs : list AlbumSpec) : dict (list PhotoMetadata) :=
  fold_left (fun d spec => dict_set (name spec) [] d) album_specs [].

(** [PatternMatcher(album_specs).match(photos)] *)
Definition match_ (album_specs : list AlbumSpec) (photos : list PhotoMetadata)
  : result MatchResult :=
  state <- foldM (place album_specs) photos (empty_buckets album_specs, []) ;;
  let (matched, unmatched) := state in
  let match_stats := map (fun kv => (fst kv, Z.of_nat (length (snd kv)))) matched in
  Ok (mk_MatchResult matched unmatched match_stats).

End PatternMatcher.

(** *** Keyword matching as the specification words it

    A keyword with [*] matches a candidate that, case apart, starts with
    the text before the [*], goes on with any characters and then holds
    the text after the [*]; a keyword without [*] matches a candidate that
    holds it, case apart. *)

Module KeywordSpec.

(** [pattern], anchored at the start of [s]: an ordinary character stands
    for itself, [*] for zero or more characters; what follows the pattern
    in [s] is free. *)
Fixpoint glob (pattern s : str) : bool :=
  match pattern with
  | [] => true
  | c :: pattern' =>
      if Ascii.eqb c "*"
      then (fix any (t : str) : bool :=
              glob pattern' t
              || match t with
                 | [] => false
                 | _ :: t' => any t'
                 end) s
      else match s with
           | x :: s' => Ascii.eqb c x && glob pattern' s'
           | [] => false
           end
  end.

Definition wildcard (keyword candidate : str) : bool :=
  glob (lower keyword) (lower candidate).

Definition substring (keyword candidate : str) : bool :=
  contains (lower keyword) (lower candidate).

Definition matches (keyword candidate : str) : bool :=
  if has_char "*" keyword then wildcard keyword candidate
  else substring keyword candidate.

(** The characters a pattern gives a meaning of its own, and the keywords
    that hold none of them but [*]. *)
Definition special (c : ascii) : bool :=
  existsb (Ascii.eqb c) (lit "\.^$|()*+?[{").

Definition plain (keyword : str) : bool :=
  forallb (fun c => Ascii.eqb c "*" || negb (special c)) keyword.

Definition one_line (s : str) : bool :=
  forallb (fun c => negb (Ascii.eqb c Re.newline)) s.

(** [*] as [glob] reads it: [test] holds after some number of characters. *)
Fixpoint somewhere (test : str -> bool) (t : str) : bool :=
  test t
  || match t with
     | [] => false
     | _ :: t' => somewhere test t'
     end.

Definition nonempty {A : Type} (l : list A) : bool :=
  match l with
  | [] => false
  | _ :: _ => true
  end.

(** The pattern a plain keyword compiles to, item by item. *)
Definition item (c : ascii) : Re.regex :=
  if Ascii.eqb c "*" then Re.Star (Re.Atom Re.AAny) else Re.Atom (Re.ALit c).

(** The parser's frame after it has read the item of [c]. *)
Definition push (c : ascii) (f : Re.frame) : Re.frame :=
  if Ascii.eqb c "*"
  then Re.mk_frame (Re.f_idx f) (Re.f_alts f) (item c :: Re.f_seq f) Re.QRepeated
  else Re.mk_frame (Re.f_idx f) (Re.f_alts f) (item c :: Re.f_seq f) Re.QItem.

(** A one-line subject in lower case, as [match_filename] passes it. *)
Definition lowered (s : str) : Prop := one_line s = true /\ lower s = s.

(** A keyword the matcher treats as the specification says: one without
    [*], or a plain one. *)
Definition tame (keyword : str) : bool :=
  negb (has_char "*" keyword) || plain keyword.

End KeywordSpec.

(** *** Notions the statements about the matcher use *)

Module MatcherSpec.
Import PatternMatcher.

(** The bucket a photo is sent to: the first matching spec's name when
    that name is not empty. *)
Definition bucket_of (album_specs : list AlbumSpec) (photo : PhotoMetadata)
  : result (option str) :=
  matched_album <- first_match photo album_specs ;;
  Ok (match matched_album with
      | Some album => if truthy album then Some album else None
      | None => None
      end).

(** Is the photo sent to the bucket [album]; is it sent to no bucket? *)
Definition sent_to (album_specs : list AlbumSpec) (album : str)
           (photo : PhotoMetadata) : bool :=
  match bucket_of album_specs photo with
  | Ok (Some n) => str_eqb album n
  | _ => false
  end.

Definition unsent (album_specs : list AlbumSpec) (photo : PhotoMetadata) : bool :=
  match bucket_of album_specs photo with
  | Ok None => true
  | _ => false
  end.

(** No wildcard keyword of the specs makes [re.search] raise. *)
Definition keyword_compiles (keyword : str) : Prop :=
  has_char "*" keyword = true ->
  exists r, Re.compile ("^"%char :: replace_char "*" (lit ".*") keyword) = Ok r.

Definition specs_compile (album_specs : list AlbumSpec) : Prop :=
  forall spec keyword,
    In spec album_specs -> In keyword (keywords spec) -> keyword_compiles keyword.

(** What a [MatchResult] must be to partition the photos. *)
Definition partitions (r : MatchResult) (photos : list PhotoMetadata) : Prop :=
  total_len (matched r) + length (unmatched r) = length photos
  /\ Permutation (all_values (matched r) ++ unmatched r) photos
  /\ NoDup (dict_keys (matched r))
  /\ (forall x n1 b1 n2 b2,
        In (n1, b1) (matched r) -> In (n2, b2) (matched r) ->
        In x b1 -> In x b2 -> n1 = n2 /\ b1 = b2)
  /\ (forall x n b, In (n, b) (matched r) -> In x b -> ~ In x (unmatched r)).


(** Every filter [extract_dates] builds has its year, and constrains
    something: a month-year filter has a month in 1..12, a bare year lies
    in 2000..2100. *)
Definition constrains (f : DateFilter) : Prop :=
  (exists y, year f = Some y)
  /\ (truthy_int (year f) = true \/ truthy_int (month f) = true).

End MatcherSpec.

(** *** Sample records *)

Module Samples.

Definition day (y m d : Z) : datetime := mk_datetime y m d 12 0 0 0.

Definition photo (file folder : string) (created exif : option datetime)
  : PhotoMetadata :=
  mk_PhotoMetadata (lit "/photos") (lit file) (lit folder) created created exif None 0.

Definition spec_of (album : string) (kws : list string) (f : option DateFilter)
  : AlbumSpec :=
  mk_AlbumSpec (lit album) (map lit kws) f [].

Definition in_year (y : Z) : DateFilter := mk_DateFilter (Some y) None None None.
Definition in_month (y m : Z) : DateFilter := mk_DateFilter (Some y) (Some m) None None.

End Samples.

(* ================================================================== *)
(** ** Notions the statements about album names and keywords use *)

Module NameSpec.
Import PromptParser.

(** Text without white space. *)
Definition solid (w : str) : bool := forallb (fun c => negb (is_space c)) w.

(** The words of an album name that are not stop words, in lower case. *)
Definition content_words (album_name : str) : list str :=
  filter (fun w => negb (mem w STOP_WORDS)) (split_ws (lower album_name)).

(** A lower-cased candidate holds the lower-cased album name or one of
    its content words. *)
Definition mentions (album_name candidate_lower : str) : bool :=
  existsb (fun k => contains k candidate_lower)
          (lower album_name :: content_words album_name).

End NameSpec.

(* ================================================================== *)
(** ** Numbers as text *)

Module PyFormat.

Definition digit_char (d : nat) : ascii := ascii_of_nat (48 + d).

(** The decimal digits of [n], the last one first. *)
Fixpoint digits_le (fuel n : nat) : str :=
  match fuel with
  | 0 => []
  | S fuel' =>
      digit_char (n mod 10)
      :: (if n <? 10 then [] else digits_le fuel' (n / 10))
  end.

(** [str(n)] for a number that is not negative *)
Definition decimal (n : nat) : str := rev (digits_le (S n) n).

Definition zeros (k : nat) : str := repeat "0"%char k.

(** [format(z, "0{width}d")], the [{z:0{width}d}] of an f-string: the
    sign, then the digits padded with zeros up to the width. *)
Definition format_d (width : nat) (z : Z) : str :=
  let ds := decimal (Z.abs_nat z) in
  if (z <? 0)%Z
  then "-"%char :: zeros (width - 1 - length ds) ++ ds
  else zeros (width - length ds) ++ ds.

(** [a < b] on strings: by code point, a proper prefix first. *)
Fixpoint str_ltb (a b : str) : bool :=
  match a, b with
  | _, [] => false
  | [], _ :: _ => true
  | x :: a', y :: b' =>
      (code x <? code y) || ((code x =? code y) && str_ltb a' b')
  end.

End PyFormat.

(* ================================================================== *)
(** ** AlbumCreator ([core/albums.py]) in dry-run mode

    With [dry_run] set the creator touches no file: [create_folder] only
    builds the path, [generate_readme] and [generate_summary] return at
    once, and [organize_photos], whose exceptions are all caught, only
    yields a number that is printed.  What [create_albums] returns is then
    a function of the match result and the specs.

    A [Path] is the list of the strings joined with [/], the target folder
    first; the strings are kept as given.  Comparing [None] with a date, or
    reading the year of [None], is reported as [NoneError]. *)

Module Albums.
Import PyFormat PromptParser.

Definition Path : Type := list str.

Record Album : Type := mk_Album {
  album_name : str;
  album_path : Path;
  photos : list PhotoMetadata;
  earliest_date : option datetime;
  latest_date : option datetime;
  album_keywords : list str
}.

(** [p.exif_date or p.file_created] *)
Definition photo_date (p : PhotoMetadata) : option datetime :=
  match exif_date p with
  | Some d => Some d
  | None => file_created p
  end.

(** [a < b] where either side may be [None] *)
Definition lt_opt (a b : option datetime) : result bool :=
  match a, b with
  | Some x, Some y => Ok (dt_ltb x y)
  | _, _ => Fail NoneError
  end.

(** [min] and [max] keep the first item and replace it by each later item
    that is smaller, respectively larger. *)
Fixpoint min_from (best : option datetime) (items : list (option datetime))
  : result (option datetime) :=
  match items with
  | [] => Ok best
  | item :: items' =>
      smaller <- lt_opt item best ;;
      min_from (if smaller then item else best) items'
  end.

Fixpoint max_from (best : option datetime) (items : list (option datetime))
  : result (option datetime) :=
  match items with
  | [] => Ok best
  | item :: items' =>
      larger <- lt_opt best item ;;
      max_from (if larger then item else best) items'
  end.

(** [min(dates)], [max(dates)]: a [ValueError] on the empty list. *)
Definition py_min (dates : list (option datetime)) : result (option datetime) :=
  match dates with
  | [] => Fail ValueError
  | first :: others => min_from first others
  end.

Definition py_max (dates : list (option datetime)) : result (option datetime) :=
  match dates with
  | [] => Fail ValueError
  | first :: others => max_from first others
  end.

(** [datetime(year, month, 1)]: a [ValueError] unless the year is in
    1..9999 and the month in 1..12. *)
Definition first_of_month (y m : Z) : result datetime :=
  if in_range 1 9999 y && in_range 1 12 m
  then Ok (mk_datetime y m 1 0 0 0 0)
  else Fail ValueError.

Definition number_of (n : option Z) : Z :=
  match n with
  | Some v => v
  | None => 0%Z
  end.

Definition _get_album_date (photos : list PhotoMetadata) (spec : AlbumSpec)
  : result (option datetime) :=
  let earliest := py_min (map photo_date photos) in
  match date_filter spec with
  | Some f =>
      if truthy_int (year f) && truthy_int (month f)
      then d <- first_of_month (number_of (year f)) (number_of (month f)) ;;
           Ok (Some d)
      else if truthy_int (year f)
      then d <- first_of_month (number_of (year f)) 1 ;; Ok (Some d)
      else earliest
  | None => earliest
  end.

(** The name [create_folder] gives the folder of an album. *)
Definition folder_name_of (album_name : str) (date : datetime) : str :=
  format_d 4 (dt_year date) ++ lit "-" ++ format_d 2 (dt_month date) ++ lit "-"
  ++ replace_char " " (lit "-") album_name.

Definition create_folder (target_folder : Path) (album_name : str)
           (date : option datetime) : result Path :=
  match date with
  | None => Fail NoneError
  | Some date => Ok (target_folder ++ [folder_name_of album_name date])
  end.

(** [d.get(k, default)] *)
Definition get_or {V : Type} (d : dict V) (k : str) (default : V) : V :=
  match dict_find k d with
  | Some v => v
  | None => default
  end.

(** The body of the loop of [create_albums]. *)
Definition add_album (target_folder : Path) (match_result : MatchResult)
           (albums : list Album) (spec : AlbumSpec) : result (list Album) :=
  let photos := get_or (matched match_result) (name spec) [] in
  match photos with
  | [] => Ok albums
  | _ :: _ =>
      album_date <- _get_album_date photos spec ;;
      album_path <- create_folder target_folder (name spec) album_date ;;
      let dates := map photo_date photos in
      earliest <- py_min dates ;;
      latest <- py_max dates ;;
      Ok (albums ++ [mk_Album (name spec) album_path photos earliest latest
                              (keywords spec)])
  end.

(** [AlbumCreator(target_folder, dry_run=True).create_albums(match_result,
    album_specs)] *)
Definition create_albums (target_folder : Path) (match_result : MatchResult)
           (album_specs : list AlbumSpec) : result (list Album) :=
  foldM (add_album target_folder match_result) album_specs [].

(** [sum(len(album.photos) for album in albums)], the matched count
    [display_summary] prints. *)
Definition matched_count (albums : list Album) : nat :=
  list_sum (map (fun album => length (photos album)) albums).

(** *** File name conflicts *)

(** [s.rfind(c)]: [None] stands for -1. *)
Fixpoint rfind (c : ascii) (s : str) : option nat :=
  match s with
  | [] => None
  | x :: s' =>
      match rfind c s' with
      | Some i => Some (S i)
      | None => if Ascii.eqb x c then Some 0 else None
      end
  end.

(** Where the suffix of a file name starts: the last dot, when it is
    neither the first nor the last character. *)
Definition suffix_at (name : str) : option nat :=
  match rfind "." name with
  | Some i => if (0 <? i) && (i <? length name - 1) then Some i else None
  | None => None
  end.

(** [Path(name).suffix] and [Path(name).stem] *)
Definition suffix (name : str) : str :=
  match suffix_at name with
  | Some i => skipn i name
  | None => []
  end.

Definition stem (name : str) : str :=
  match suffix_at name with
  | Some i => firstn i name
  | None => name
  end.

(** The [while True] loop of [_resolve_conflict]: [None] when the fuel
    runs out before a free name is found. *)
Fixpoint probe (exists_ : Path -> bool) (parent : Path) (stem suffix : str)
         (fuel counter : nat) : option Path :=
  match fuel with
  | 0 => None
  | S fuel' =>
      let new_path := parent ++ [stem ++ lit "_" ++ decimal counter ++ suffix] in
      if negb (exists_ new_path)
      then Some new_path
      else probe exists_ parent stem suffix fuel' (S counter)
  end.

(** [_resolve_conflict(parent / name)] for a plain file name, as
    [organize_photos] calls it; [exists_] tells which paths exist. *)
Definition _resolve_conflict (exists_ : Path -> bool) (fuel : nat)
           (parent : Path) (name : str) : option Path :=
  let dest_path := parent ++ [name] in
  if negb (exists_ dest_path)
  then Some dest_path
  else probe exists_ parent (stem name) (suffix name) fuel 1.

(** [PhotoScanner] ([core/scanner.py]): the extensions [__init__] keeps,
    the given ones or, when none or an empty list is given, the default
    ones, in lower case; and the test [scan] puts a file name to,
    [Path(filename).suffix.lower() in self.supported_extensions]. *)
Definition default_extensions : list str :=
  map lit [".jpg"; ".jpeg"; ".png"; ".heic"; ".raw"; ".cr2"; ".nef"]%string.

Definition extensions_of (supported_extensions : option (list str)) : list str :=
  let chosen :=
    match supported_extensions with
    | Some (ext :: others) => ext :: others
    | _ => default_extensions
    end in
  map lower chosen.

Definition supported (supported_extensions : option (list str)) (filename : str)
  : bool :=
  let file_ext := lower (suffix filename) in
  mem file_ext (extensions_of supported_extensions).

(** The names the loop tries one after the other, the paths they make,
    and a directory listing. *)
Definition renamed (name : str) (counter : nat) : str :=
  stem name ++ lit "_" ++ decimal counter ++ suffix name.

Definition candidate (parent : Path) (name : str) (counter : nat) : Path :=
  parent ++ [renamed name counter].

Definition listed (files : list Path) (p : Path) : bool :=
  existsb (fun q => if list_eq_dec (list_eq_dec ascii_dec) p q then true else false)
          files.

End Albums.

(* ================================================================== *)
(** ** Notions the statements about dates use *)

Module DateNotions.

(** [a <= b] on datetimes *)
Definition dt_leb (a b : datetime) : bool := negb (dt_ltb b a).

(** A date [datetime] can hold, as far as folder names go. *)
Definition valid_date (d : datetime) : Prop :=
  (1 <= dt_year d <= 9999)%Z /\ (1 <= dt_month d <= 12)%Z.

(** Year and month, compared as a pair. *)
Definition month_ltb (a b : datetime) : bool :=
  (dt_year a <? dt_year b)%Z
  || ((dt_year a =? dt_year b)%Z && (dt_month a <? dt_month b)%Z).

(** A filter whose year and month, where [_get_album_date] reads them,
    are ones [datetime] accepts. *)
Definition filter_ok (f : DateFilter) : Prop :=
  (truthy_int (year f) = true -> (1 <= Albums.number_of (year f) <= 9999)%Z)
  /\ (truthy_int (month f) = true -> (1 <= Albums.number_of (month f) <= 12)%Z).

(** The most characters a match of [r] consumes, when that is bounded. *)
Fixpoint max_len (r : Re.regex) : option nat :=
  match r with
  | Re.Atom _ => Some 1
  | Re.Seq r1 r2 =>
      match max_len r1, max_len r2 with
      | Some a, Some b => Some (a + b)
      | _, _ => None
      end
  | Re.Alt r1 r2 =>
      match max_len r1, max_len r2 with
      | Some a, Some b => Some (Nat.max a b)
      | _, _ => None
      end
  | Re.Star _ => None
  | Re.Group _ r1 => max_len r1
  | _ => Some 0
  end.

(** The group that holds the year has at most four characters. *)
Definition year_group (year_at i : nat) (w : str) : Prop :=
  i = year_at -> length w <= 4.

End DateNotions.

(* ================================================================== *)
(** ** Notions the statements about album creation use *)

Module CreatorSpec.
Import Albums.

(** The photos [create_albums] finds for a spec. *)
Definition bucket_for (match_result : MatchResult) (spec : AlbumSpec)
  : list PhotoMetadata :=
  get_or (matched match_result) (name spec) [].

Definition has_photos (match_result : MatchResult) (spec : AlbumSpec) : bool :=
  match bucket_for match_result spec with
  | [] => false
  | _ :: _ => true
  end.

(** The album built for a spec: its name and keywords, the spec's bucket,
    the first and last photo date, and a folder named after the album
    date. *)
Definition made (target_folder : Path) (match_result : MatchResult)
           (spec : AlbumSpec) (album : Album) : Prop :=
  album_name album = name spec
  /\ album_keywords album = keywords spec
  /\ photos album = bucket_for match_result spec
  /\ photos album <> []
  /\ py_min (map photo_date (photos album)) = Ok (earliest_date album)
  /\ py_max (map photo_date (photos album)) = Ok (latest_date album)
  /\ exists d,
       _get_album_date (photos album) spec = Ok (Some d)
       /\ album_path album = target_folder ++ [folder_name_of (name spec) d].

(** An album without its folder. *)
Definition forget_path (album : Album)
  : str * list PhotoMetadata * option datetime * option datetime * list str :=
  (album_name album, photos album, earliest_date album, latest_date album,
   album_keywords album).

End CreatorSpec.

(* ================================================================== *)
(** ** The sidebar filters of [app.py]

    [apply_additional_filters] changes the specs in place, and [parse]
    stores one and the same [DateFilter] object in every spec it builds.
    The specs are therefore modelled with their filters in a heap: a spec
    object refers to its filter by the filter's place in the heap.  The
    spec objects of the list themselves are taken to be distinct, as those
    of [parse] are. *)

Module App.
Import PromptParser.

Definition ref : Type := nat.
Definition heap : Type := list DateFilter.

Record SpecObject : Type := mk_SpecObject {
  obj_name : str;
  obj_keywords : list str;
  obj_date_filter : option ref;
  obj_original_prompt : str
}.

(** The spec an object stands for in a heap. *)
Definition view (h : heap) (o : SpecObject) : AlbumSpec :=
  mk_AlbumSpec (obj_name o) (obj_keywords o)
               (match obj_date_filter o with
                | Some r => nth_error h r
                | None => None
                end)
               (obj_original_prompt o).

(** Every reference points into the heap. *)
Definition well_formed (h : heap) (specs : list SpecObject) : Prop :=
  forall o r, In o specs -> obj_date_filter o = Some r -> r < length h.

(** [h[r].field = v] *)
Fixpoint update (r : ref) (g : DateFilter -> DateFilter) (h : heap) : heap :=
  match h, r with
  | [], _ => []
  | f :: h', 0 => g f :: h'
  | f :: h', S r' => f :: update r' g h'
  end.

Definition set_year (v : option Z) (f : DateFilter) : DateFilter :=
  mk_DateFilter v (month f) (start_date f) (end_date f).

Definition set_month (v : option Z) (f : DateFilter) : DateFilter :=
  mk_DateFilter (year f) v (start_date f) (end_date f).

(** The body of the loop over the specs: the state is the heap and the
    specs gone through so far. *)
Definition filter_spec (month_filter year_filter : option Z)
           (state : heap * list SpecObject) (spec : SpecObject)
  : heap * list SpecObject :=
  let (h, done) := state in
  let '(h, spec, r) :=
    match obj_date_filter spec with
    | Some r => (h, spec, r)
    | None =>
        (h ++ [mk_DateFilter None None None None],
         mk_SpecObject (obj_name spec) (obj_keywords spec) (Some (length h))
                       (obj_original_prompt spec),
         length h)
    end in
  let h := if truthy_int year_filter then update r (set_year year_filter) h else h in
  let h := if truthy_int month_filter then update r (set_month month_filter) h else h in
  (h, done ++ [spec]).

Definition apply_additional_filters (album_specs : list SpecObject)
           (month_filter year_filter : option Z) (h : heap)
  : heap * list SpecObject :=
  if negb (truthy_int month_filter) && negb (truthy_int year_filter)
  then (h, album_specs)
  else fold_left (filter_spec month_filter year_filter) album_specs (h, []).

(** [PromptParser.parse] with its objects: the filters [extract_dates]
    creates are the heap, and every spec refers to the first of them. *)
Definition parse_objects (prompt : str) : result (heap * list SpecObject) :=
  album_names <- extract_album_names prompt ;;
  dates <- extract_dates prompt ;;
  Ok (dates,
      fold_left
        (fun album_specs name =>
           let keywords := extract_keywords name in
           let date_filter := match dates with [] => None | _ :: _ => Some 0 end in
           album_specs ++ [mk_SpecObject name keywords date_filter prompt])
        album_names []).

(** Does one of the specs refer to the object at [r]? *)
Definition referenced (specs : list SpecObject) (r : ref) : bool :=
  existsb (fun o => match obj_date_filter o with
                    | Some r' => r' =? r
                    | None => false
                    end)
          specs.

(** What the filters do to a filter and to a spec, told by value. *)
Definition touch (month_filter year_filter : option Z) (f : DateFilter) : DateFilter :=
  let f := if truthy_int year_filter then set_year year_filter f else f in
  if truthy_int month_filter then set_month month_filter f else f.

Definition touched (month_filter year_filter : option Z) (spec : AlbumSpec)
  : AlbumSpec :=
  let f := match date_filter spec with
           | Some f => f
           | None => mk_DateFilter None None None None
           end in
  mk_AlbumSpec (name spec) (keywords spec)
               (Some (touch month_filter year_filter f)) (original_prompt spec).

Definition with_filters (month_filter year_filter : option Z) (spec : AlbumSpec)
  : AlbumSpec :=
  if negb (truthy_int month_filter) && negb (truthy_int year_filter)
  then spec
  else touched month_filter year_filter spec.

End App.

(* ================================================================== *)
(** ** Notions the statements about matching in batches use *)

Module BatchSpec.

(** Two results over the same buckets, put together bucket by bucket. *)
Definition merge (r1 r2 : MatchResult) : MatchResult :=
  let buckets :=
    map (fun kv => (fst kv, snd kv ++ Albums.get_or (matched r2) (fst kv) []))
        (matched r1) in
  mk_MatchResult buckets (unmatched r1 ++ unmatched r2)
                 (map (fun kv => (fst kv, Z.of_nat (length (snd kv)))) buckets).

End BatchSpec.

(* ================================================================== *)
(** * Properties *)

(** ** The result monad *)

Lemma bind_ok {A B : Type} (m : result A) (k : A -> result B) (b : B) :
  bind m k = Ok b -> exists a, m = Ok a /\ k a = Ok b.
Proof.
  destruct m as [a|e]; simpl; intros H; [exists a; auto | discriminate].
Qed.

(** A loop whose body only ever appends what a total function gives. *)
Lemma foldM_append {A B : Type} (body : list B -> A -> result (list B))
      (f : A -> list B) (xs : list A) :
  (forall x acc, In x xs -> body acc x = Ok (acc ++ f x)) ->
  forall acc, foldM body xs acc = Ok (acc ++ flat_map f xs).
Proof.
  induction xs as [|x xs IH]; intros Hbody acc; simpl.
  - now rewrite app_nil_r.
  - rewrite Hbody by (left; reflexivity). simpl.
    rewrite IH by (intros; apply Hbody; right; assumption).
    now rewrite app_assoc.
Qed.

(** ** Strings *)

Lemma str_eqb_eq (a b : str) : str_eqb a b = true <-> a = b.
Proof.
  revert b; induction a as [|x a IH]; intros [|y b]; simpl; split;
    try congruence; try discriminate.
  - intros H. apply andb_true_iff in H as [Hx Hab].
    apply Ascii.eqb_eq in Hx. apply IH in Hab. congruence.
  - intros H. injection H as -> ->. rewrite Ascii.eqb_refl. simpl. now apply IH.
Qed.

Lemma str_eqb_refl (a : str) : str_eqb a a = true.
Proof. now apply str_eqb_eq. Qed.

Lemma str_eqb_neq (a b : str) : str_eqb a b = false <-> a <> b.
Proof.
  split.
  - intros H E. apply str_eqb_eq in E. congruence.
  - intros H. destruct (str_eqb a b) eqn:E; [|reflexivity].
    apply str_eqb_eq in E. contradiction.
Qed.

Lemma firstn_app_exact {A : Type} (w t : list A) :
  firstn (length (w ++ t) - length t) (w ++ t) = w.
Proof.
  rewrite length_app, Nat.add_sub.
  rewrite firstn_app, Nat.sub_diag, firstn_all. simpl. apply app_nil_r.
Qed.

(** ** The matcher *)

Module ReFacts.
Import Re.

Section Invariant.

Variable ic : bool.
Variable R : cursor -> cursor -> Prop.
Variable PA : atom -> Prop.
Variable PG : nat -> regex -> Prop.

Hypothesis R_refl : forall st, R st st.
Hypothesis R_trans : forall a b c, R a b -> R b c -> R a c.
Hypothesis R_atom :
  forall a st c t,
    PA a -> rest st = c :: t -> atom_match ic a c = true ->
    R st (mk_cursor (Some c) t (caps st)).
Hypothesis R_group :
  forall i r st st',
    PG i r -> In st' (ms ic r st) -> R st st' -> R st (close_group i st st').

Lemma star_loop_rel (step : cursor -> list cursor) :
  (forall a b, In b (step a) -> R a b) ->
  forall n st st', In st' (star_loop step n st) -> R st st'.
Proof.
  intros Hstep. induction n as [|n IH]; intros st st' Hin; simpl in Hin.
  - destruct Hin as [<-|[]]. apply R_refl.
  - apply in_app_or in Hin as [Hin|[<-|[]]]; [|apply R_refl].
    apply in_flat_map in Hin as (x & Hx & Hin).
    destruct (length (rest x) <? length (rest st)); [|contradiction].
    eapply R_trans; [apply Hstep; eassumption | apply IH; assumption].
Qed.

(** Whatever relation the single steps respect holds between a cursor
    and every cursor a pattern can reach from it. *)
Lemma ms_rel (r : regex) :
  all_atoms PA r -> all_groups PG r ->
  forall st st', In st' (ms ic r st) -> R st st'.
Proof.
  induction r as [|a| | | |r1 IH1 r2 IH2|r1 IH1 r2 IH2|r1 IH1|i r1 IH1];
    intros HA HG st st' Hin; simpl in *.
  - destruct Hin as [<-|[]]. apply R_refl.
  - destruct (rest st) as [|c t] eqn:E; [contradiction|].
    destruct (atom_match ic a c) eqn:Em; [|contradiction].
    destruct Hin as [<-|[]]. now apply R_atom with (a := a).
  - destruct (at_boundary st); [|contradiction].
    destruct Hin as [<-|[]]. apply R_refl.
  - destruct (prev st); [contradiction|].
    destruct Hin as [<-|[]]. apply R_refl.
  - destruct (at_end st); [|contradiction].
    destruct Hin as [<-|[]]. apply R_refl.
  - apply in_flat_map in Hin as (x & Hx & Hin).
    destruct HA, HG. eapply R_trans; [eapply IH1 | eapply IH2]; eassumption.
  - destruct HA, HG.
    apply in_app_or in Hin as [Hin|Hin]; [eapply IH1 | eapply IH2]; eassumption.
  - eapply star_loop_rel; [|eassumption].
    intros a b Hab. now apply IH1.
  - apply in_map_iff in Hin as (x & <- & Hx). destruct HG as [Hg HG].
    eapply R_group; [eassumption | assumption | now apply IH1].
Qed.

End Invariant.

Lemma all_atoms_True (r : regex) : all_atoms (fun _ => True) r.
Proof. induction r; simpl; auto. Qed.

Lemma all_groups_True (r : regex) : all_groups (fun _ _ => True) r.
Proof. induction r; simpl; auto. Qed.

Lemma ms_extends (ic : bool) (r : regex) (st st' : cursor) :
  In st' (ms ic r st) -> extends st st'.
Proof.
  apply (@ms_rel ic extends (fun _ => True) (fun _ _ => True)).
  - intros s0. split; [exists [] | exists []]; reflexivity.
  - intros a b c [[w1 E1] [e1 C1]] [[w2 E2] [e2 C2]]. split.
    + exists (w1 ++ w2). now rewrite E1, E2, app_assoc.
    + exists (e2 ++ e1). now rewrite C2, C1, app_assoc.
  - intros a s0 c t _ E _. split; [exists [c] | exists []]; simpl; auto.
  - intros i r0 s0 s1 _ _ [[w E] [e C]]. split.
    + exists w. exact E.
    + exists ((i, consumed s0 s1) :: e). simpl. now rewrite C.
  - apply all_atoms_True.
  - apply all_groups_True.
Qed.

Lemma consumed_app (a b : cursor) (w : str) :
  rest a = w ++ rest b -> consumed a b = w.
Proof.
  intros E. unfold consumed. rewrite E. apply firstn_app_exact.
Qed.

Lemma ms_consumed (ic : bool) (r : regex) (st st' : cursor) :
  In st' (ms ic r st) -> rest st = consumed st st' ++ rest st'.
Proof.
  intros H. apply ms_extends in H as [[w E] _].
  now rewrite (consumed_app _ _ _ E).
Qed.

Lemma consumed_refl (st : cursor) : consumed st st = [].
Proof. unfold consumed. now rewrite Nat.sub_diag. Qed.

Lemma consumed_trans (ic1 ic2 : bool) (r1 r2 : regex) (a b c : cursor) :
  In b (ms ic1 r1 a) -> In c (ms ic2 r2 b) ->
  consumed a c = consumed a b ++ consumed b c.
Proof.
  intros H1 H2. apply ms_consumed in H1, H2.
  apply consumed_app. rewrite <- app_assoc, <- H2. exact H1.
Qed.

(** Characters consumed by a pattern pass every test its atoms pass. *)
Lemma ms_chars (ic : bool) (Q : ascii -> bool) (r : regex) (st st' : cursor) :
  all_atoms (fun a => forall c, atom_match ic a c = true -> Q c = true) r ->
  In st' (ms ic r st) -> forallb Q (consumed st st') = true.
Proof.
  intros HA Hin.
  assert (H : exists w, rest st = w ++ rest st' /\ forallb Q w = true).
  { revert Hin.
    apply (@ms_rel ic
             (fun a b => exists w, rest a = w ++ rest b /\ forallb Q w = true)
             (fun a => forall c, atom_match ic a c = true -> Q c = true)
             (fun _ _ => True)).
    - intros s0. exists []. auto.
    - intros a b c (w1 & E1 & Q1) (w2 & E2 & Q2). exists (w1 ++ w2). split.
      + now rewrite E1, E2, app_assoc.
      + rewrite forallb_app, Q1, Q2. reflexivity.
    - intros a s0 c t Ha E Hm. exists [c]. split; [exact E|].
      simpl. now rewrite (Ha c Hm).
    - intros i r0 s0 s1 _ _ H. exact H.
    - exact HA.
    - apply all_groups_True. }
  destruct H as (w & E & HQ). now rewrite (consumed_app _ _ _ E).
Qed.

Lemma ms_min_len (ic : bool) (r : regex) :
  forall st st', In st' (ms ic r st) -> min_len r <= length (consumed st st').
Proof.
  induction r as [|a| | | |r1 IH1 r2 IH2|r1 IH1 r2 IH2|r1 IH1|i r1 IH1];
    intros st st' Hin; try (simpl; lia).
  - pose proof (ms_consumed _ _ _ _ Hin) as E. simpl in Hin.
    destruct (rest st) as [|c t] eqn:Er; [contradiction|].
    destruct (atom_match ic a c); [|contradiction].
    destruct Hin as [<-|[]]. simpl in E.
    destruct (consumed st {| prev := Some c; rest := t; caps := caps st |}).
    + simpl in E. apply (f_equal (@length ascii)) in E. simpl in E. lia.
    + simpl. lia.
  - simpl in Hin. apply in_flat_map in Hin as (x & Hx & Hin).
    rewrite (consumed_trans _ _ _ _ _ _ _ Hx Hin), length_app. simpl.
    specialize (IH1 _ _ Hx). specialize (IH2 _ _ Hin). lia.
  - simpl in Hin. apply in_app_or in Hin as [Hin|Hin]; simpl.
    + specialize (IH1 _ _ Hin). lia.
    + specialize (IH2 _ _ Hin). lia.
  - simpl in Hin. apply in_map_iff in Hin as (x & <- & Hx).
    specialize (IH1 _ _ Hx). simpl. unfold consumed in *. simpl. exact IH1.
Qed.

(** Texts of a pattern of ordinary characters, up to case. *)
Lemma ms_words (r : regex) :
  forall l, words r = Some l ->
  forall st st', In st' (ms true r st) -> In (lower (consumed st st')) l.
Proof.
  induction r as [|a| | | |r1 IH1 r2 IH2|r1 IH1 r2 IH2|r1 IH1|i r1 IH1];
    intros l Hw st st' Hin; simpl in Hw; try discriminate.
  - injection Hw as <-. simpl in Hin. destruct Hin as [<-|[]].
    rewrite consumed_refl. now left.
  - destruct a as [c| | | |]; try discriminate. injection Hw as <-.
    pose proof (ms_consumed _ _ _ _ Hin) as E. simpl in Hin.
    destruct (rest st) as [|x t] eqn:Er; [contradiction|].
    simpl in Hin. destruct (Ascii.eqb (lower_char c) (lower_char x)) eqn:Ex;
      [|contradiction].
    destruct Hin as [<-|[]]. simpl in E.
    assert (Ec : consumed st {| prev := Some x; rest := t; caps := caps st |} = [x]).
    { apply consumed_app. simpl. now rewrite Er. }
    rewrite Ec. simpl. apply Ascii.eqb_eq in Ex. rewrite Ex. now left.
  - destruct (words r1) as [l1|]; [|discriminate].
    destruct (words r2) as [l2|]; [|discriminate]. injection Hw as <-.
    simpl in Hin. apply in_flat_map in Hin as (x & Hx & Hin).
    rewrite (consumed_trans _ _ _ _ _ _ _ Hx Hin). unfold lower. rewrite map_app.
    apply in_flat_map. exists (lower (consumed st x)). split.
    + now apply IH1.
    + apply in_map. now apply IH2.
  - destruct (words r1) as [l1|]; [|discriminate].
    destruct (words r2) as [l2|]; [|discriminate]. injection Hw as <-.
    simpl in Hin. apply in_or_app.
    apply in_app_or in Hin as [Hin|Hin]; [left; now apply IH1 | right; now apply IH2].
  - simpl in Hin. apply in_map_iff in Hin as (x & <- & Hx).
    replace (consumed st (close_group i st x)) with (consumed st x) by reflexivity.
    now apply IH1.
Qed.

(** *** Groups *)

Lemma ms_caps_sat (ic : bool) (P : nat -> str -> Prop) (r : regex) (st st' : cursor) :
  all_groups (fun i r1 => forall a b, In b (ms ic r1 a) -> P i (consumed a b)) r ->
  In st' (ms ic r st) -> caps_sat P (caps st) -> caps_sat P (caps st').
Proof.
  intros HG.
  apply (@ms_rel ic
           (fun a b => caps_sat P (caps a) -> caps_sat P (caps b))
           (fun _ => True)
           (fun i r1 => forall a b, In b (ms ic r1 a) -> P i (consumed a b))).
  - auto.
  - auto.
  - intros a s0 c t _ _ _ H. exact H.
  - intros i r0 s0 s1 Hp Hin H Hs. simpl. constructor.
    + simpl. now apply Hp.
    + now apply H.
  - apply all_atoms_True.
  - exact HG.
Qed.

Lemma lookup_app_some (i : nat) (e c : list (nat * str)) (v : str) :
  lookup i c = Some v -> exists v', lookup i (e ++ c) = Some v'.
Proof.
  intros H. induction e as [|[j w] e IH]; simpl.
  - eauto.
  - destruct (i =? j); eauto.
Qed.

Lemma lookup_In (i : nat) (c : list (nat * str)) (v : str) :
  lookup i c = Some v -> In (i, v) c.
Proof.
  induction c as [|[j w] c IH]; simpl; [discriminate|].
  destruct (i =? j) eqn:E.
  - intros H. injection H as ->. apply Nat.eqb_eq in E. subst. now left.
  - intros H. right. now apply IH.
Qed.

Lemma ms_sets_group (ic : bool) (i : nat) (r : regex) :
  sets_group i r = true ->
  forall st st', In st' (ms ic r st) -> exists v, lookup i (caps st') = Some v.
Proof.
  induction r as [|a| | | |r1 IH1 r2 IH2|r1 IH1 r2 IH2|r1 IH1|j r1 IH1];
    simpl; intros Hs st st' Hin; try discriminate.
  - apply in_flat_map in Hin as (x & Hx & Hin).
    apply orb_true_iff in Hs as [Hs|Hs].
    + destruct (IH1 Hs _ _ Hx) as [v Hv].
      apply ms_extends in Hin as [_ [e ->]]. now apply lookup_app_some with (v := v).
    + now apply (IH2 Hs _ _ Hin).
  - apply andb_true_iff in Hs as [Hs1 Hs2].
    apply in_app_or in Hin as [Hin|Hin]; eauto.
  - apply in_map_iff in Hin as (x & <- & Hx). simpl.
    destruct (i =? j) eqn:E; [eauto|]. simpl in Hs. eauto.
Qed.

(** *** Scanning *)

Lemma pick_In (advance : bool) (s : str) (cands : list cursor) (st : cursor) :
  pick advance s cands = Some st -> In st cands.
Proof.
  unfold pick. destruct advance.
  - intros H. now apply find_some in H.
  - destruct cands; simpl; [discriminate|]. intros H. injection H as ->. now left.
Qed.

(** Every reported match is a way the pattern matches somewhere. *)
Lemma scan_sound (ic : bool) (r : regex) (m : rmatch) :
  forall fuel at_ p s advance,
    In m (scan fuel ic r at_ p s advance) ->
    exists st0 st',
      caps st0 = [] /\ In st' (ms ic r st0) /\
      m_caps m = caps st' /\ m_text m = consumed st0 st'.
Proof.
  induction fuel as [|fuel IH]; intros at_ p s advance Hin; simpl in Hin;
    [contradiction|].
  destruct (pick advance s (ms ic r (mk_cursor p s []))) as [st|] eqn:Ep.
  - apply pick_In in Ep.
    destruct (consumed (mk_cursor p s []) st) eqn:Ec.
    + destruct Hin as [<-|Hin]; [|eauto].
      exists (mk_cursor p s []), st. simpl. auto.
    + destruct Hin as [<-|Hin]; [|eauto].
      exists (mk_cursor p s []), st. simpl. auto.
  - destruct s; [contradiction | eauto].
Qed.

Lemma scan_from (ic : bool) (r : regex) (m : rmatch) :
  forall fuel at_ p s advance,
    In m (scan fuel ic r at_ p s advance) -> at_ <= m_start m.
Proof.
  induction fuel as [|fuel IH]; intros at_ p s advance Hin; simpl in Hin;
    [contradiction|].
  destruct (pick advance s (ms ic r (mk_cursor p s []))) as [st|].
  - destruct (consumed (mk_cursor p s []) st) eqn:Ec.
    + destruct Hin as [<-|Hin]; [simpl; lia | eauto].
    + destruct Hin as [<-|Hin]; [simpl; lia|]. apply IH in Hin. lia.
  - destruct s; [contradiction|]. apply IH in Hin. lia.
Qed.

Lemma scan_sorted (ic : bool) (r : regex) :
  forall fuel at_ p s advance,
    StronglySorted precedes (scan fuel ic r at_ p s advance).
Proof.
  induction fuel as [|fuel IH]; intros at_ p s advance; simpl; [constructor|].
  destruct (pick advance s (ms ic r (mk_cursor p s []))) as [st|].
  - destruct (consumed (mk_cursor p s []) st) eqn:Ec.
    + constructor; [apply IH|]. apply Forall_forall. intros m Hm.
      apply scan_from in Hm. unfold precedes. simpl. lia.
    + constructor; [apply IH|]. apply Forall_forall. intros m Hm.
      apply scan_from in Hm. unfold precedes. simpl in *. lia.
  - destruct s; [constructor | apply IH].
Qed.

End ReFacts.

(** ** PromptParser *)

Module ParserFacts.
Import Re ReFacts PromptParser DateLoops.

Lemma sub_total (pattern repl text : str) (ic : bool) :
  (exists r, compile pattern = Ok r) -> exists t, sub pattern repl text ic = Ok t.
Proof.
  intros [r E]. unfold sub. rewrite E. simpl. eauto.
Qed.

Ltac sub_step :=
  match goal with
  | |- context [sub ?p ?r ?t ?i] =>
      let t' := fresh "text" in
      let E := fresh "E" in
      destruct (@sub_total p r t i) as [t' E];
      [ eexists; lazy; reflexivity | rewrite E; cbn [bind] ]
  end.

(** Name extraction never raises: its nine patterns are regular
    expressions. *)
Lemma extract_album_names_total (prompt : str) :
  exists names, extract_album_names prompt = Ok names.
Proof.
  unfold extract_album_names.
  do 9 sub_step.
  eauto.
Qed.

Lemma compile_pattern1 : compile pattern1 = Ok re1.
Proof. vm_compute. reflexivity. Qed.

Lemma compile_pattern2 : compile pattern2 = Ok re2.
Proof. vm_compute. reflexivity. Qed.

Lemma compile_pattern3 : compile pattern3 = Ok re3.
Proof. vm_compute. reflexivity. Qed.

Lemma int_of_digits (w : str) : digits w -> int_of w = Ok (number w).
Proof.
  intros [Hne Hd]. unfold int_of. destruct w; [contradiction|].
  now rewrite Hd.
Qed.

(** A group made of [\d] only, at least one of them, holds a number. *)
Lemma digit_group (ic : bool) (r : regex) (a b : cursor) :
  all_atoms (fun x => x = ADigit) r -> 1 <= min_len r ->
  In b (ms ic r a) -> digits (consumed a b).
Proof.
  intros HA Hlen Hin. split.
  - pose proof (ms_min_len _ _ _ _ Hin) as H.
    destruct (consumed a b); [simpl in H; lia | discriminate].
  - apply ms_chars with (ic := ic) (r := r); [|assumption].
    clear -HA.
    induction r as [|x| | | |r1 IH1 r2 IH2|r1 IH1 r2 IH2|r1 IH1|i r1 IH1];
      simpl in *; try tauto.
    intros c Hc. subst. exact Hc.
Qed.

(** A group that is a choice of words holds one of them, up to case. *)
Lemma word_group (chk : str -> bool) (r : regex) (a b : cursor) :
  match words r with Some l => forallb chk l | None => false end = true ->
  In b (ms true r a) -> chk (lower (consumed a b)) = true.
Proof.
  intros H Hin. destruct (words r) as [l|] eqn:E; [|discriminate].
  rewrite forallb_forall in H. apply H. now apply ms_words with (r := r).
Qed.

Ltac conj_split :=
  repeat match goal with |- _ /\ _ => split end; try exact I.

Lemma re1_groups :
  all_groups (fun i r => forall a b, In b (ms true r a) -> group1_spec i (consumed a b)) re1.
Proof.
  unfold re1. cbn [all_groups]. conj_split; intros a b Hin;
    cbn [group1_spec group23_spec].
  - revert Hin. apply word_group. vm_compute. reflexivity.
  - revert Hin. apply digit_group; simpl; auto 10.
Qed.

Lemma re2_groups :
  all_groups (fun i r => forall a b, In b (ms false r a) -> group23_spec i (consumed a b)) re2.
Proof.
  unfold re2. cbn [all_groups]. conj_split; intros a b Hin;
    cbn [group1_spec group23_spec].
  - revert Hin. apply digit_group; simpl; auto 10.
  - revert Hin. apply digit_group; simpl; auto 10.
Qed.

Lemma re3_groups :
  all_groups (fun i r => forall a b, In b (ms false r a) -> group23_spec i (consumed a b)) re3.
Proof.
  unfold re3. cbn [all_groups]. conj_split; intros a b Hin;
    cbn [group1_spec group23_spec].
  revert Hin. apply digit_group; simpl; auto 10.
Qed.

(** A group every match closes is there in every reported match, with
    the text the pattern allows. *)
Lemma scan_group (ic : bool) (P : nat -> str -> Prop) (r : regex) (i : nat)
      (fuel at_ : nat) (p : option ascii) (s : str) (advance : bool) (m : rmatch) :
  all_groups (fun i r1 => forall a b, In b (ms ic r1 a) -> P i (consumed a b)) r ->
  sets_group i r = true -> i <> 0 ->
  In m (scan fuel ic r at_ p s advance) ->
  exists v, group m i = Ok v /\ group_text m i = v /\ P i v.
Proof.
  intros HG Hs Hi Hin.
  apply scan_sound in Hin as (st0 & st' & Hc & Hms & Ecaps & _).
  destruct (ms_sets_group ic i r Hs _ _ Hms) as [v Hv].
  assert (HP : caps_sat P (caps st')).
  { apply (ms_caps_sat ic P r st0 st' HG Hms). rewrite Hc. constructor. }
  exists v. unfold group, group_text. rewrite Ecaps, Hv.
  repeat split.
  - destruct i; [contradiction | reflexivity].
  - apply lookup_In in Hv. unfold caps_sat in HP. rewrite Forall_forall in HP.
    apply (HP (i, v) Hv).
Qed.

Lemma finditer_compiled (pattern text : str) (ic : bool) (r : regex) :
  compile pattern = Ok r ->
  finditer pattern text ic = Ok (scan (fuel_for text) ic r 0 None text false).
Proof. intros E. unfold finditer. now rewrite E. Qed.

Lemma matches_of_compiled (pattern text : str) (ic : bool) (r : regex) :
  compile pattern = Ok r ->
  matches_of pattern text ic = scan (fuel_for text) ic r 0 None text false.
Proof. intros E. unfold matches_of. now rewrite (finditer_compiled _ _ _ _ E). Qed.

Lemma month_key_found (w : str) :
  is_month_key w = true -> dict_get MONTH_NAMES w = Ok (month_number w).
Proof.
  unfold is_month_key, dict_get, month_number.
  destruct (dict_find w MONTH_NAMES); [reflexivity | discriminate].
Qed.

(** The three loop bodies never raise on the matches they are given. *)
Lemma add_month_year_ok (text : str) (m : rmatch) (acc : list DateFilter) :
  In m (matches_of pattern1 text true) ->
  add_month_year acc m = Ok (acc ++ month_year_filter m).
Proof.
  rewrite (matches_of_compiled _ _ _ _ compile_pattern1). intros Hin.
  destruct (scan_group true group1_spec re1 1 _ _ _ _ _ m re1_groups
                       eq_refl (Nat.neq_succ_0 0) Hin) as (g1 & E1 & T1 & P1).
  destruct (scan_group true group1_spec re1 2 _ _ _ _ _ m re1_groups
                       eq_refl (Nat.neq_succ_0 1) Hin) as (g2 & E2 & T2 & P2).
  simpl in P1, P2. unfold add_month_year, month_year_filter.
  rewrite E1, E2, T1, T2. cbn [bind].
  rewrite (int_of_digits _ P2). cbn [bind].
  rewrite (month_key_found _ P1). reflexivity.
Qed.

Lemma add_iso_ok (text : str) (m : rmatch) (acc : list DateFilter) :
  In m (matches_of pattern2 text false) ->
  add_iso acc m = Ok (acc ++ iso_filter m).
Proof.
  rewrite (matches_of_compiled _ _ _ _ compile_pattern2). intros Hin.
  destruct (scan_group false group23_spec re2 1 _ _ _ _ _ m re2_groups
                       eq_refl (Nat.neq_succ_0 0) Hin) as (g1 & E1 & T1 & P1).
  destruct (scan_group false group23_spec re2 2 _ _ _ _ _ m re2_groups
                       eq_refl (Nat.neq_succ_0 1) Hin) as (g2 & E2 & T2 & P2).
  simpl in P1, P2. unfold add_iso, iso_filter.
  rewrite E1, E2, T1, T2. cbn [bind].
  rewrite (int_of_digits _ P1). cbn [bind].
  rewrite (int_of_digits _ P2). cbn [bind].
  destruct (in_range 1 12 (number g2)); [reflexivity | now rewrite app_nil_r].
Qed.

Lemma add_year_ok (text : str) (m : rmatch) (acc : list DateFilter) :
  In m (matches_of pattern3 text false) ->
  add_year acc m = Ok (acc ++ year_filter m).
Proof.
  rewrite (matches_of_compiled _ _ _ _ compile_pattern3). intros Hin.
  destruct (scan_group false group23_spec re3 1 _ _ _ _ _ m re3_groups
                       eq_refl (Nat.neq_succ_0 0) Hin) as (g1 & E1 & T1 & P1).
  simpl in P1. unfold add_year, year_filter.
  rewrite E1, T1. cbn [bind].
  rewrite (int_of_digits _ P1). cbn [bind].
  destruct (in_range 2000 2100 (number g1)); [reflexivity | now rewrite app_nil_r].
Qed.

(** [extract_dates] never raises and computes what the specification
    describes. *)
Lemma extract_dates_spec (prompt : str) :
  extract_dates prompt = Ok (dates prompt).
Proof.
  unfold extract_dates, dates, loop1, loop2, loop3.
  set (text := lower prompt).
  rewrite (finditer_compiled _ text _ _ compile_pattern1). cbn [bind].
  rewrite <- (matches_of_compiled _ text _ _ compile_pattern1).
  rewrite (foldM_append add_month_year month_year_filter)
    by (intros; now apply add_month_year_ok with (text := text)).
  cbn [bind app].
  rewrite (finditer_compiled _ text _ _ compile_pattern2). cbn [bind].
  rewrite <- (matches_of_compiled _ text _ _ compile_pattern2).
  rewrite (foldM_append add_iso iso_filter)
    by (intros; now apply add_iso_ok with (text := text)).
  cbn [bind].
  destruct (flat_map month_year_filter (matches_of pattern1 text true)
            ++ flat_map iso_filter (matches_of pattern2 text false)) eqn:E;
    [|reflexivity].
  rewrite (finditer_compiled _ text _ _ compile_pattern3). cbn [bind].
  rewrite <- (matches_of_compiled _ text _ _ compile_pattern3).
  rewrite (foldM_append add_year year_filter)
    by (intros; now apply add_year_ok with (text := text)).
  reflexivity.
Qed.

End ParserFacts.

(** ** Wildcard keywords *)

Module WildcardFacts.
Import Re ReFacts KeywordSpec.

Ltac every_char c :=
  destruct c as [[] [] [] [] [] [] [] []]; vm_compute; reflexivity.

Lemma lower_char_idem (c : ascii) : lower_char (lower_char c) = lower_char c.
Proof. every_char c. Qed.

Lemma lower_char_star (c : ascii) :
  Ascii.eqb (lower_char c) "*" = Ascii.eqb c "*".
Proof. every_char c. Qed.

Lemma lower_char_newline (c : ascii) :
  Ascii.eqb (lower_char c) newline = Ascii.eqb c newline.
Proof. every_char c. Qed.

Lemma lower_idem (s : str) : lower (lower s) = lower s.
Proof.
  unfold lower. rewrite map_map. apply map_ext. apply lower_char_idem.
Qed.

Lemma one_line_lower (s : str) : one_line (lower s) = one_line s.
Proof.
  unfold one_line, lower. induction s as [|c s IH]; simpl; [reflexivity|].
  now rewrite lower_char_newline, IH.
Qed.

Lemma glob_star (pattern s : str) :
  glob ("*"%char :: pattern) s = somewhere (glob pattern) s.
Proof.
  simpl. induction s as [|x s IH]; simpl; [reflexivity|]. now rewrite IH.
Qed.

Lemma nonempty_flat_map {A B : Type} (f : A -> list B) (l : list A) :
  nonempty (flat_map f l) = existsb (fun x => nonempty (f x)) l.
Proof.
  induction l as [|x l IH]; simpl; [reflexivity|].
  destruct (f x); simpl; [exact IH | reflexivity].
Qed.

Lemma flat_map_unit {A : Type} (l : list A) : flat_map (fun x => [x]) l = l.
Proof. induction l as [|x l IH]; simpl; [reflexivity | now rewrite IH]. Qed.

Lemma ms_seq_list_cons (ic : bool) (r : regex) (rs : list regex) (st : cursor) :
  ms ic (seq_list (r :: rs)) st = flat_map (ms ic (seq_list rs)) (ms ic r st).
Proof.
  destruct rs as [|r' rs]; [|reflexivity].
  simpl. symmetry. apply flat_map_unit.
Qed.

(** *** Compiling a plain keyword *)

Lemma parse_plain_char (c : ascii) (p : str) (cur : frame) (up : list frame) (next : nat) :
  special c = false ->
  parse (c :: p) 0 false cur up next =
  parse p 0 false (push_item QItem (Atom (ALit c)) cur) up next.
Proof.
  intros H.
  destruct c as [[] [] [] [] [] [] [] []];
    try (vm_compute in H; discriminate H); reflexivity.
Qed.

Lemma parse_plain (keyword : str) :
  plain keyword = true ->
  forall p cur up next,
    parse (replace_char "*" (lit ".*") keyword ++ p) 0 false cur up next =
    parse p 0 false (fold_left (fun f c => push c f) keyword cur) up next.
Proof.
  induction keyword as [|c kw IH]; intros Hp p cur up next; [reflexivity|].
  simpl in Hp. apply andb_true_iff in Hp as [Hc Hkw].
  unfold replace_char. cbn [flat_map]. fold (replace_char "*" (lit ".*") kw).
  destruct (Ascii.eqb c "*") eqn:Ec.
  - apply Ascii.eqb_eq in Ec. subst c. rewrite <- app_assoc.
    change (lit ".*" ++ replace_char "*" (lit ".*") kw ++ p)
      with ("."%char :: "*"%char :: (replace_char "*" (lit ".*") kw ++ p)).
    cbn [fold_left].
    change (parse ("."%char :: "*"%char :: (replace_char "*" (lit ".*") kw ++ p))
                  0 false cur up next)
      with (parse (replace_char "*" (lit ".*") kw ++ p) 0 false (push "*" cur) up next).
    now apply IH.
  - simpl in Hc. apply negb_true_iff in Hc.
    cbn [app fold_left]. rewrite (parse_plain_char _ _ _ _ _ Hc).
    replace (push_item QItem (Atom (ALit c)) cur) with (push c cur).
    + now apply IH.
    + unfold push, item, push_item. now rewrite Ec.
Qed.

Lemma push_all (keyword : str) (cur : frame) :
  f_alts (fold_left (fun f c => push c f) keyword cur) = f_alts cur
  /\ f_seq (fold_left (fun f c => push c f) keyword cur)
     = rev (map item keyword) ++ f_seq cur.
Proof.
  revert cur. induction keyword as [|c kw IH]; intros cur; simpl; [auto|].
  destruct (IH (push c cur)) as [-> ->]. unfold push.
  destruct (Ascii.eqb c "*"); simpl; rewrite <- app_assoc; auto.
Qed.

(** A plain keyword always compiles, to its items after [^]. *)
Lemma compile_plain (keyword : str) :
  plain keyword = true ->
  compile ("^"%char :: replace_char "*" (lit ".*") keyword)
  = Ok (seq_list (Bol :: map item keyword)).
Proof.
  intros Hp. unfold compile.
  change (parse ("^"%char :: replace_char "*" (lit ".*") keyword) 0 false (new_frame 0) [] 1)
    with (parse (replace_char "*" (lit ".*") keyword) 0 false
                (push_item QNone Bol (new_frame 0)) [] 1).
  rewrite <- (app_nil_r (replace_char "*" (lit ".*") keyword)).
  rewrite (parse_plain keyword Hp). cbn [parse].
  unfold frame_regex.
  destruct (push_all keyword (push_item QNone Bol (new_frame 0))) as [-> ->].
  simpl. rewrite rev_app_distr, rev_involutive. reflexivity.
Qed.

(** *** Running it *)

Lemma lowered_tail (x : ascii) (s : str) :
  lowered (x :: s) -> x <> newline /\ lower_char x = x /\ lowered s.
Proof.
  unfold lowered, one_line. simpl. intros [H1 H2].
  apply andb_true_iff in H1 as [Hx Hs]. injection H2 as Ex Es.
  apply negb_true_iff in Hx. apply Ascii.eqb_neq in Hx. auto.
Qed.

(** After [.*] every later place of the subject is tried. *)
Lemma star_any (F : cursor -> bool) (G : str -> bool) :
  (forall st, lowered (rest st) -> F st = G (rest st)) ->
  forall s p c,
    lowered s ->
    existsb F (star_loop (ms true (Atom AAny)) (length s) (mk_cursor p s c))
    = somewhere G s.
Proof.
  intros HF. induction s as [|x s IH]; intros p c Hs.
  - simpl. rewrite (HF (mk_cursor p [] c) Hs). simpl. now rewrite !orb_false_r.
  - destruct (lowered_tail _ _ Hs) as (Hx & _ & Hs').
    apply Ascii.eqb_neq in Hx.
    set (step := ms true (Atom AAny)) in *.
    assert (Estep : step (mk_cursor p (x :: s) c) = [mk_cursor (Some x) s c]).
    { unfold step. simpl. now rewrite Hx. }
    cbn [length star_loop]. rewrite Estep. cbn [flat_map rest length].
    replace (length s <? S (length s)) with true
      by (symmetry; apply Nat.ltb_lt; lia).
    rewrite app_nil_r, existsb_app. cbn [existsb somewhere].
    rewrite (IH (Some x) c Hs'), (HF (mk_cursor p (x :: s) c) Hs).
    cbn [rest]. rewrite orb_false_r. apply orb_comm.
Qed.

(** The items of a plain keyword match a one-line, lower-case subject
    exactly when [glob] says so. *)
Lemma glob_ms (keyword : str) :
  plain keyword = true ->
  forall st,
    lowered (rest st) ->
    nonempty (ms true (seq_list (map item keyword)) st)
    = glob (lower keyword) (rest st).
Proof.
  induction keyword as [|c kw IH]; intros Hp st Hs; [reflexivity|].
  simpl in Hp. apply andb_true_iff in Hp as [Hc Hkw].
  cbn [map]. rewrite ms_seq_list_cons, nonempty_flat_map.
  change (lower (c :: kw)) with (lower_char c :: lower kw).
  destruct (Ascii.eqb c "*") eqn:Ec.
  - apply Ascii.eqb_eq in Ec. subst c.
    change (lower_char "*") with "*"%char. rewrite glob_star.
    unfold item. cbn [Ascii.eqb Bool.eqb ms].
    destruct st as [p s cs]. cbn [rest] in *.
    apply (star_any (fun st => nonempty (ms true (seq_list (map item kw)) st))
                    (glob (lower kw))); [|exact Hs].
    intros st' Hst'. now apply IH.
  - cbn [glob]. rewrite lower_char_star, Ec.
    unfold item. rewrite Ec. cbn [ms].
    destruct (rest st) as [|x s] eqn:Er; [reflexivity|].
    destruct (lowered_tail _ _ Hs) as (_ & Hx & Hs').
    cbn [atom_match]. rewrite Hx.
    destruct (Ascii.eqb (lower_char c) x); [|reflexivity].
    cbn [existsb andb]. rewrite orb_false_r. now apply IH.
Qed.

Lemma search_bol_later (ic : bool) (r : regex) :
  forall s n c, search_from ic (Seq Bol r) n (Some c) s = None.
Proof.
  induction s as [|x s IH]; intros n c; simpl; [reflexivity | apply IH].
Qed.

(** A pattern that starts with [^] is only tried at the start. *)
Lemma search_anchored (r : regex) (s : str) :
  match search_from true (Seq Bol r) 0 None s with
  | Some _ => true
  | None => false
  end
  = nonempty (ms true r (mk_cursor None s [])).
Proof.
  assert (E : ms true (Seq Bol r) (mk_cursor None s []) = ms true r (mk_cursor None s [])).
  { cbn [ms prev flat_map]. apply app_nil_r. }
  destruct s as [|x s]; cbn [search_from]; unfold match_at; rewrite E;
    destruct (ms true r _) as [|st l]; cbn [hd_error nonempty];
    try reflexivity.
  now rewrite search_bol_later.
Qed.

(** What [re.search] answers for a plain wildcard keyword. *)
Lemma search_plain (keyword subject : str) :
  has_char "*" keyword = true -> plain keyword = true -> lowered subject ->
  search ("^"%char :: replace_char "*" (lit ".*") keyword) subject true
  = Ok (glob (lower keyword) subject).
Proof.
  intros Hstar Hp Hs. unfold search. rewrite (compile_plain keyword Hp). cbn [bind].
  destruct keyword as [|c kw]; [discriminate|].
  change (seq_list (Bol :: map item (c :: kw)))
    with (Seq Bol (seq_list (map item (c :: kw)))).
  rewrite search_anchored. f_equal.
  now apply (glob_ms (c :: kw) Hp (mk_cursor None subject [])).
Qed.

(** The loop over keywords on tame keywords: some keyword matches as the
    specification says. *)
Lemma match_keywords_tame (subject : str) (keywords : list str) :
  forallb tame keywords = true -> one_line subject = true ->
  PatternMatcher.match_keywords (lower subject) keywords
  = Ok (existsb (fun k => matches k subject) keywords).
Proof.
  intros Ht Hs.
  assert (Hl : lowered (lower subject)).
  { split; [now rewrite one_line_lower | apply lower_idem]. }
  induction keywords as [|k ks IH]; [reflexivity|].
  simpl in Ht. apply andb_true_iff in Ht as [Hk Hks].
  cbn [PatternMatcher.match_keywords existsb]. unfold matches at 1.
  destruct (has_char "*" k) eqn:Estar.
  - unfold tame in Hk. rewrite Estar in Hk. simpl in Hk.
    rewrite (search_plain k (lower subject) Estar Hk Hl). cbn [bind].
    unfold wildcard.
    destruct (glob (lower k) (lower subject)); [reflexivity | now apply IH].
  - unfold substring.
    destruct (contains (lower k) (lower subject)); [reflexivity | now apply IH].
Qed.

End WildcardFacts.

(** ** Dicts *)

Module DictFacts.

Lemma dict_find_In_key {V : Type} (k : str) (d : dict V) :
  dict_find k d <> None <-> In k (dict_keys d).
Proof.
  induction d as [|[k' v] d IH]; simpl.
  - split; [congruence | contradiction].
  - destruct (str_eqb k k') eqn:E.
    + apply str_eqb_eq in E. subst. split; [now left | congruence].
    + apply str_eqb_neq in E. rewrite IH. split; [now right|].
      intros [H|H]; [congruence | assumption].
Qed.

Lemma dict_find_In {V : Type} (k : str) (v : V) (d : dict V) :
  dict_find k d = Some v -> In (k, v) d.
Proof.
  induction d as [|[k' v'] d IH]; simpl; [discriminate|].
  destruct (str_eqb k k') eqn:E.
  - apply str_eqb_eq in E. intros H. injection H as ->. subst. now left.
  - intros H. right. now apply IH.
Qed.

Lemma In_dict_find {V : Type} (k : str) (v : V) (d : dict V) :
  NoDup (dict_keys d) -> In (k, v) d -> dict_find k d = Some v.
Proof.
  induction d as [|[k' v'] d IH]; simpl; [contradiction|].
  intros Hnd [H|H].
  - injection H as -> ->. now rewrite str_eqb_refl.
  - inversion Hnd as [|? ? Hnotin Hnd']; subst.
    destruct (str_eqb k k') eqn:E.
    + apply str_eqb_eq in E. subst. exfalso. apply Hnotin.
      change (In (fst (k', v)) (map fst d)). now apply in_map.
    + now apply IH.
Qed.

Lemma keys_set_present {V : Type} (k : str) (v : V) (d : dict V) :
  In k (dict_keys d) -> dict_keys (dict_set k v d) = dict_keys d.
Proof.
  induction d as [|[k' v'] d IH]; simpl; [contradiction|].
  destruct (str_eqb k k') eqn:E; [reflexivity|].
  apply str_eqb_neq in E. intros [H|H]; [congruence|].
  simpl. now rewrite IH.
Qed.

Lemma keys_set_absent {V : Type} (k : str) (v : V) (d : dict V) :
  ~ In k (dict_keys d) -> dict_keys (dict_set k v d) = dict_keys d ++ [k].
Proof.
  induction d as [|[k' v'] d IH]; simpl; [reflexivity|].
  intros H. destruct (str_eqb k k') eqn:E.
  - apply str_eqb_eq in E. subst. exfalso. apply H. now left.
  - simpl. rewrite IH; [reflexivity|]. intros Hin. apply H. now right.
Qed.

Lemma keys_set_nodup {V : Type} (k : str) (v : V) (d : dict V) :
  NoDup (dict_keys d) -> NoDup (dict_keys (dict_set k v d)).
Proof.
  intros Hnd. destruct (in_dec (list_eq_dec ascii_dec) k (dict_keys d)) as [H|H].
  - now rewrite keys_set_present.
  - rewrite keys_set_absent by assumption.
    apply NoDup_app; [assumption | repeat constructor; intros [] | ].
    intros x Hx [<-|[]]. contradiction.
Qed.

Lemma keys_set_In {V : Type} (k k0 : str) (v : V) (d : dict V) :
  In k0 (dict_keys d) \/ k0 = k -> In k0 (dict_keys (dict_set k v d)).
Proof.
  destruct (in_dec (list_eq_dec ascii_dec) k (dict_keys d)) as [H|H].
  - rewrite keys_set_present by assumption. intros [H0| ->]; assumption.
  - rewrite keys_set_absent by assumption. intros [H0| ->]; apply in_or_app;
      [now left | right; now left].
Qed.

(** Entries after an assignment: the new one, or old ones of other keys. *)
Lemma In_dict_set {V : Type} (k n : str) (v w : V) (d : dict V) :
  NoDup (dict_keys d) ->
  In (n, w) (dict_set k v d) -> (n = k /\ w = v) \/ (n <> k /\ In (n, w) d).
Proof.
  induction d as [|[k' v'] d IH]; simpl; intros Hnd.
  - intros [H|[]]. injection H as <- <-. now left.
  - inversion Hnd as [|? ? Hnotin Hnd']; subst.
    destruct (str_eqb k k') eqn:E.
    + apply str_eqb_eq in E. subst k'. intros [H|H].
      * injection H as <- <-. now left.
      * right. split; [|now right]. intros ->. apply Hnotin.
        change (In (fst (k, w)) (map fst d)). now apply in_map.
    + apply str_eqb_neq in E. intros [H|H].
      * injection H as <- <-. right. split; [congruence | now left].
      * destruct (IH Hnd' H) as [?|[? ?]]; [now left | right; split; auto].
Qed.

Lemma total_len_append {A : Type} (k : str) (b : list A) (x : A) (d : dict (list A)) :
  dict_find k d = Some b ->
  total_len (dict_set k (b ++ [x]) d) = S (total_len d).
Proof.
  unfold total_len. induction d as [|[k' v'] d IH]; simpl; [discriminate|].
  destruct (str_eqb k k').
  - intros H. injection H as ->. simpl. rewrite length_app. simpl. lia.
  - intros H. simpl. rewrite IH by assumption. lia.
Qed.

Lemma all_values_append {A : Type} (k : str) (b : list A) (x : A) (d : dict (list A)) :
  dict_find k d = Some b ->
  Permutation (all_values (dict_set k (b ++ [x]) d)) (x :: all_values d).
Proof.
  unfold all_values. induction d as [|[k' v'] d IH]; simpl; [discriminate|].
  destruct (str_eqb k k').
  - intros H. injection H as ->. simpl. rewrite <- app_assoc. simpl.
    symmetry. apply Permutation_middle.
  - intros H. simpl. rewrite IH by assumption. symmetry. apply Permutation_middle.
Qed.

(** Appending to the bucket of a key touches that bucket only. *)
Lemma dict_set_append {A : Type} (k : str) (b : list A) (x : A) (d : dict (list A)) :
  NoDup (dict_keys d) -> dict_find k d = Some b ->
  dict_set k (b ++ [x]) d =
  map (fun kv => (fst kv, snd kv ++ if str_eqb (fst kv) k then [x] else [])) d.
Proof.
  induction d as [|[k' v'] d IH]; simpl; [discriminate|].
  intros Hnd. inversion Hnd as [|? ? Hnotin Hnd']; subst.
  destruct (str_eqb k k') eqn:E.
  - apply str_eqb_eq in E. subst k'. intros H. injection H as ->.
    rewrite str_eqb_refl. f_equal.
    clear IH Hnd. induction d as [|[k2 v2] d IH]; simpl; [reflexivity|].
    simpl in Hnotin. destruct (str_eqb k2 k) eqn:E2.
    + apply str_eqb_eq in E2. subst. exfalso. apply Hnotin. now left.
    + rewrite app_nil_r. f_equal. apply IH.
      * intros Hin. apply Hnotin. now right.
      * now inversion Hnd'.
  - intros H. assert (E' : str_eqb k' k = false).
    { apply str_eqb_neq. apply str_eqb_neq in E. congruence. }
    rewrite E', app_nil_r. f_equal. now apply IH.
Qed.

End DictFacts.

(** ** PatternMatcher *)

Module MatcherFacts.
Import PatternMatcher MatcherSpec DictFacts.

Lemma matches_spec_keyword (photo : PhotoMetadata) (spec : AlbumSpec) :
  _matches_spec photo spec = keyword_match photo (keywords spec).
Proof.
  unfold _matches_spec.
  destruct (keyword_match photo (keywords spec)) as [[|]|e]; simpl;
    destruct (date_filter spec) as [f|]; try reflexivity;
    destruct (match_date photo f); reflexivity.
Qed.

Lemma place_bucket (album_specs : list AlbumSpec)
      (m : dict (list PhotoMetadata)) (u : list PhotoMetadata) (x : PhotoMetadata) :
  place album_specs (m, u) x =
  (b <- bucket_of album_specs x ;;
   match b with
   | Some album =>
       bucket <- dict_get m album ;;
       Ok (dict_set album (bucket ++ [x]) m, u)
   | None => Ok (m, u ++ [x])
   end)%result.
Proof.
  unfold place, bucket_of.
  destruct (first_match x album_specs) as [[album|]|e]; simpl; try reflexivity.
  destruct (truthy album); reflexivity.
Qed.

Lemma first_match_name (x : PhotoMetadata) (album_specs : list AlbumSpec) (n : str) :
  first_match x album_specs = Ok (Some n) ->
  exists spec, In spec album_specs /\ name spec = n.
Proof.
  induction album_specs as [|spec specs IH]; simpl; [discriminate|].
  destruct (_matches_spec x spec) as [[|]|e]; simpl; try discriminate.
  - intros H. injection H as <-. exists spec. auto.
  - intros H. destruct (IH H) as (s & Hs & Hn). exists s. auto.
Qed.

(** The first spec that matches, the ones before it not matching. *)
Lemma first_match_split (x : PhotoMetadata) (before after : list AlbumSpec)
      (spec : AlbumSpec) :
  (forall s, In s before -> _matches_spec x s = Ok false) ->
  _matches_spec x spec = Ok true ->
  first_match x (before ++ spec :: after) = Ok (Some (name spec)).
Proof.
  intros Hb Hs. induction before as [|s before IH]; simpl.
  - now rewrite Hs.
  - rewrite (Hb s) by now left. simpl. apply IH.
    intros s' Hs'. apply Hb. now right.
Qed.

Lemma first_match_none (x : PhotoMetadata) (album_specs : list AlbumSpec) :
  (forall s, In s album_specs -> _matches_spec x s = Ok false) ->
  first_match x album_specs = Ok None.
Proof.
  induction album_specs as [|s specs IH]; simpl; intros H; [reflexivity|].
  rewrite (H s) by now left. simpl. apply IH. intros s' Hs'. apply H. now right.
Qed.

(** *** The loop over photos *)

Lemma foldM_place (album_specs : list AlbumSpec) (photos : list PhotoMetadata) :
  forall m0 u0 m u,
    NoDup (dict_keys m0) ->
    foldM (place album_specs) photos (m0, u0) = Ok (m, u) ->
    dict_keys m = dict_keys m0
    /\ total_len m + length u = total_len m0 + length u0 + length photos
    /\ Permutation (all_values m ++ u) (all_values m0 ++ u0 ++ photos)
    /\ (forall n b x,
          In (n, b) m -> In x b ->
          (exists b0, In (n, b0) m0 /\ In x b0)
          \/ bucket_of album_specs x = Ok (Some n))
    /\ (forall x, In x u -> In x u0 \/ bucket_of album_specs x = Ok None).
Proof.
  induction photos as [|x photos IH]; intros m0 u0 m u Hnd H; cbn [foldM] in H.
  - injection H as <- <-. rewrite app_nil_r.
    repeat split; eauto; simpl; lia.
  - apply bind_ok in H as ([m1 u1] & Hp & H).
    rewrite place_bucket in Hp.
    apply bind_ok in Hp as (bk & Hbk & Hp).
    destruct bk as [album|].
    + apply bind_ok in Hp as (bucket & Hget & Hp). injection Hp as <- <-.
      unfold dict_get in Hget.
      destruct (dict_find album m0) as [bucket'|] eqn:Hfind; [|discriminate].
      injection Hget as ->.
      assert (Hkey : In album (dict_keys m0)).
      { apply dict_find_In_key. congruence. }
      assert (Hnd1 : NoDup (dict_keys (dict_set album (bucket ++ [x]) m0))).
      { now apply keys_set_nodup. }
      destruct (IH _ _ _ _ Hnd1 H) as (Hk & Hl & Hperm & Hb & Hu).
      rewrite keys_set_present in Hk by assumption.
      rewrite total_len_append in Hl by assumption.
      repeat split.
      * exact Hk.
      * simpl. lia.
      * rewrite Hperm.
        rewrite (all_values_append _ _ _ _ Hfind). simpl.
        rewrite !app_assoc. apply Permutation_middle.
      * intros n b y Hin Hy.
        destruct (Hb n b y Hin Hy) as [(b0 & Hb0 & Hy0)|Hright]; [|now right].
        apply In_dict_set in Hb0 as [[-> ->]|[Hne Hb0]]; [|left; eauto | assumption].
        apply in_app_or in Hy0 as [Hy0|[<-|[]]].
        -- left. exists bucket. split; [now apply dict_find_In | assumption].
        -- now right.
      * exact Hu.
    + injection Hp as <- <-.
      destruct (IH _ _ _ _ Hnd H) as (Hk & Hl & Hperm & Hb & Hu).
      repeat split.
      * exact Hk.
      * rewrite Hl, length_app. simpl. lia.
      * rewrite Hperm. rewrite <- !app_assoc. reflexivity.
      * exact Hb.
      * intros y Hy. destruct (Hu y Hy) as [Hy0|Hright]; [|now right].
        apply in_app_or in Hy0 as [Hy0|[<-|[]]]; [now left | now right].
Qed.

Lemma empty_buckets_from (album_specs : list AlbumSpec) :
  forall d : dict (list PhotoMetadata),
    NoDup (dict_keys d) -> (forall n b, In (n, b) d -> b = []) ->
    let d' := fold_left (fun d spec => dict_set (name spec) [] d) album_specs d in
    NoDup (dict_keys d')
    /\ (forall n b, In (n, b) d' -> b = [])
    /\ (forall n, In n (dict_keys d) -> In n (dict_keys d'))
    /\ (forall spec, In spec album_specs -> In (name spec) (dict_keys d')).
Proof.
  induction album_specs as [|s specs IH]; intros d Hnd Hempty; simpl.
  - repeat split; auto. contradiction.
  - assert (Hnd1 : NoDup (dict_keys (dict_set (name s) [] d)))
      by now apply keys_set_nodup.
    assert (He1 : forall n b, In (n, b) (dict_set (name s) [] d) -> b = []).
    { intros n b Hin. apply In_dict_set in Hin as [[_ ->]|[_ Hin]]; eauto. }
    destruct (IH _ Hnd1 He1) as (H1 & H2 & H3 & H4).
    repeat split; auto.
    + intros n Hn. apply H3. apply keys_set_In. now left.
    + intros spec [<-|Hin]; [|now apply H4].
      apply H3. apply keys_set_In. now right.
Qed.

Lemma empty_buckets_spec (album_specs : list AlbumSpec) :
  NoDup (dict_keys (empty_buckets album_specs))
  /\ (forall n b, In (n, b) (empty_buckets album_specs) -> b = [])
  /\ (forall spec, In spec album_specs ->
                   In (name spec) (dict_keys (empty_buckets album_specs))).
Proof.
  destruct (empty_buckets_from album_specs []) as (H1 & H2 & _ & H4).
  - constructor.
  - contradiction.
  - auto.
Qed.

Lemma empty_values {A : Type} (d : dict (list A)) :
  (forall n b, In (n, b) d -> b = []) -> total_len d = 0 /\ all_values d = [].
Proof.
  unfold total_len, all_values.
  induction d as [|[k v] d IH]; simpl; intros H; [auto|].
  rewrite (H k v) by now left. simpl. apply IH. intros n b Hin.
  apply (H n b). now right.
Qed.

(** What [match] returns, in terms of [bucket_of]. *)
Lemma match_buckets (album_specs : list AlbumSpec) (photos : list PhotoMetadata)
      (r : MatchResult) :
  match_ album_specs photos = Ok r ->
  dict_keys (matched r) = dict_keys (empty_buckets album_specs)
  /\ total_len (matched r) + length (unmatched r) = length photos
  /\ Permutation (all_values (matched r) ++ unmatched r) photos
  /\ (forall n b x, In (n, b) (matched r) -> In x b ->
                    bucket_of album_specs x = Ok (Some n))
  /\ (forall x, In x (unmatched r) -> bucket_of album_specs x = Ok None)
  /\ match_stats r = map (fun kv => (fst kv, Z.of_nat (length (snd kv)))) (matched r).
Proof.
  unfold match_. intros H. apply bind_ok in H as ([m u] & Hf & H).
  injection H as <-. simpl.
  destruct (empty_buckets_spec album_specs) as (Hnd & Hempty & _).
  destruct (foldM_place _ _ _ _ _ _ Hnd Hf) as (Hk & Hl & Hperm & Hb & Hu).
  destruct (empty_values _ Hempty) as [Ht Hv].
  rewrite Ht in Hl. rewrite Hv in Hperm. simpl in Hl, Hperm.
  repeat split; auto.
  - intros n b x Hin Hx. destruct (Hb n b x Hin Hx) as [(b0 & Hb0 & Hx0)|]; [|assumption].
    rewrite (Hempty _ _ Hb0) in Hx0. contradiction.
  - intros x Hx. destruct (Hu x Hx) as [[]|]; assumption.
Qed.

(** Every result of [match] partitions the photos. *)
Lemma match_partition (album_specs : list AlbumSpec) (photos : list PhotoMetadata)
      (r : MatchResult) :
  match_ album_specs photos = Ok r -> partitions r photos.
Proof.
  intros H. destruct (match_buckets _ _ _ H) as (Hk & Hl & Hperm & Hb & Hu & _).
  destruct (empty_buckets_spec album_specs) as (Hnd & _).
  rewrite <- Hk in Hnd.
  unfold partitions. split; [exact Hl|]. split; [exact Hperm|].
  split; [exact Hnd|]. split.
  - intros x n1 b1 n2 b2 H1 H2 Hx1 Hx2.
    pose proof (Hb _ _ _ H1 Hx1) as E1. pose proof (Hb _ _ _ H2 Hx2) as E2.
    assert (n1 = n2) by congruence. subst n2. split; [reflexivity|].
    apply In_dict_find in H1, H2; try assumption. congruence.
  - intros x n b Hin Hx Hun.
    pose proof (Hb _ _ _ Hin Hx) as E1. pose proof (Hu _ Hun) as E2. congruence.
Qed.

(** The buckets are the photos sent to each name, in the order of the
    input; so is [unmatched]. *)
Lemma foldM_place_filter (album_specs : list AlbumSpec) (photos : list PhotoMetadata) :
  forall m0 u0 m u,
    NoDup (dict_keys m0) ->
    foldM (place album_specs) photos (m0, u0) = Ok (m, u) ->
    m = map (fun kv => (fst kv, snd kv ++ filter (sent_to album_specs (fst kv)) photos)) m0
    /\ u = u0 ++ filter (unsent album_specs) photos.
Proof.
  induction photos as [|x photos IH]; intros m0 u0 m u Hnd H; cbn [foldM] in H.
  - injection H as <- <-. simpl. rewrite app_nil_r. split; [|reflexivity].
    rewrite <- (map_id m0) at 1. apply map_ext. intros [k v]. simpl.
    now rewrite app_nil_r.
  - apply bind_ok in H as ([m1 u1] & Hp & H).
    rewrite place_bucket in Hp.
    apply bind_ok in Hp as (bk & Hbk & Hp).
    destruct bk as [album|].
    + apply bind_ok in Hp as (bucket & Hget & Hp). injection Hp as <- <-.
      unfold dict_get in Hget.
      destruct (dict_find album m0) as [bucket'|] eqn:Hfind; [|discriminate].
      injection Hget as ->.
      assert (Hnd1 : NoDup (dict_keys (dict_set album (bucket ++ [x]) m0)))
        by now apply keys_set_nodup.
      destruct (IH _ _ _ _ Hnd1 H) as [-> ->].
      rewrite (dict_set_append _ _ _ _ Hnd Hfind), map_map. split.
      * apply map_ext. intros [k v]. simpl. f_equal.
        unfold sent_to at 2. rewrite Hbk.
        destruct (str_eqb k album); rewrite <- app_assoc; reflexivity.
      * simpl. unfold unsent at 2. now rewrite Hbk.
    + injection Hp as <- <-.
      destruct (IH _ _ _ _ Hnd H) as [-> ->]. split.
      * apply map_ext. intros [k v]. simpl. f_equal.
        unfold sent_to at 2. now rewrite Hbk.
      * simpl. unfold unsent at 2. rewrite Hbk. now rewrite <- app_assoc.
Qed.

(** *** When [match] returns *)

Lemma match_keywords_total (subject : str) (keywords : list str) :
  (forall k, In k keywords -> keyword_compiles k) ->
  exists b, match_keywords subject keywords = Ok b.
Proof.
  induction keywords as [|k ks IH]; intros H; cbn [match_keywords]; [eauto|].
  assert (IH' : exists b, match_keywords subject ks = Ok b).
  { apply IH. intros k' Hk'. apply H. now right. }
  destruct (has_char "*" k) eqn:Estar.
  - destruct (H k (or_introl eq_refl) Estar) as [r Er].
    unfold Re.search. rewrite Er. cbn [bind].
    destruct (Re.search_from true r 0 None subject); eauto.
  - destruct (contains (lower k) subject); eauto.
Qed.

Lemma matches_spec_total (x : PhotoMetadata) (spec : AlbumSpec) :
  (forall k, In k (keywords spec) -> keyword_compiles k) ->
  exists b, _matches_spec x spec = Ok b.
Proof.
  intros H. rewrite matches_spec_keyword. unfold keyword_match, match_filename, match_folder.
  destruct (match_keywords_total (lower (filename x)) _ H) as [b1 ->].
  destruct (match_keywords_total (lower (folder_name x)) _ H) as [b2 ->].
  simpl. destruct b1; eauto.
Qed.

Lemma first_match_total (x : PhotoMetadata) (album_specs : list AlbumSpec) :
  specs_compile album_specs -> exists a, first_match x album_specs = Ok a.
Proof.
  induction album_specs as [|spec specs IH]; intros H; simpl; [eauto|].
  destruct (matches_spec_total x spec) as [b ->].
  { intros k Hk. apply (H spec k); [now left | assumption]. }
  simpl. destruct b; [eauto|]. apply IH.
  intros s k Hs Hk. apply (H s k); [now right | assumption].
Qed.

Lemma foldM_place_total (album_specs : list AlbumSpec) (photos : list PhotoMetadata) :
  specs_compile album_specs ->
  forall m0 u0,
    (forall spec, In spec album_specs -> In (name spec) (dict_keys m0)) ->
    exists st, foldM (place album_specs) photos (m0, u0) = Ok st.
Proof.
  intros Hc. induction photos as [|x photos IH]; intros m0 u0 Hkeys; cbn [foldM];
    [eauto|].
  rewrite place_bucket. unfold bucket_of.
  destruct (first_match_total x album_specs Hc) as [a Ea]. rewrite Ea. cbn [bind].
  destruct a as [album|]; [|apply IH; assumption].
  destruct (truthy album); [|apply IH; assumption].
  destruct (first_match_name _ _ _ Ea) as (spec & Hin & <-).
  pose proof (Hkeys spec Hin) as Hk.
  unfold dict_get.
  destruct (dict_find (name spec) m0) as [bucket|] eqn:Ef.
  - cbn [bind]. apply IH. intros s Hs.
    rewrite keys_set_present by assumption. now apply Hkeys.
  - exfalso. apply dict_find_In_key in Hk. contradiction.
Qed.

(** [match] returns whenever no wildcard keyword is a malformed pattern. *)
Lemma match_total (album_specs : list AlbumSpec) (photos : list PhotoMetadata) :
  specs_compile album_specs -> exists r, match_ album_specs photos = Ok r.
Proof.
  intros Hc. unfold match_.
  destruct (foldM_place_total album_specs photos Hc (empty_buckets album_specs) [])
    as [[m u] E].
  - apply empty_buckets_spec.
  - rewrite E. simpl. eauto.
Qed.

(** A photo sent to a bucket is in it, and nowhere else. *)
Lemma match_places (album_specs : list AlbumSpec) (photos : list PhotoMetadata)
      (r : MatchResult) (x : PhotoMetadata) (b : option str) :
  match_ album_specs photos = Ok r -> In x photos ->
  bucket_of album_specs x = Ok b ->
  match b with
  | Some n =>
      (exists bucket, In (n, bucket) (matched r) /\ In x bucket)
      /\ ~ In x (unmatched r)
      /\ (forall n' bucket', In (n', bucket') (matched r) -> In x bucket' -> n' = n)
  | None =>
      In x (unmatched r)
      /\ (forall n' bucket', In (n', bucket') (matched r) -> ~ In x bucket')
  end.
Proof.
  intros H Hx Hb.
  destruct (match_buckets _ _ _ H) as (_ & _ & Hperm & Hin & Hun & _).
  assert (Hsome : In x (all_values (matched r) ++ unmatched r)).
  { eapply Permutation_in; [symmetry; exact Hperm | exact Hx]. }
  apply in_app_or in Hsome.
  assert (Hval : In x (all_values (matched r)) ->
                 exists n bucket, In (n, bucket) (matched r) /\ In x bucket).
  { unfold all_values. intros Hc. apply in_concat in Hc as (bucket & Hbk & Hxb).
    apply in_map_iff in Hbk as ([n bk] & <- & Hnb). exists n, bk. auto. }
  destruct b as [n|].
  - split; [|split].
    + destruct Hsome as [Hv|Hu].
      * destruct (Hval Hv) as (n' & bucket & Hnb & Hxb).
        pose proof (Hin _ _ _ Hnb Hxb) as E. rewrite Hb in E.
        injection E as ->. eauto.
      * apply Hun in Hu. congruence.
    + intros Hu. apply Hun in Hu. congruence.
    + intros n' bucket' Hnb Hxb. pose proof (Hin _ _ _ Hnb Hxb) as E. congruence.
  - split.
    + destruct Hsome as [Hv|Hu]; [|assumption].
      destruct (Hval Hv) as (n' & bucket & Hnb & Hxb).
      pose proof (Hin _ _ _ Hnb Hxb) as E. congruence.
    + intros n' bucket' Hnb Hxb. pose proof (Hin _ _ _ Hnb Hxb) as E. congruence.
Qed.

End MatcherFacts.

(* ================================================================== *)
(** ** The date tokens and the date patterns *)

Module TokenFacts.
Import Re ReFacts PromptParser DateLoops ParserFacts DictFacts DateWords TokenNotions.

(** *** The lookup table *)

Lemma month_in_find (t : list (str * Z)) (w : str) :
  month_in t w = dict_find w t.
Proof.
  induction t as [|[k n] t IH]; [reflexivity|]. simpl. now rewrite IH.
Qed.

Lemma month_of_find (w : str) : month_of w = dict_find w MONTH_NAMES.
Proof.
  unfold month_of. rewrite month_in_find.
  let t := eval vm_compute in table in change table with t.
  unfold MONTH_NAMES, lit. cbn [list_ascii_of_string].
  cbn [dict_find].
  repeat match goal with
         | |- context [str_eqb w ?k] => destruct (str_eqb w k); [reflexivity|]
         end.
  reflexivity.
Qed.

(** *** Positions *)

Lemma last_of_app (p : option ascii) (a b : str) :
  last_of p (a ++ b) = last_of (last_of p a) b.
Proof. unfold last_of. apply fold_left_app. Qed.

Lemma tokens_skip {T : Type} (token_at : option ascii -> str -> option (T * nat)) :
  forall s k p,
    k <= length s ->
    tokens token_at k p s
    = tokens token_at 0 (last_of p (firstn k s)) (skipn k s).
Proof.
  induction s as [|c s IH]; intros k p Hk.
  - simpl in Hk. replace k with 0 by lia. reflexivity.
  - destruct k as [|k]; [reflexivity|]. simpl in Hk.
    cbn [tokens firstn skipn]. rewrite IH by lia. reflexivity.
Qed.

Lemma ms_moves (ic : bool) (r : regex) (st st' : cursor) :
  In st' (ms ic r st) -> moves st st'.
Proof.
  apply (@ms_rel ic moves (fun _ => True) (fun _ _ => True)).
  - intros s0. exists []. auto.
  - intros a b c (w1 & E1 & P1) (w2 & E2 & P2). exists (w1 ++ w2). split.
    + now rewrite E1, E2, app_assoc.
    + now rewrite P2, P1, last_of_app.
  - intros a s0 c t _ E _. exists [c]. simpl. auto.
  - intros i r0 s0 s1 _ _ (w & E & P). exists w. simpl. auto.
  - apply all_atoms_True.
  - apply all_groups_True.
Qed.

(** *** The matches of a pattern and the tokens of a recogniser *)

Section Scan.

Variable ic : bool.
Variable r : regex.
Variable T : Type.
Variable token_at : option ascii -> str -> option (T * nat).
Variable f : rmatch -> list DateFilter.
Variable g : T -> list DateFilter.
Variable ok : str -> Prop.

Hypothesis ok_tail : forall w s, ok (w ++ s) -> ok s.

(** Where the recogniser sees a token the pattern matches. *)
Hypothesis hit :
  forall p s t n,
    ok s -> token_at p s = Some (t, n) -> ms ic r (mk_cursor p s []) <> [].

(** Every way the pattern matches takes the token the recogniser sees. *)
Hypothesis sound :
  forall p s st',
    ok s -> In st' (ms ic r (mk_cursor p s [])) ->
    exists t n,
      token_at p s = Some (t, n) /\ 0 < n /\ length (rest st') + n = length s
      /\ forall a txt, f (mk_match a txt (caps st')) = g t.

Lemma scan_tokens :
  forall fuel a p s,
    ok s -> length s < fuel ->
    flat_map f (scan fuel ic r a p s false) = flat_map g (tokens token_at 0 p s).
Proof.
  induction fuel as [|fuel IH]; intros a p s Hok Hlen; [lia|].
  cbn [scan pick].
  destruct (ms ic r (mk_cursor p s [])) as [|st' l] eqn:E.
  - cbn [hd_error].
    assert (Hnone : token_at p s = None).
    { destruct (token_at p s) as [[t n]|] eqn:Et; [|reflexivity].
      exfalso. now apply (hit p s t n Hok Et). }
    destruct s as [|c s]; [reflexivity|].
    cbn [tokens]. rewrite Hnone. apply IH.
    + now apply (ok_tail [c]).
    + simpl in Hlen. lia.
  - cbn [hd_error].
    assert (Hin : In st' (ms ic r (mk_cursor p s []))) by (rewrite E; now left).
    destruct (sound p s st' Hok Hin) as (t & n & Et & Hn & Hl & Hf).
    destruct (ms_moves _ _ _ _ Hin) as (w & Ew & Ep). cbn [rest prev] in Ew, Ep.
    assert (Hw : length w = n).
    { apply (f_equal (@length ascii)) in Ew. rewrite length_app in Ew. lia. }
    rewrite (consumed_app (mk_cursor p s []) st' w Ew).
    cbn [m_text].
    destruct w as [|c w]; [simpl in Hw; lia|].
    rewrite Ew. cbn [app tokens flat_map]. rewrite <- (app_comm_cons w) in Ew.
    rewrite <- Ew, Et, Hf. f_equal.
    rewrite tokens_skip by (rewrite length_app; simpl in Hw; lia).
    replace (n - 1) with (length w) by (simpl in Hw; lia).
    rewrite firstn_app, Nat.sub_diag, firstn_all, skipn_app, Nat.sub_diag,
      skipn_all. cbn [firstn skipn app]. rewrite app_nil_r.
    rewrite Ep. cbn [flat_map]. f_equal.
    change (last_of p (c :: w)) with (last_of (Some c) w). apply IH.
    + apply (ok_tail (c :: w)). cbn [app]. now rewrite <- Ew.
    + apply (f_equal (@length ascii)) in Ew. simpl in Ew. rewrite length_app in Ew. lia.
Qed.

End Scan.

(** *** Digits *)

Lemma digit_word (c : ascii) : is_digit c = true -> is_word c = true.
Proof. intros H. unfold is_word. rewrite H. now rewrite orb_true_r. Qed.

Lemma digit_no_space (c : ascii) : is_digit c = true -> is_space c = false.
Proof.
  unfold is_digit, is_space, between. intros H.
  apply andb_true_iff in H as [H1 H2].
  apply Nat.leb_le in H1. apply Nat.leb_le in H2.
  apply orb_false_iff. split; apply andb_false_iff.
  - right. apply Nat.leb_gt. lia.
  - right. apply Nat.leb_gt. lia.
Qed.

Lemma digits_at_spec (n : nat) :
  forall s y t,
    digits_at n s = Some (y, t) ->
    s = y ++ t /\ length y = n /\ forallb is_digit y = true.
Proof.
  induction n as [|n IH]; intros s y t H; simpl in H.
  - injection H as <- <-. auto.
  - destruct s as [|c s]; [discriminate|].
    destruct (is_digit c) eqn:Ec; [|discriminate].
    destruct (digits_at n s) as [[ds t']|] eqn:Ed; [|discriminate].
    injection H as <- <-. destruct (IH _ _ _ Ed) as (-> & <- & Hd).
    simpl. rewrite Ec. auto.
Qed.

Lemma last_of_digits (p : option ascii) (y : str) :
  y <> [] -> forallb is_digit y = true -> word_at (last_of p y) = true.
Proof.
  revert p. induction y as [|c y IH]; intros p Hne Hd; [contradiction|].
  simpl in Hd. apply andb_true_iff in Hd as [Hc Hy].
  destruct y as [|c' y].
  - simpl. now apply digit_word.
  - change (last_of p (c :: c' :: y)) with (last_of (Some c) (c' :: y)).
    apply IH; [discriminate | exact Hy].
Qed.

Lemma free_after_boundary (p : option ascii) (t : str) (c : list (nat * str)) :
  word_at p = true -> at_boundary (mk_cursor p t c) = free_after t.
Proof.
  intros H. unfold at_boundary. cbn [prev rest]. rewrite H.
  destruct t as [|x t]; reflexivity.
Qed.

Lemma free_before_boundary (p : option ascii) (x : ascii) (t : str)
      (c : list (nat * str)) :
  is_word x = true -> at_boundary (mk_cursor p (x :: t) c) = free_before p.
Proof.
  intros H. unfold at_boundary. cbn [prev rest hd_error word_at]. rewrite H.
  destruct p as [y|]; simpl; [|reflexivity]. now destruct (is_word y).
Qed.

Lemma ms_digit (ic : bool) (st : cursor) :
  ms ic (Atom ADigit) st = digits_cursor 1 st.
Proof.
  unfold digits_cursor. simpl. destruct (rest st) as [|c t]; [reflexivity|].
  now destruct (is_digit c).
Qed.

Lemma ms_digits (ic : bool) (r1 r2 : regex) (n : nat) :
  (forall st, ms ic r1 st = digits_cursor 1 st) ->
  (forall st, ms ic r2 st = digits_cursor n st) ->
  forall st, ms ic (Seq r1 r2) st = digits_cursor (S n) st.
Proof.
  intros H1 H2 st. cbn [ms]. rewrite H1. unfold digits_cursor.
  cbn [digits_at]. destruct (rest st) as [|c t]; [reflexivity|].
  destruct (is_digit c); [|reflexivity].
  cbn [flat_map]. rewrite H2, app_nil_r. unfold digits_cursor. cbn [rest prev caps].
  now destruct (digits_at n t) as [[ds t']|].
Qed.

Lemma ms_two_digits (ic : bool) (st : cursor) :
  ms ic (Seq (Atom ADigit) (Atom ADigit)) st = digits_cursor 2 st.
Proof. apply ms_digits; intros; apply ms_digit. Qed.

Lemma ms_four_digits (ic : bool) (st : cursor) :
  ms ic (Seq (Atom ADigit)
             (Seq (Atom ADigit) (Seq (Atom ADigit) (Atom ADigit)))) st
  = digits_cursor 4 st.
Proof.
  apply ms_digits; [intros; apply ms_digit|].
  intros st1. apply ms_digits; [intros; apply ms_digit|]. apply ms_two_digits.
Qed.

(** A group of digits that ends a token. *)
Lemma ms_digits_end (ic : bool) (i : nat) (r : regex) (n : nat) (st : cursor) :
  (forall st, ms ic r st = digits_cursor n st) -> 0 < n ->
  ms ic (Seq (Group i r) WordB) st
  = match digits_at n (rest st) with
    | Some (y, t) =>
        if free_after t
        then [mk_cursor (last_of (prev st) y) t ((i, y) :: caps st)]
        else []
    | None => []
    end.
Proof.
  intros H Hn. cbn [ms]. rewrite H. unfold digits_cursor.
  destruct (digits_at n (rest st)) as [[y t]|] eqn:E; [|reflexivity].
  destruct (digits_at_spec _ _ _ _ E) as (Es & Hl & Hd).
  cbn [map flat_map]. rewrite app_nil_r. unfold close_group. cbn [prev rest caps].
  rewrite (consumed_app st (mk_cursor (last_of (prev st) y) t (caps st)) y Es).
  rewrite free_after_boundary; [reflexivity|].
  apply last_of_digits; [|exact Hd]. destruct y; [simpl in Hl; lia | discriminate].
Qed.

(** A group of digits in the middle of a token. *)
Lemma ms_digits_group (ic : bool) (i : nat) (r : regex) (n : nat) (st : cursor) :
  (forall st, ms ic r st = digits_cursor n st) ->
  ms ic (Group i r) st
  = match digits_at n (rest st) with
    | Some (y, t) => [mk_cursor (last_of (prev st) y) t ((i, y) :: caps st)]
    | None => []
    end.
Proof.
  intros H. cbn [ms]. rewrite H. unfold digits_cursor.
  destruct (digits_at n (rest st)) as [[y t]|] eqn:E; [|reflexivity].
  destruct (digits_at_spec _ _ _ _ E) as (Es & Hl & Hd).
  cbn [map]. unfold close_group. cbn [prev rest caps].
  now rewrite (consumed_app st (mk_cursor (last_of (prev st) y) t (caps st)) y Es).
Qed.

(** *** Bare numbers *)

Lemma ms_re3 (p : option ascii) (s : str) :
  ms false re3 (mk_cursor p s [])
  = match digits_at 4 s with
    | Some (y, t) =>
        if free_before p && free_after t
        then [mk_cursor (last_of p y) t [(1, y)]]
        else []
    | None => []
    end.
Proof.
  unfold re3. change (ms false (Seq WordB ?x) ?st)
    with (flat_map (ms false x) (if at_boundary st then [st] else [])).
  destruct (digits_at 4 s) as [[y t]|] eqn:E.
  - destruct (digits_at_spec _ _ _ _ E) as (-> & Hl & Hd).
    destruct y as [|a y]; [discriminate|]. cbn [app].
    simpl in Hd. apply andb_true_iff in Hd as [Ha Hy].
    rewrite free_before_boundary by now apply digit_word.
    destruct (free_before p); [|reflexivity].
    cbn [flat_map]. rewrite app_nil_r.
    rewrite (ms_digits_end false 1 _ 4) by (auto using ms_four_digits; lia).
    cbn [rest prev caps]. cbn [app] in E. now rewrite E.
  - destruct (at_boundary (mk_cursor p s [])); [|reflexivity].
    cbn [flat_map]. rewrite app_nil_r.
    rewrite (ms_digits_end false 1 _ 4) by (auto using ms_four_digits; lia).
    cbn [rest]. now rewrite E.
Qed.

Lemma flat_map_filter {A B : Type} (keep : A -> bool) (h : A -> B) (l : list A) :
  flat_map (fun x => if keep x then [h x] else []) l = map h (filter keep l).
Proof.
  induction l as [|x l IH]; [reflexivity|]. simpl.
  destruct (keep x); simpl; now rewrite IH.
Qed.

Lemma fuel_enough (s : str) : length s < fuel_for s.
Proof. unfold fuel_for. lia. Qed.

Lemma bare_numbers_found (text : str) :
  DateLoops.loop3 text = DateWords.category_c text.
Proof.
  unfold DateLoops.loop3, DateWords.category_c, bare_numbers.
  rewrite (matches_of_compiled _ _ _ _ compile_pattern3).
  rewrite <- flat_map_filter.
  apply (scan_tokens false re3 Z year_at year_filter
                     (fun y => if within 2000 2100 y then [for_year y] else [])
                     (fun _ => True)); auto using fuel_enough.
  - intros p s t n _ H. rewrite ms_re3. unfold year_at in H.
    destruct (digits_at 4 s) as [[y t']|]; [|discriminate].
    destruct (free_before p && free_after t'); discriminate.
  - intros p s st' _ H. rewrite ms_re3 in H. unfold year_at.
    destruct (digits_at 4 s) as [[y t']|] eqn:E; [|contradiction].
    destruct (free_before p && free_after t'); [|contradiction].
    destruct H as [<-|[]].
    destruct (digits_at_spec _ _ _ _ E) as (-> & Hl & _).
    exists (value y), 4. cbn [rest caps]. rewrite length_app.
    repeat split; try lia.
Qed.

(** *** YYYY-MM tokens *)

Lemma ms_seq (ic : bool) (r1 r2 : regex) (st : cursor) :
  ms ic (Seq r1 r2) st = flat_map (ms ic r2) (ms ic r1 st).
Proof. reflexivity. Qed.

Lemma ms_boundary (ic : bool) (st : cursor) :
  ms ic WordB st = if at_boundary st then [st] else [].
Proof. reflexivity. Qed.

Lemma ms_lit (x : ascii) (st : cursor) :
  ms false (Atom (ALit x)) st
  = match rest st with
    | c :: t => if Ascii.eqb x c then [mk_cursor (Some c) t (caps st)] else []
    | [] => []
    end.
Proof. reflexivity. Qed.

Lemma ms_re2 (p : option ascii) (s : str) :
  ms false re2 (mk_cursor p s [])
  = match digits_at 4 s with
    | Some (y, c :: t) =>
        match digits_at 2 t with
        | Some (m, t') =>
            if Ascii.eqb c "-" && free_before p && free_after t'
            then [mk_cursor (last_of (Some c) m) t' [(2, m); (1, y)]]
            else []
        | None => []
        end
    | _ => []
    end.
Proof.
  unfold re2. rewrite ms_seq, ms_boundary.
  destruct (digits_at 4 s) as [[y t]|] eqn:E.
  - destruct (digits_at_spec _ _ _ _ E) as (Es & Hl & Hd).
    destruct y as [|a y]; [discriminate|]. subst s. cbn [app].
    simpl in Hd. apply andb_true_iff in Hd as [Ha Hy].
    rewrite free_before_boundary by now apply digit_word.
    destruct (free_before p).
    + cbn [flat_map]. rewrite app_nil_r, ms_seq.
      rewrite (ms_digits_group false 1 _ 4) by auto using ms_four_digits.
      cbn [rest prev caps]. cbn [app] in E. rewrite E.
      cbn [flat_map]. rewrite app_nil_r, ms_seq, ms_lit. cbn [rest prev caps].
      destruct t as [|c t]; [reflexivity|].
      rewrite (Ascii.eqb_sym c). destruct (Ascii.eqb "-" c).
      * cbn [flat_map]. rewrite app_nil_r.
        rewrite (ms_digits_end false 2 _ 2) by (auto using ms_two_digits; lia).
        cbn [rest prev caps]. reflexivity.
      * cbn [flat_map]. now destruct (digits_at 2 t) as [[m t']|].
    + destruct t as [|c t]; [reflexivity|].
      destruct (digits_at 2 t) as [[m t']|]; [|reflexivity].
      now rewrite andb_false_r.
  - destruct (at_boundary (mk_cursor p s [])); [|reflexivity].
    cbn [flat_map]. rewrite app_nil_r, ms_seq.
    rewrite (ms_digits_group false 1 _ 4) by auto using ms_four_digits.
    cbn [rest]. now rewrite E.
Qed.

Lemma iso_tokens_found (text : str) :
  DateLoops.loop2 text = DateWords.category_b text.
Proof.
  unfold DateLoops.loop2, DateWords.category_b, iso_tokens.
  rewrite (matches_of_compiled _ _ _ _ compile_pattern2).
  rewrite <- flat_map_filter.
  apply (scan_tokens false re2 (Z * Z)%type iso_at iso_filter
                     (fun ym => if within 1 12 (snd ym) then [for_month ym] else [])
                     (fun _ => True)); auto using fuel_enough.
  - intros p s t n _ H. rewrite ms_re2. unfold iso_at in H.
    destruct (digits_at 4 s) as [[y [|c t']]|]; try discriminate.
    destruct (digits_at 2 t') as [[m t'']|]; [|discriminate].
    destruct (Ascii.eqb c "-" && free_before p && free_after t''); discriminate.
  - intros p s st' _ H. rewrite ms_re2 in H. unfold iso_at.
    destruct (digits_at 4 s) as [[y [|c t']]|] eqn:E; try contradiction.
    destruct (digits_at 2 t') as [[m t'']|] eqn:E2; [|contradiction].
    destruct (Ascii.eqb c "-" && free_before p && free_after t''); [|contradiction].
    destruct H as [<-|[]].
    destruct (digits_at_spec _ _ _ _ E) as (-> & Hl & _).
    destruct (digits_at_spec _ _ _ _ E2) as (-> & Hl2 & _).
    exists (value y, value m), 7. cbn [rest caps].
    rewrite !length_app. cbn [length]. rewrite length_app.
    repeat split; try lia.
Qed.

(** *** Month-year pairs *)

Lemma span_spec (f : ascii -> bool) :
  forall s w t,
    span f s = (w, t) ->
    s = w ++ t /\ forallb f w = true
    /\ match t with c :: _ => f c = false | [] => True end.
Proof.
  induction s as [|c s IH]; intros w t H; simpl in H.
  - injection H as <- <-. auto.
  - destruct (f c) eqn:Ec.
    + destruct (span f s) as [w' t'] eqn:E. injection H as <- <-.
      destruct (IH _ _ eq_refl) as (-> & Hw & Ht). simpl. rewrite Ec. auto.
    + injection H as <- <-. simpl. auto.
Qed.

Lemma span_app (f : ascii -> bool) (w t : str) :
  forallb f w = true ->
  match t with c :: _ => f c = false | [] => True end ->
  span f (w ++ t) = (w, t).
Proof.
  intros Hw Ht. induction w as [|c w IH]; simpl.
  - destruct t as [|c t]; [reflexivity|]. simpl. now rewrite Ht.
  - simpl in Hw. apply andb_true_iff in Hw as [Hc Hw]. now rewrite Hc, IH.
Qed.

Lemma lower_lowered (s : str) : lowered s -> lower s = s.
Proof.
  induction 1 as [|c s Hc _ IH]; [reflexivity|]. simpl. now rewrite Hc, IH.
Qed.

Lemma lowered_app (a b : str) : lowered (a ++ b) -> lowered a /\ lowered b.
Proof. apply Forall_app. Qed.

Lemma lower_is_lowered (s : str) : lowered (lower s).
Proof.
  induction s as [|c s IH]; constructor;
    [apply WildcardFacts.lower_char_idem | exact IH].
Qed.

(** A pattern without groups leaves the groups as they are. *)
Lemma ms_no_groups (ic : bool) (r : regex) (st st' : cursor) :
  all_groups (fun _ _ => False) r -> In st' (ms ic r st) -> caps st' = caps st.
Proof.
  intros HG.
  apply (@ms_rel ic (fun a b => caps b = caps a) (fun _ => True) (fun _ _ => False));
    auto using all_atoms_True.
  - intros a b c E1 E2. congruence.
  - intros i r0 s0 s1 [].
Qed.

(** Every word of a choice of words is matched, whatever its case. *)
Lemma ms_words_complete (r : regex) :
  forall l, words r = Some l -> all_groups (fun _ _ => False) r ->
  forall w t st,
    rest st = w ++ t -> In (lower w) l ->
    In (mk_cursor (last_of (prev st) w) t (caps st)) (ms true r st).
Proof.
  induction r as [|a| | | |r1 IH1 r2 IH2|r1 IH1 r2 IH2|r1 IH1|i r1 IH1];
    intros l Hw HG w t st Es Hin; simpl in Hw; try discriminate.
  - injection Hw as <-. destruct Hin as [E|[]].
    destruct w; [|discriminate]. simpl in Es. subst t. simpl.
    left. now destruct st.
  - destruct a as [c| | | |]; try discriminate. injection Hw as <-.
    destruct Hin as [E|[]]. destruct w as [|x [|y w]]; try discriminate.
    injection E as E. simpl in Es. cbn [ms]. rewrite Es.
    cbn [atom_match]. rewrite E, Ascii.eqb_refl. now left.
  - destruct (words r1) as [l1|] eqn:E1; [|discriminate].
    destruct (words r2) as [l2|] eqn:E2; [|discriminate].
    injection Hw as <-. destruct HG as [G1 G2].
    apply in_flat_map in Hin as (a & Ha & Hin).
    apply in_map_iff in Hin as (b & E & Hb).
    assert (Ew : w = firstn (length a) w ++ skipn (length a) w)
      by (symmetry; apply firstn_skipn).
    assert (El : lower (firstn (length a) w) = a /\ lower (skipn (length a) w) = b).
    { unfold lower in *. rewrite <- firstn_map, <- skipn_map, <- E.
      rewrite firstn_app, Nat.sub_diag, firstn_all, skipn_app, Nat.sub_diag,
        skipn_all. simpl. now rewrite app_nil_r. }
    destruct El as [La Lb].
    set (w1 := firstn (length a) w) in *. set (w2 := skipn (length a) w) in *.
    cbn [ms]. apply in_flat_map.
    exists (mk_cursor (last_of (prev st) w1) (w2 ++ t) (caps st)). split.
    + apply (IH1 l1 eq_refl G1 w1 (w2 ++ t) st).
      * now rewrite Es, Ew, <- app_assoc.
      * now rewrite La.
    + rewrite Ew, last_of_app.
      apply (IH2 l2 eq_refl G2 w2 t
                 (mk_cursor (last_of (prev st) w1) (w2 ++ t) (caps st)));
        [reflexivity | now rewrite Lb].
  - destruct (words r1) as [l1|] eqn:E1; [|discriminate].
    destruct (words r2) as [l2|] eqn:E2; [|discriminate].
    injection Hw as <-. destruct HG as [G1 G2].
    cbn [ms]. apply in_or_app. apply in_app_or in Hin as [Hin|Hin].
    + left. now apply (IH1 l1).
    + right. now apply (IH2 l2).
  - destruct HG as [[] _].
Qed.

(** White space is matched as far as one likes. *)
Lemma star_loop_self (step : cursor -> list cursor) (n : nat) (st : cursor) :
  In st (star_loop step n st).
Proof. destruct n; simpl; [now left | apply in_or_app; right; now left]. Qed.

Lemma star_blank (ic : bool) :
  forall ws n st t,
    forallb is_space ws = true -> rest st = ws ++ t -> length ws <= n ->
    In (mk_cursor (last_of (prev st) ws) t (caps st))
       (star_loop (ms ic (Atom ASpace)) n st).
Proof.
  induction ws as [|c ws IH]; intros n st t Hs Es Hn.
  - simpl in Es. subst t. replace (mk_cursor _ _ _) with st by now destruct st.
    apply star_loop_self.
  - destruct n as [|n]; [simpl in Hn; lia|].
    simpl in Hs. apply andb_true_iff in Hs as [Hc Hs].
    cbn [star_loop]. apply in_or_app. left. apply in_flat_map.
    exists (mk_cursor (Some c) (ws ++ t) (caps st)). split.
    + cbn [ms]. rewrite Es. cbn [app atom_match]. rewrite Hc. now left.
    + cbn [rest]. rewrite Es. cbn [app length].
      replace (length (ws ++ t) <? S (length (ws ++ t))) with true
        by (symmetry; apply Nat.ltb_lt; lia).
      apply (IH n (mk_cursor (Some c) (ws ++ t) (caps st)) t Hs eq_refl).
      simpl in Hn. lia.
Qed.

Lemma ms_group (ic : bool) (i : nat) (r : regex) (st : cursor) :
  ms ic (Group i r) st = map (close_group i st) (ms ic r st).
Proof. reflexivity. Qed.

Lemma re1_shape :
  re1 = Seq WordB
            (Seq (Group 1 month_choice)
                 (Seq blank (Seq (Group 2 four_digits) WordB))).
Proof. reflexivity. Qed.

Lemma month_choice_words : words month_choice = Some (dict_keys MONTH_NAMES).
Proof. vm_compute. reflexivity. Qed.

Lemma month_choice_flat : all_groups (fun _ _ => False) month_choice.
Proof. unfold month_choice. cbn [all_groups]. tauto. Qed.

Lemma month_keys : forallb month_key (dict_keys MONTH_NAMES) = true.
Proof. vm_compute. reflexivity. Qed.

Lemma month_keys_lowered :
  forallb (fun k => str_eqb (lower k) k) (dict_keys MONTH_NAMES) = true.
Proof. vm_compute. reflexivity. Qed.

(** What a month name of the table is. *)
Lemma month_key_spec (w : str) :
  month_key w = true ->
  (exists m, month_of w = Some m /\ month_number w = m)
  /\ forallb (fun c => negb (is_space c)) w = true
  /\ exists x w', w = x :: w' /\ is_word x = true.
Proof.
  unfold month_key. intros H.
  apply andb_true_iff in H as [H H3]. apply andb_true_iff in H as [H1 H2].
  split; [|split; [exact H2|]].
  - unfold is_month_key in H1. unfold month_number. rewrite month_of_find.
    destruct (dict_find w MONTH_NAMES) as [m|]; [eauto | discriminate].
  - destruct w as [|x w']; [discriminate | eauto].
Qed.

Lemma month_of_key (w : str) (m : Z) :
  month_of w = Some m -> month_key w = true /\ lower w = w.
Proof.
  rewrite month_of_find. intros H.
  assert (Hin : In w (dict_keys MONTH_NAMES)).
  { apply dict_find_In_key. congruence. }
  split.
  - pose proof month_keys as Hk. rewrite forallb_forall in Hk. now apply Hk.
  - pose proof month_keys_lowered as Hk. rewrite forallb_forall in Hk.
    apply str_eqb_eq. now apply Hk.
Qed.

Lemma ms_blank (ic : bool) (st st' : cursor) :
  In st' (ms ic blank st) ->
  exists c ws,
    rest st = (c :: ws) ++ rest st' /\ forallb is_space (c :: ws) = true
    /\ prev st' = last_of (prev st) (c :: ws) /\ caps st' = caps st.
Proof.
  intros H.
  pose proof (ms_chars ic is_space blank st st') as Hc.
  pose proof (ms_min_len ic blank st st' H) as Hl.
  pose proof (ms_no_groups ic blank st st') as Hg.
  destruct (ms_moves _ _ _ _ H) as (w & Ew & Ep).
  rewrite (consumed_app _ _ _ Ew) in Hc, Hl.
  destruct w as [|c ws]; [simpl in Hl; lia|].
  exists c, ws. repeat split; auto.
  - apply Hc; [|exact H]. simpl. auto.
  - apply Hg; [|exact H]. simpl. auto.
Qed.

Lemma ms_blank_complete (ic : bool) (c : ascii) (ws t : str) (st : cursor) :
  rest st = (c :: ws) ++ t -> forallb is_space (c :: ws) = true ->
  In (mk_cursor (last_of (prev st) (c :: ws)) t (caps st)) (ms ic blank st).
Proof.
  intros Es Hs. simpl in Hs. apply andb_true_iff in Hs as [Hc Hs].
  unfold blank, Plus. rewrite ms_seq. apply in_flat_map.
  exists (mk_cursor (Some c) (ws ++ t) (caps st)). split.
  - cbn [ms]. rewrite Es. cbn [app atom_match]. rewrite Hc. now left.
  - cbn [ms rest].
    apply (star_blank ic ws _ (mk_cursor (Some c) (ws ++ t) (caps st)) t Hs eq_refl).
    rewrite length_app. lia.
Qed.

(** The ways the first date pattern matches at a place. *)
Lemma ms_re1 (p : option ascii) (s : str) (st' : cursor) :
  In st' (ms true re1 (mk_cursor p s [])) <->
  exists w c ws y t,
    s = w ++ (c :: ws) ++ y ++ t
    /\ month_key (lower w) = true
    /\ forallb is_space (c :: ws) = true
    /\ digits_at 4 (y ++ t) = Some (y, t)
    /\ free_before p = true /\ free_after t = true
    /\ st' = mk_cursor (last_of (last_of (last_of p w) (c :: ws)) y) t
                       [(2, y); (1, w)].
Proof.
  rewrite re1_shape, ms_seq, ms_boundary. split.
  - intros H.
    destruct (at_boundary (mk_cursor p s [])) eqn:Eb; [|contradiction].
    cbn [flat_map] in H. rewrite app_nil_r, ms_seq in H.
    apply in_flat_map in H as (m1 & H1 & H).
    rewrite ms_group in H1. apply in_map_iff in H1 as (m0 & <- & H0).
    pose proof (word_group month_key month_choice _ _
                  ltac:(rewrite month_choice_words; exact month_keys) H0) as Hk.
    pose proof (ms_no_groups _ _ _ _ month_choice_flat H0) as Hc0.
    destruct (ms_moves _ _ _ _ H0) as (w & Ew & Ep0).
    rewrite (consumed_app _ _ _ Ew) in Hk.
    unfold close_group in H. rewrite (consumed_app _ _ _ Ew) in H.
    cbn [rest prev caps] in Ew, Ep0, Hc0. rewrite Ep0, Hc0 in H.
    rewrite ms_seq in H. apply in_flat_map in H as (m2 & H2 & H).
    apply ms_blank in H2 as (c & ws & Ews & Hs & Ep2 & Hc2).
    cbn [rest prev caps] in Ews, Ep2, Hc2.
    rewrite (ms_digits_end true 2 _ 4) in H
      by (intros; apply ms_four_digits || lia).
    destruct (digits_at 4 (rest m2)) as [[y t]|] eqn:Ed; [|contradiction].
    destruct (free_after t) eqn:Ea; [|contradiction].
    destruct H as [<-|[]].
    destruct (digits_at_spec _ _ _ _ Ed) as (Et & _ & _).
    exists w, c, ws, y, t. rewrite Ew, Ews, Et, Ep2, Hc2.
    rewrite <- Et. repeat split; auto.
    destruct (month_key_spec _ Hk) as (_ & _ & x & w' & Ex & Hx).
    destruct w as [|x0 w0]; [discriminate|]. simpl in Ex. injection Ex as Ex _.
    rewrite Ew in Eb. cbn [app] in Eb.
    rewrite free_before_boundary in Eb; [exact Eb|].
    (* the first character of a month name is a letter in either case *)
    revert Hx. rewrite <- Ex. clear.
    destruct x0 as [[] [] [] [] [] [] [] []]; vm_compute; congruence.
  - intros (w & c & ws & y & t & -> & Hk & Hs & Ed & Hb & Ha & ->).
    destruct (month_key_spec _ Hk) as (_ & _ & x & w' & Ex & Hx).
    destruct w as [|x0 w0]; [discriminate|]. simpl in Ex. injection Ex as Ex _.
    cbn [app]. rewrite free_before_boundary, Hb.
    2: { revert Hx. rewrite <- Ex. clear.
         destruct x0 as [[] [] [] [] [] [] [] []]; vm_compute; congruence. }
    cbn [flat_map]. rewrite app_nil_r, ms_seq. apply in_flat_map.
    set (st0 := mk_cursor p (x0 :: w0 ++ (c :: ws) ++ y ++ t) []).
    set (m0 := mk_cursor (last_of p (x0 :: w0)) ((c :: ws) ++ y ++ t) []).
    exists (close_group 1 st0 m0). split.
    + rewrite ms_group. apply in_map.
      apply (ms_words_complete month_choice _ month_choice_words month_choice_flat
                               (x0 :: w0) ((c :: ws) ++ y ++ t) st0 eq_refl).
      destruct (month_key_spec _ Hk) as ((m & Hm & _) & _).
      rewrite month_of_find in Hm. apply dict_find_In_key. congruence.
    + unfold close_group.
      rewrite (consumed_app st0 m0 (x0 :: w0) eq_refl). cbn [prev rest caps].
      rewrite ms_seq. apply in_flat_map.
      eexists. split.
      * apply (ms_blank_complete true c ws (y ++ t)); [reflexivity | exact Hs].
      * rewrite (ms_digits_end true 2 _ 4)
          by (intros; apply ms_four_digits || lia).
        cbn [rest prev caps]. rewrite Ed, Ha. now left.
Qed.

Lemma flat_map_single {A B : Type} (h : A -> B) (l : list A) :
  flat_map (fun x => [h x]) l = map h l.
Proof. induction l as [|x l IH]; [reflexivity|]. simpl. now rewrite IH. Qed.

Lemma month_pairs_found (text : str) :
  lowered text -> DateLoops.loop1 text = DateWords.category_a text.
Proof.
  intros Hlow.
  unfold DateLoops.loop1, DateWords.category_a, month_year_pairs.
  rewrite (matches_of_compiled _ _ _ _ compile_pattern1).
  rewrite <- flat_map_single.
  apply (scan_tokens true re1 (Z * Z)%type month_year_at month_year_filter
                     (fun ym => [for_month ym]) lowered);
    auto using fuel_enough.
  - intros w s H. now apply lowered_app in H.
  - intros p s tok n _ H. unfold month_year_at in H.
    destruct (span (fun c => negb (is_space c)) s) as [w t1] eqn:E1.
    destruct (span is_space t1) as [bl t2] eqn:E2.
    destruct (month_of w) as [m|] eqn:Em; [|discriminate].
    destruct bl as [|c ws]; [discriminate|].
    destruct (digits_at 4 t2) as [[y t3]|] eqn:Ed; [|discriminate].
    destruct (free_before p) eqn:Eb; [|discriminate].
    destruct (free_after t3) eqn:Ea; [|discriminate].
    destruct (span_spec _ _ _ _ E1) as (-> & _ & _).
    destruct (span_spec _ _ _ _ E2) as (-> & Hs & _).
    destruct (digits_at_spec _ _ _ _ Ed) as (-> & _ & _).
    destruct (month_of_key _ _ Em) as [Hk El].
    intros Enil.
    assert (Hin : In (mk_cursor (last_of (last_of (last_of p w) (c :: ws)) y) t3
                                [(2, y); (1, w)])
                     (ms true re1 (mk_cursor p (w ++ (c :: ws) ++ y ++ t3) []))).
    { apply ms_re1. exists w, c, ws, y, t3. rewrite El. repeat split; auto. }
    rewrite Enil in Hin. contradiction.
  - intros p s st' Hl H.
    apply ms_re1 in H as (w & c & ws & y & t & -> & Hk & Hs & Ed & Hb & Ha & ->).
    apply lowered_app in Hl as [Hw _]. rewrite (lower_lowered _ Hw) in Hk.
    destruct (month_key_spec _ Hk) as ((m & Hm & Hn) & Hns & _).
    destruct (digits_at_spec _ _ _ _ Ed) as (_ & Hy & Hd).
    exists (value y, m), (length w + length (c :: ws) + 4).
    split; [|split; [lia|split]].
    + unfold month_year_at.
      rewrite (span_app _ w ((c :: ws) ++ y ++ t) Hns).
      2: { simpl in Hs. apply andb_true_iff in Hs as [Hc _].
           cbn [app]. now rewrite Hc. }
      rewrite (span_app _ (c :: ws) (y ++ t) Hs).
      2: { destruct y as [|a y]; [discriminate|]. cbn [app].
           simpl in Hd. apply andb_true_iff in Hd as [Hd _].
           now apply digit_no_space. }
      now rewrite Hm, Ed, Hb, Ha.
    + cbn [rest]. rewrite !length_app. lia.
    + intros a txt. unfold month_year_filter, group_text.
      cbn [m_caps caps lookup Nat.eqb].
      rewrite (lower_lowered _ Hw), Hn. reflexivity.
Qed.

(** The loops of [extract_dates] take the tokens the specification speaks
    of, and nothing else. *)
Lemma dates_words (prompt : str) : DateLoops.dates prompt = DateWords.dates prompt.
Proof.
  unfold DateLoops.dates, DateWords.dates.
  rewrite (month_pairs_found _ (lower_is_lowered prompt)).
  now rewrite iso_tokens_found, bare_numbers_found.
Qed.

Lemma extract_dates_words (prompt : str) :
  extract_dates prompt = Ok (DateWords.dates prompt).
Proof. rewrite extract_dates_spec. now rewrite dates_words. Qed.

End TokenFacts.

(* ================================================================== *)
(** * The parser and the matcher against their specification *)

Module Claims.
Import Re ReFacts PromptParser DateLoops ParserFacts PatternMatcher MatcherSpec Samples
       DictFacts MatcherFacts.

(** ** Parsing *)

Lemma fold_left_snoc {A B : Type} (f : A -> B) (xs : list A) (acc : list B) :
  fold_left (fun acc x => acc ++ [f x]) xs acc = acc ++ map f xs.
Proof.
  revert acc. induction xs as [|x xs IH]; intros acc; simpl.
  - now rewrite app_nil_r.
  - rewrite IH. now rewrite <- app_assoc.
Qed.

(** [parse] never raises: it builds one spec per extracted name. *)
Lemma parse_specs (prompt : str) :
  exists names,
    extract_album_names prompt = Ok names
    /\ parse prompt =
       Ok (map (fun n => mk_AlbumSpec n (extract_keywords n)
                                      (hd_error (dates prompt)) prompt)
               names).
Proof.
  destruct (extract_album_names_total prompt) as [names E].
  exists names. split; [exact E|].
  unfold parse. rewrite E, extract_dates_spec. cbn [bind].
  now rewrite fold_left_snoc.
Qed.

Lemma parse_no_names (prompt : str) :
  extract_album_names prompt = Ok [] -> parse prompt = Ok [].
Proof.
  intros E. destruct (parse_specs prompt) as (names & E' & ->).
  rewrite E in E'. now injection E' as <-.
Qed.

Lemma month_values :
  forallb (fun kv => in_range 1 12 (snd kv)) MONTH_NAMES = true.
Proof. reflexivity. Qed.

Lemma dates_constrain (prompt : str) (f : DateFilter) :
  In f (dates prompt) -> constrains f.
Proof.
  unfold dates. set (text := lower prompt).
  assert (Ha : forall f, In f (loop1 text) -> constrains f).
  { unfold loop1. intros g Hg. apply in_flat_map in Hg as (m & Hm & Hg).
    rewrite (matches_of_compiled _ _ _ _ compile_pattern1) in Hm.
    destruct (scan_group true group1_spec re1 1 _ _ _ _ _ m re1_groups
                         eq_refl (Nat.neq_succ_0 0) Hm) as (g1 & _ & T1 & P1).
    destruct Hg as [<-|[]]. split; [simpl; eauto|]. right. simpl.
    rewrite T1. simpl in P1. unfold is_month_key in P1. unfold month_number.
    destruct (dict_find (lower g1) MONTH_NAMES) as [v|] eqn:Ev; [|discriminate].
    apply dict_find_In in Ev. pose proof month_values as Hv.
    rewrite forallb_forall in Hv. specialize (Hv _ Ev). simpl in Hv.
    unfold in_range in Hv. apply andb_true_iff in Hv as [H1 H2].
    apply Z.leb_le in H1. apply negb_true_iff. apply Z.eqb_neq. lia. }
  assert (Hb : forall f, In f (loop2 text) -> constrains f).
  { unfold loop2. intros g Hg. apply in_flat_map in Hg as (m & Hm & Hg).
    unfold iso_filter in Hg.
    destruct (in_range 1 12 (number (group_text m 2))) eqn:Er; [|contradiction].
    destruct Hg as [<-|[]]. split; [simpl; eauto|]. right. simpl.
    unfold in_range in Er. apply andb_true_iff in Er as [H1 H2].
    apply Z.leb_le in H1. apply negb_true_iff. apply Z.eqb_neq. lia. }
  assert (Hc : forall f, In f (loop3 text) -> constrains f).
  { unfold loop3. intros g Hg. apply in_flat_map in Hg as (m & Hm & Hg).
    unfold year_filter in Hg.
    destruct (in_range 2000 2100 (number (group_text m 1))) eqn:Er; [|contradiction].
    destruct Hg as [<-|[]]. split; [simpl; eauto|]. left. simpl.
    unfold in_range in Er. apply andb_true_iff in Er as [H1 H2].
    apply Z.leb_le in H1. apply negb_true_iff. apply Z.eqb_neq. lia. }
  destruct (loop1 text ++ loop2 text) as [|d ds] eqn:E.
  - apply Hc.
  - rewrite <- E. intros Hin. apply in_app_or in Hin as [Hin|Hin]; auto.
Qed.

(** C5. Date extraction precedence: [extract_dates] never raises.  It
    returns a filter for every month-year pair of the lower-cased prompt (a
    month name of the table, white space, a 4-digit year), followed by a
    filter for every YYYY-MM token whose month is 1..12, each category left
    to right; the bare 4-digit numbers in 2000..2100 give the result only
    when those two categories are both empty.  The pairs, tokens and
    numbers are those of [DateWords], which reads the text character by
    character and knows nothing of the patterns of the code.  The matches
    of a pattern come left to right without overlap.  "Photos from March
    2024 and also 2023" gives the single filter year 2024, month 3. *)
Theorem C5_date_extraction_precedence :
  (forall prompt,
      extract_dates prompt =
      Ok (match DateWords.category_a (lower prompt)
                ++ DateWords.category_b (lower prompt) with
          | [] => DateWords.category_c (lower prompt)
          | found => found
          end))
  /\ (forall pattern text ic, StronglySorted precedes (matches_of pattern text ic))
  /\ extract_dates (lit "Photos from March 2024 and also 2023") = Ok [in_month 2024 3].
Proof.
  split; [|split].
  - intros prompt. apply TokenFacts.extract_dates_words.
  - intros pattern text ic. unfold matches_of, finditer.
    destruct (compile pattern) as [r|e]; cbn [bind]; [apply scan_sorted | constructor].
  - vm_compute. reflexivity.
Qed.

(** C6. Uniform first-date attachment: [parse] never raises; it returns one
    spec per extracted album name, each carrying the first filter of
    [extract_dates], and none carries a filter when [extract_dates] found
    nothing.  "Sort by NCC events, college fests in March 2024" gives two
    specs, both with year 2024 and month 3. *)
Theorem C6_uniform_first_date :
  (forall prompt,
      exists names found specs,
        extract_album_names prompt = Ok names
        /\ extract_dates prompt = Ok found
        /\ parse prompt = Ok specs
        /\ map name specs = names
        /\ (forall spec, In spec specs -> date_filter spec = hd_error found)
        /\ (found = [] -> forall spec, In spec specs -> date_filter spec = None))
  /\ (exists s1 s2,
        parse (lit "Sort by NCC events, college fests in March 2024") = Ok [s1; s2]
        /\ date_filter s1 = Some (in_month 2024 3)
        /\ date_filter s2 = Some (in_month 2024 3)).
Proof.
  split.
  - intros prompt. destruct (parse_specs prompt) as (names & En & Ep).
    exists names, (dates prompt). eexists. split; [exact En|].
    split; [apply extract_dates_spec|]. split; [exact Ep|].
    assert (Hall : forall spec,
               In spec (map (fun n => mk_AlbumSpec n (extract_keywords n)
                                                   (hd_error (dates prompt)) prompt)
                            names) ->
               date_filter spec = hd_error (dates prompt)).
    { intros spec Hin. apply in_map_iff in Hin as (n & <- & _). reflexivity. }
    split; [|split].
    + rewrite map_map. simpl. apply map_id.
    + exact Hall.
    + intros E spec Hin. rewrite (Hall spec Hin), E. reflexivity.
  - eexists. eexists. split; [vm_compute; reflexivity|]. split; reflexivity.
Qed.

(** C7 (the code at the failing input).  The prompt "2024-03" holds a date
    token and nothing else, yet [parse] returns a spec named "-03": the pass
    that removes bare years runs before the pass that removes YYYY-MM tokens
    and takes the year out of the token.  A prompt made of a month name and
    a year leaves no name. *)
Theorem C7_iso_date_token_leaves_a_name :
  parse (lit "2024-03") =
  Ok [mk_AlbumSpec (lit "-03") [lit "-03"] (Some (in_month 2024 3)) (lit "2024-03")]
  /\ parse (lit "Create albums for March 2024") = Ok [].
Proof. split; vm_compute; reflexivity. Qed.

(** C9. Non-vacuous filters: every filter [parse] attaches to a spec has
    its year set, is not the all-unset filter, and has a year or a month
    that [match_date] tests. *)
Theorem C9_attached_filter_not_vacuous
        (prompt : str) (specs : list AlbumSpec) (spec : AlbumSpec) (f : DateFilter) :
  parse prompt = Ok specs -> In spec specs -> date_filter spec = Some f ->
  (exists y, year f = Some y)
  /\ f <> mk_DateFilter None None None None
  /\ (truthy_int (year f) = true \/ truthy_int (month f) = true).
Proof.
  intros Hp Hin Hf. destruct (parse_specs prompt) as (names & _ & Ep).
  rewrite Ep in Hp. injection Hp as <-.
  apply in_map_iff in Hin as (n & <- & _). simpl in Hf.
  assert (Hd : In f (dates prompt)).
  { destruct (dates prompt) as [|d ds]; [discriminate|].
    injection Hf as ->. now left. }
  destruct (dates_constrain _ _ Hd) as [[y Hy] Hc].
  split; [eauto|]. split; [|exact Hc].
  intros ->. discriminate.
Qed.

Lemma C9_attached_filter_not_vacuous_witness :
  (exists y, year (in_month 2024 3) = Some y)
  /\ in_month 2024 3 <> mk_DateFilter None None None None
  /\ (truthy_int (year (in_month 2024 3)) = true
      \/ truthy_int (month (in_month 2024 3)) = true).
Proof.
  apply (C9_attached_filter_not_vacuous
           (lit "Sort by NCC events, college fests in March 2024")
           [mk_AlbumSpec (lit "Ncc Events") (map lit ["ncc events"; "ncc"; "events"]%string)
                         (Some (in_month 2024 3))
                         (lit "Sort by NCC events, college fests in March 2024");
            mk_AlbumSpec (lit "College Fests In")
                         (map lit ["college fests in"; "college"; "fests"]%string)
                         (Some (in_month 2024 3))
                         (lit "Sort by NCC events, college fests in March 2024")]
           (mk_AlbumSpec (lit "Ncc Events") (map lit ["ncc events"; "ncc"; "events"]%string)
                         (Some (in_month 2024 3))
                         (lit "Sort by NCC events, college fests in March 2024"))).
  - vm_compute. reflexivity.
  - left. reflexivity.
  - reflexivity.
Defined.

(** ** Matching *)

(** C2. Date-keyword precedence: for a spec that has a date filter,
    [_matches_spec] is true exactly when a keyword matches the file name or
    the folder name; a keyword match with a failing date still matches, and
    a passing date without a keyword match does not. *)
Theorem C2_date_keyword_precedence
        (x : PhotoMetadata) (spec : AlbumSpec) (f : DateFilter) :
  date_filter spec = Some f ->
  (_matches_spec x spec = Ok true <-> keyword_match x (keywords spec) = Ok true)
  /\ (keyword_match x (keywords spec) = Ok true -> match_date x f = false ->
      _matches_spec x spec = Ok true)
  /\ (keyword_match x (keywords spec) = Ok false -> match_date x f = true ->
      _matches_spec x spec = Ok false).
Proof.
  intros _. rewrite matches_spec_keyword. repeat split; auto.
Qed.

(** "vacation.jpg" dated 2023 against keyword "vacation" and year 2024. *)
Lemma C2_date_keyword_precedence_witness :
  let x := photo "vacation.jpg" "camera" (Some (day 2023 7 1)) None in
  let spec := spec_of "Vacation" ["vacation"]%string (Some (in_year 2024)) in
  (_matches_spec x spec = Ok true <-> keyword_match x (keywords spec) = Ok true)
  /\ (keyword_match x (keywords spec) = Ok true ->
      match_date x (in_year 2024) = false -> _matches_spec x spec = Ok true)
  /\ (keyword_match x (keywords spec) = Ok false ->
      match_date x (in_year 2024) = true -> _matches_spec x spec = Ok false).
Proof.
  apply (C2_date_keyword_precedence
           (photo "vacation.jpg" "camera" (Some (day 2023 7 1)) None)
           (spec_of "Vacation" ["vacation"]%string (Some (in_year 2024)))
           (in_year 2024)).
  reflexivity.
Defined.

(** The two photos of the specification's test. *)
Lemma date_keyword_examples :
  let spec := spec_of "Vacation" ["vacation"]%string (Some (in_year 2024)) in
  let old := photo "vacation.jpg" "camera" (Some (day 2023 7 1)) None in
  let other := photo "random.jpg" "camera" (Some (day 2024 7 1)) None in
  match_date old (in_year 2024) = false /\ _matches_spec old spec = Ok true
  /\ match_date other (in_year 2024) = true /\ _matches_spec other spec = Ok false.
Proof. vm_compute. auto. Qed.

(** C8. Missing dates: a photo with neither an EXIF date nor a creation
    time fails every date filter, [match_date] being a total function; the
    date adds no failure: a spec gives on such a photo exactly what its
    keywords give, which is what it gives on any photo of the same file
    and folder name, dated or not; and [match] returns a partition for it
    whenever the wildcard keywords are regular expressions. *)
Theorem C8_missing_date_is_no_match (x : PhotoMetadata) :
  exif_date x = None -> file_created x = None ->
  (forall f, match_date x f = false)
  /\ (forall spec, _matches_spec x spec = keyword_match x (keywords spec))
  /\ (forall spec x',
        filename x' = filename x -> folder_name x' = folder_name x ->
        _matches_spec x spec = _matches_spec x' spec)
  /\ (forall album_specs,
        specs_compile album_specs ->
        exists r, match_ album_specs [x] = Ok r /\ partitions r [x]).
Proof.
  intros He Hc. split; [|split; [|split]].
  - intros f. unfold match_date. now rewrite He, Hc.
  - intros spec. apply matches_spec_keyword.
  - intros spec x' Hf Hd. rewrite !matches_spec_keyword.
    unfold keyword_match, match_filename, match_folder. now rewrite Hf, Hd.
  - intros album_specs H. destruct (match_total album_specs [x] H) as [r E].
    exists r. split; [exact E | now apply match_partition with (album_specs := album_specs)].
Qed.

Lemma C8_missing_date_is_no_match_witness :
  let x := photo "vacation.jpg" "camera" None None in
  (forall f, match_date x f = false)
  /\ (forall spec, _matches_spec x spec = keyword_match x (keywords spec))
  /\ (forall spec x',
        filename x' = filename x -> folder_name x' = folder_name x ->
        _matches_spec x spec = _matches_spec x' spec)
  /\ (forall album_specs,
        specs_compile album_specs ->
        exists r, match_ album_specs [x] = Ok r /\ partitions r [x]).
Proof.
  apply (C8_missing_date_is_no_match (photo "vacation.jpg" "camera" None None));
    reflexivity.
Defined.

(** C10. Empty album name: when the first spec that matches a photo has the
    empty name, the loop body appends the photo to [unmatched] and leaves
    the buckets as they are; in every result of [match] the photo is in
    [unmatched] and in no bucket. *)
Theorem C10_empty_name_goes_unmatched
        (before after : list AlbumSpec) (spec : AlbumSpec) (x : PhotoMetadata) :
  (forall s, In s before -> _matches_spec x s = Ok false) ->
  _matches_spec x spec = Ok true ->
  name spec = [] ->
  (forall m u, place (before ++ spec :: after) (m, u) x = Ok (m, u ++ [x]))
  /\ (forall photos r,
        match_ (before ++ spec :: after) photos = Ok r -> In x photos ->
        In x (unmatched r)
        /\ (forall n bucket, In (n, bucket) (matched r) -> ~ In x bucket)).
Proof.
  intros Hb Hs Hn.
  pose proof (first_match_split x before after spec Hb Hs) as Ef.
  rewrite Hn in Ef. split.
  - intros m u. unfold place. rewrite Ef. reflexivity.
  - intros photos r Hm Hx.
    apply (match_places _ _ _ x None Hm Hx).
    unfold bucket_of. rewrite Ef. reflexivity.
Qed.

Lemma C10_empty_name_goes_unmatched_witness :
  let spec := spec_of "" ["beach"]%string None in
  let later := spec_of "Beach" ["beach"]%string None in
  let x := photo "beach_01.jpg" "camera" None None in
  (forall m u, place ([] ++ spec :: [later]) (m, u) x = Ok (m, u ++ [x]))
  /\ (forall photos r,
        match_ ([] ++ spec :: [later]) photos = Ok r -> In x photos ->
        In x (unmatched r)
        /\ (forall n bucket, In (n, bucket) (matched r) -> ~ In x bucket)).
Proof.
  apply (C10_empty_name_goes_unmatched
           [] [spec_of "Beach" ["beach"]%string None] (spec_of "" ["beach"]%string None)
           (photo "beach_01.jpg" "camera" None None)).
  - intros s [].
  - reflexivity.
  - reflexivity.
Defined.

(** C1 (the code at the failing input).  The keyword "(*" becomes the
    pattern "^(.*", which is not a regular expression: [match] raises
    [re.error] and returns no result.  The prompt "(*" makes the parser
    build exactly that spec. *)
Theorem C1_match_raises_on_malformed_wildcard :
  parse (lit "(*") = Ok [mk_AlbumSpec (lit "(*") [lit "(*"] None (lit "(*")]
  /\ match_ [mk_AlbumSpec (lit "(*") [lit "(*"] None (lit "(*")]
            [photo "beach_01.jpg" "camera" None None]
     = Fail ReError.
Proof. split; vm_compute; reflexivity. Qed.


(** C4 (the code at the failing input).  The keyword "img*.jpg" is made
    the pattern "^img.*.jpg" without escaping its dot, so it matches the
    file name "img_01_jpg", which does not hold ".jpg".  The examples of
    the specification come out as it says, and a keyword without [*] is a
    case-blind substring test. *)
Theorem C4_wildcard_dot_not_escaped :
  match_filename (photo "img_01_jpg" "camera" None None) [lit "img*.jpg"] = Ok true
  /\ KeywordSpec.matches (lit "img*.jpg") (lit "img_01_jpg") = false
  /\ match_filename (photo "NCC_parade_001.jpg" "camera" None None) [lit "NCC*"] = Ok true
  /\ match_filename (photo "my_NCC_photo.jpg" "camera" None None) [lit "NCC*"] = Ok false
  /\ (forall x keyword,
        has_char "*" keyword = false ->
        match_filename x [keyword] = Ok (KeywordSpec.matches keyword (filename x))
        /\ match_folder x [keyword] = Ok (KeywordSpec.matches keyword (folder_name x))).
Proof.
  repeat (split; [vm_compute; reflexivity|]).
  intros x keyword H. unfold match_filename, match_folder, KeywordSpec.matches.
  cbn [match_keywords]. rewrite H. unfold KeywordSpec.substring.
  split.
  - destruct (contains (lower keyword) (lower (filename x))); reflexivity.
  - destruct (contains (lower keyword) (lower (folder_name x))); reflexivity.
Qed.

(** ** Further properties *)

(** X1. Every result of [match] partitions the photos and carries the
    bucket sizes as its statistics; [match] returns whenever every keyword
    either has no [*] or holds, besides [*], no character that means
    something to a regular expression. *)
Theorem match_result_partitions
        (album_specs : list AlbumSpec) (photos : list PhotoMetadata) :
  (forall r,
      match_ album_specs photos = Ok r ->
      partitions r photos
      /\ match_stats r = map (fun kv => (fst kv, Z.of_nat (length (snd kv)))) (matched r))
  /\ ((forall spec, In spec album_specs ->
                    forallb KeywordSpec.tame (keywords spec) = true) ->
      exists r, match_ album_specs photos = Ok r).
Proof.
  split.
  - intros r H. split; [now apply match_partition with (album_specs := album_specs)|].
    now destruct (match_buckets _ _ _ H) as (_ & _ & _ & _ & _ & E).
  - intros Htame. apply match_total.
    intros spec keyword Hs Hk Hstar.
    specialize (Htame spec Hs). rewrite forallb_forall in Htame.
    specialize (Htame keyword Hk). unfold KeywordSpec.tame in Htame.
    rewrite Hstar in Htame. simpl in Htame.
    rewrite (WildcardFacts.compile_plain keyword Htame). eauto.
Qed.

(** X2. First-match priority: a photo whose first matching spec has a name
    that is not empty is in that spec's bucket, in no bucket of another
    name and not in [unmatched]. *)
Theorem first_match_priority
        (before after : list AlbumSpec) (spec : AlbumSpec) (x : PhotoMetadata)
        (photos : list PhotoMetadata) (r : MatchResult) :
  (forall s, In s before -> _matches_spec x s = Ok false) ->
  _matches_spec x spec = Ok true ->
  name spec <> [] ->
  match_ (before ++ spec :: after) photos = Ok r -> In x photos ->
  (exists bucket, In (name spec, bucket) (matched r) /\ In x bucket)
  /\ ~ In x (unmatched r)
  /\ (forall n bucket, In (n, bucket) (matched r) -> In x bucket -> n = name spec).
Proof.
  intros Hb Hs Hn Hm Hx.
  apply (match_places _ _ _ x (Some (name spec)) Hm Hx).
  unfold bucket_of. rewrite (first_match_split x before after spec Hb Hs).
  cbn [bind]. destruct (name spec); [contradiction | reflexivity].
Qed.

Lemma first_match_priority_witness :
  let fest := spec_of "Fest" ["fest"]%string None in
  let college := spec_of "College Fest" ["college fest"]%string None in
  let x := photo "college fest 2024.jpg" "camera" None None in
  let r := mk_MatchResult [(lit "Fest", [x]); (lit "College Fest", [])] []
                          [(lit "Fest", 1%Z); (lit "College Fest", 0%Z)] in
  (exists bucket, In (name fest, bucket) (matched r) /\ In x bucket)
  /\ ~ In x (unmatched r)
  /\ (forall n bucket, In (n, bucket) (matched r) -> In x bucket -> n = name fest).
Proof.
  apply (first_match_priority
           [] [spec_of "College Fest" ["college fest"]%string None]
           (spec_of "Fest" ["fest"]%string None)
           (photo "college fest 2024.jpg" "camera" None None)
           [photo "college fest 2024.jpg" "camera" None None]).
  - intros s [].
  - reflexivity.
  - discriminate.
  - reflexivity.
  - left. reflexivity.
Defined.

(** X3. A photo that matches no spec is in [unmatched] and in no bucket. *)
Theorem no_match_goes_unmatched
        (album_specs : list AlbumSpec) (x : PhotoMetadata)
        (photos : list PhotoMetadata) (r : MatchResult) :
  (forall s, In s album_specs -> _matches_spec x s = Ok false) ->
  match_ album_specs photos = Ok r -> In x photos ->
  In x (unmatched r)
  /\ (forall n bucket, In (n, bucket) (matched r) -> ~ In x bucket).
Proof.
  intros Hs Hm Hx.
  apply (match_places _ _ _ x None Hm Hx).
  unfold bucket_of. now rewrite (first_match_none x album_specs Hs).
Qed.

Lemma no_match_goes_unmatched_witness :
  let fest := spec_of "Fest" ["fest"]%string None in
  let x := photo "random.jpg" "camera" None None in
  let r := mk_MatchResult [(lit "Fest", [])] [x] [(lit "Fest", 0%Z)] in
  In x (unmatched r)
  /\ (forall n bucket, In (n, bucket) (matched r) -> ~ In x bucket).
Proof.
  apply (no_match_goes_unmatched
           [spec_of "Fest" ["fest"]%string None]
           (photo "random.jpg" "camera" None None)
           [photo "random.jpg" "camera" None None]).
  - intros s [<-|[]]. reflexivity.
  - reflexivity.
  - left. reflexivity.
Defined.

(** X6. A photo lands where the first matching spec sends it, and the buckets
    keep the order of the input: every result of [match] lists, under each
    spec name in the order of first appearance, the photos sent to that
    name, as a sublist of the input; [unmatched] is the sublist of the
    photos sent nowhere. *)
Theorem match_result_in_input_order
        (album_specs : list AlbumSpec) (photos : list PhotoMetadata) (r : MatchResult) :
  match_ album_specs photos = Ok r ->
  matched r =
    map (fun kv => (fst kv, filter (sent_to album_specs (fst kv)) photos))
        (empty_buckets album_specs)
  /\ unmatched r = filter (unsent album_specs) photos.
Proof.
  unfold match_. intros H. apply bind_ok in H as ([m u] & Hf & H).
  injection H as <-. simpl.
  destruct (empty_buckets_spec album_specs) as (Hnd & Hempty & _).
  destruct (foldM_place_filter _ _ _ _ _ _ Hnd Hf) as [-> ->].
  split; [|reflexivity].
  apply map_ext_in. intros [k v] Hin. simpl. now rewrite (Hempty _ _ Hin).
Qed.

Lemma match_result_in_input_order_witness :
  let fest := spec_of "Fest" ["fest"]%string None in
  let a := photo "fest_a.jpg" "camera" None None in
  let b := photo "random.jpg" "camera" None None in
  let c := photo "fest_c.jpg" "camera" None None in
  let r := mk_MatchResult [(lit "Fest", [a; c])] [b] [(lit "Fest", 2%Z)] in
  matched r =
    map (fun kv => (fst kv, filter (sent_to [fest] (fst kv)) [a; b; c]))
        (empty_buckets [fest])
  /\ unmatched r = filter (unsent [fest]) [a; b; c].
Proof.
  apply (match_result_in_input_order
           [spec_of "Fest" ["fest"]%string None]
           [photo "fest_a.jpg" "camera" None None;
            photo "random.jpg" "camera" None None;
            photo "fest_c.jpg" "camera" None None]).
  reflexivity.
Defined.

(** X5. Wildcard semantics where it holds: on keywords that have no [*] or
    whose characters other than [*] mean nothing to a regular expression,
    and on one-line file and folder names, [match_filename] and
    [match_folder] answer as the specification says: the name starts with
    the text before the [*], then any characters, then the text after it,
    case apart; without [*], the keyword occurs in the name, case apart. *)
Theorem keywords_match_as_specified
        (x : PhotoMetadata) (keywords : list str) :
  forallb KeywordSpec.tame keywords = true ->
  KeywordSpec.one_line (filename x) = true ->
  KeywordSpec.one_line (folder_name x) = true ->
  match_filename x keywords
  = Ok (existsb (fun k => KeywordSpec.matches k (filename x)) keywords)
  /\ match_folder x keywords
     = Ok (existsb (fun k => KeywordSpec.matches k (folder_name x)) keywords).
Proof.
  intros Ht Hf Hd. unfold match_filename, match_folder.
  split; now apply WildcardFacts.match_keywords_tame.
Qed.

Lemma keywords_match_as_specified_witness :
  let x := photo "NCC_parade_001.jpg" "my_NCC_photos" None None in
  match_filename x [lit "NCC*"]
  = Ok (existsb (fun k => KeywordSpec.matches k (filename x)) [lit "NCC*"])
  /\ match_folder x [lit "NCC*"]
     = Ok (existsb (fun k => KeywordSpec.matches k (folder_name x)) [lit "NCC*"]).
Proof.
  apply (keywords_match_as_specified
           (photo "NCC_parade_001.jpg" "my_NCC_photos" None None) [lit "NCC*"]);
    reflexivity.
Defined.

(** X4. [parse] never raises, and returns the empty list when no album name
    is extracted; "Create albums for vacation and work" gives the names
    Vacation and Work, each with its own lower-cased name as keyword. *)
Theorem parse_never_raises :
  (forall prompt, exists specs, parse prompt = Ok specs)
  /\ (forall prompt, extract_album_names prompt = Ok [] -> parse prompt = Ok [])
  /\ parse (lit "Create albums for vacation and work") =
     Ok [mk_AlbumSpec (lit "Vacation") [lit "vacation"] None
                      (lit "Create albums for vacation and work");
         mk_AlbumSpec (lit "Work") [lit "work"] None
                      (lit "Create albums for vacation and work")].
Proof.
  split; [|split].
  - intros prompt. destruct (parse_specs prompt) as (names & _ & E). eauto.
  - apply parse_no_names.
  - vm_compute. reflexivity.
Qed.

End Claims.

(* ================================================================== *)
(** * Further properties of the parser *)

Module StrFacts.
Import NameSpec WildcardFacts.

Lemma is_space_lower (c : ascii) : is_space (lower_char c) = is_space c.
Proof. every_char c. Qed.

Lemma is_space_upper (c : ascii) : is_space (upper_char c) = is_space c.
Proof. every_char c. Qed.

Lemma upper_char_idem (c : ascii) : upper_char (upper_char c) = upper_char c.
Proof. every_char c. Qed.

Lemma upper_char_comma (c : ascii) : Ascii.eqb (upper_char c) "," = Ascii.eqb c ",".
Proof. every_char c. Qed.

Lemma lower_char_comma (c : ascii) : Ascii.eqb (lower_char c) "," = Ascii.eqb c ",".
Proof. every_char c. Qed.

Lemma solid_app (a b : str) : solid (a ++ b) = solid a && solid b.
Proof. apply forallb_app. Qed.

Lemma solid_rev (a : str) : solid (rev a) = solid a.
Proof.
  induction a as [|c a IH]; [reflexivity|].
  simpl. rewrite solid_app, IH. simpl. rewrite andb_true_r. apply andb_comm.
Qed.

(** *** [str.split()] *)

(** Every word is a non-empty run without white space, cut out of the
    text. *)
Lemma split_ws_from_words (s : str) :
  forall cur w,
    solid cur = true -> In w (split_ws_from cur s) ->
    w <> [] /\ solid w = true /\ exists p q, rev cur ++ s = p ++ w ++ q.
Proof.
  induction s as [|c s IH]; intros cur w Hcur Hin; simpl in Hin.
  - destruct cur as [|x cur]; [contradiction|].
    destruct Hin as [<-|[]]. split; [|split].
    + simpl. intros E. apply app_eq_nil in E as [_ E]. discriminate.
    + now rewrite solid_rev.
    + exists [], []. now rewrite !app_nil_r.
  - destruct (is_space c) eqn:Ec.
    + assert (Hrest : In w (split_ws_from [] s) ->
                      w <> [] /\ solid w = true
                      /\ exists p q, rev cur ++ c :: s = p ++ w ++ q).
      { intros H. destruct (IH [] w eq_refl H) as (Hne & Hs & p & q & E).
        simpl in E. split; [exact Hne|]. split; [exact Hs|].
        exists (rev cur ++ c :: p), q. rewrite E. now rewrite <- app_assoc. }
      destruct cur as [|x cur]; [now apply Hrest|].
      destruct Hin as [<-|Hin]; [|now apply Hrest].
      split; [|split].
      * simpl. intros E. apply app_eq_nil in E as [_ E]. discriminate.
      * now rewrite solid_rev.
      * exists [], (c :: s). reflexivity.
    + assert (Hc : solid (c :: cur) = true) by (simpl; now rewrite Ec).
      destruct (IH (c :: cur) w Hc Hin) as (Hne & Hs & p & q & E).
      split; [exact Hne|]. split; [exact Hs|].
      exists p, q. rewrite <- E. simpl. now rewrite <- app_assoc.
Qed.

Lemma split_ws_words (s w : str) :
  In w (split_ws s) ->
  w <> [] /\ solid w = true /\ exists p q, s = p ++ w ++ q.
Proof. intros H. exact (split_ws_from_words s [] w eq_refl H). Qed.

Lemma split_ws_from_solid (w : str) :
  solid w = true ->
  forall cur s, split_ws_from cur (w ++ s) = split_ws_from (rev w ++ cur) s.
Proof.
  induction w as [|c w IH]; intros Hw cur s; [reflexivity|].
  simpl in Hw. apply andb_true_iff in Hw as [Hc Hw].
  apply negb_true_iff in Hc. simpl. rewrite Hc.
  rewrite (IH Hw). now rewrite <- app_assoc.
Qed.

(** Words joined by single spaces split into the same words again. *)
Lemma split_ws_join (ws : list str) :
  (forall w, In w ws -> w <> [] /\ solid w = true) ->
  split_ws (join (lit " ") ws) = ws.
Proof.
  unfold split_ws. induction ws as [|w ws IH]; intros Hws; [reflexivity|].
  destruct (Hws w (or_introl eq_refl)) as [Hne Hw].
  assert (Hrev : rev w <> []).
  { intros E. apply Hne. apply (f_equal (@rev ascii)) in E.
    now rewrite rev_involutive in E. }
  destruct ws as [|w2 ws].
  - simpl. rewrite <- (app_nil_r w) at 1.
    rewrite (split_ws_from_solid w Hw), app_nil_r. simpl.
    destruct (rev w) eqn:E; [contradiction|]. now rewrite <- E, rev_involutive.
  - change (join (lit " ") (w :: w2 :: ws))
      with (w ++ " "%char :: join (lit " ") (w2 :: ws)).
    rewrite (split_ws_from_solid w Hw), app_nil_r.
    cbn [split_ws_from is_space]. 
    replace (is_space " ") with true by reflexivity.
    destruct (rev w) eqn:E; [contradiction|]. rewrite <- E, rev_involutive.
    apply f_equal. apply IH. intros w' Hw'. apply Hws. now right.
Qed.

(** *** [str.capitalize()] *)

Lemma capitalize_idem (w : str) : capitalize (capitalize w) = capitalize w.
Proof.
  destruct w as [|c w]; [reflexivity|]. simpl.
  now rewrite upper_char_idem, lower_idem.
Qed.

Lemma solid_lower (w : str) : solid (lower w) = solid w.
Proof.
  induction w as [|c w IH]; [reflexivity|]. simpl.
  now rewrite is_space_lower, <- IH.
Qed.

Lemma solid_capitalize (w : str) : solid (capitalize w) = solid w.
Proof.
  destruct w as [|c w]; [reflexivity|]. simpl.
  rewrite is_space_upper. f_equal. apply solid_lower.
Qed.

Lemma capitalize_nil (w : str) : capitalize w = [] -> w = [].
Proof. destruct w; [reflexivity | discriminate]. Qed.

(** *** Characters a text does not hold *)

Lemma has_char_false (c : ascii) (s : str) :
  has_char c s = false <-> ~ In c s.
Proof.
  unfold has_char. split.
  - intros H Hin. apply Bool.not_true_iff_false in H. apply H.
    apply existsb_exists. exists c. split; [exact Hin | apply Ascii.eqb_refl].
  - intros H. apply Bool.not_true_iff_false. intros E.
    apply existsb_exists in E as (x & Hx & E). apply Ascii.eqb_eq in E. now subst.
Qed.

Lemma lstrip_In (c : ascii) (s : str) : In c (lstrip s) -> In c s.
Proof.
  induction s as [|x s IH]; simpl; [auto|].
  destruct (is_space x); [intros H; right; auto | auto].
Qed.

Lemma strip_In (c : ascii) (s : str) : In c (strip s) -> In c s.
Proof.
  unfold strip. intros H. apply in_rev in H. apply lstrip_In in H.
  apply in_rev in H. now apply lstrip_In.
Qed.

Lemma split_on_from_free (sep : ascii) (s : str) :
  forall cur p, ~ In sep cur -> In p (split_on_from sep cur s) -> ~ In sep p.
Proof.
  induction s as [|c s IH]; intros cur p Hcur Hin; simpl in Hin.
  - destruct Hin as [<-|[]]. intros H. apply in_rev in H. contradiction.
  - destruct (Ascii.eqb c sep) eqn:E.
    + destruct Hin as [<-|Hin].
      * intros H. apply in_rev in H. contradiction.
      * apply (IH [] p); [intros [] | exact Hin].
    + apply (IH (c :: cur) p); [|exact Hin].
      intros [->|H]; [|contradiction]. now rewrite Ascii.eqb_refl in E.
Qed.

Lemma join_In (c : ascii) (sep : str) (ws : list str) :
  In c (join sep ws) -> In c sep \/ exists w, In w ws /\ In c w.
Proof.
  induction ws as [|w ws IH]; [intros []|].
  destruct ws as [|w2 ws].
  - simpl. intros H. right. exists w. auto.
  - change (join sep (w :: w2 :: ws)) with (w ++ sep ++ join sep (w2 :: ws)).
    intros H. apply in_app_or in H as [H|H].
    + right. exists w. split; [now left | exact H].
    + apply in_app_or in H as [H|H]; [now left|].
      destruct (IH H) as [H'|(w' & Hw' & Hc)]; [now left|].
      right. exists w'. split; [now right | exact Hc].
Qed.

Lemma capitalize_In (c : ascii) (w : str) :
  In c (capitalize w) -> exists x, In x w /\ (c = upper_char x \/ c = lower_char x).
Proof.
  destruct w as [|y w]; [intros []|]. simpl. intros [<-|H].
  - exists y. auto.
  - unfold lower in H. apply in_map_iff in H as (x & <- & Hx). exists x. auto.
Qed.

End StrFacts.

(* ================================================================== *)
(** ** Album names and keywords *)

Module NameFacts.
Import Re PromptParser NameSpec StrFacts WildcardFacts ParserFacts.

(** A part of the prompt, its words capitalised and joined again. *)
Lemma add_name_In (parts : list str) :
  forall acc n,
    In n (fold_left add_name parts acc) ->
    In n acc
    \/ exists part,
         In part parts
         /\ n = join (lit " ") (map capitalize (split_ws part)) /\ n <> [].
Proof.
  induction parts as [|part parts IH]; intros acc n Hin; simpl in Hin; [now left|].
  apply IH in Hin as [Hin|(p & Hp & E & Hne)].
  - unfold add_name in Hin.
    destruct (truthy part && (0 <? length part)); [|now left].
    destruct (join (lit " ") (map capitalize (split_ws part))) eqn:E;
      cbn [truthy] in Hin; [now left|].
    apply in_app_or in Hin as [Hin|[<-|[]]]; [now left|].
    right. exists part. split; [now left|]. split; [now rewrite E | discriminate].
  - right. exists p. split; [now right | auto].
Qed.

Lemma capitalized_words (part w : str) :
  In w (map capitalize (split_ws part)) -> w <> [] /\ solid w = true.
Proof.
  intros H. apply in_map_iff in H as (v & <- & Hv).
  apply split_ws_words in Hv as (Hne & Hs & _). split.
  - intros E. apply capitalize_nil in E. contradiction.
  - now rewrite solid_capitalize.
Qed.

(** Normalising twice changes nothing. *)
Lemma normalised (part : str) :
  let n := join (lit " ") (map capitalize (split_ws part)) in
  split_ws n = map capitalize (split_ws part)
  /\ join (lit " ") (map capitalize (split_ws n)) = n.
Proof.
  intros n.
  assert (E : split_ws n = map capitalize (split_ws part)).
  { apply split_ws_join. apply capitalized_words. }
  split; [exact E|]. rewrite E, map_map.
  unfold n. f_equal. apply map_ext. intros w. apply capitalize_idem.
Qed.

Lemma normalised_comma (part : str) :
  ~ In ","%char part ->
  ~ In ","%char (join (lit " ") (map capitalize (split_ws part))).
Proof.
  intros Hpart Hin. apply join_In in Hin as [[E|[]]|(w & Hw & Hin)]; [discriminate|].
  apply in_map_iff in Hw as (v & <- & Hv).
  apply capitalize_In in Hin as (x & Hx & Hc).
  apply split_ws_words in Hv as (_ & _ & p & q & E).
  assert (Hxp : In x part).
  { rewrite E. apply in_or_app. right. apply in_or_app. now left. }
  assert (Ex : x = ","%char).
  { destruct Hc as [Hc|Hc]; apply Ascii.eqb_eq.
    - rewrite <- upper_char_comma, <- Hc. reflexivity.
    - rewrite <- lower_char_comma, <- Hc. reflexivity. }
  subst x. contradiction.
Qed.

(** The names are the normalised parts between the commas of some text. *)
Lemma names_of_parts (prompt : str) (names : list str) (n : str) :
  extract_album_names prompt = Ok names -> In n names ->
  exists part,
    ~ In ","%char part
    /\ n = join (lit " ") (map capitalize (split_ws part)) /\ n <> [].
Proof.
  unfold extract_album_names. intros H Hin.
  repeat (apply bind_ok in H as (? & _ & H)).
  injection H as <-.
  apply add_name_In in Hin as [[]|(part & Hp & E & Hne)].
  exists part. split; [|auto].
  apply in_map_iff in Hp as (piece & <- & Hpiece).
  intros Hc. apply strip_In in Hc.
  revert Hc. eapply (split_on_from_free _ _ [] piece); [intros [] | exact Hpiece].
Qed.

(** *** Keywords *)

Lemma lower_fixed (s : str) : (forall c, In c s -> lower_char c = c) -> lower s = s.
Proof.
  induction s as [|c s IH]; intros H; [reflexivity|]. simpl.
  rewrite (H c (or_introl eq_refl)). f_equal. apply IH. intros x Hx. apply H. now right.
Qed.

Lemma lower_In (c : ascii) (s : str) : In c (lower s) -> lower_char c = c.
Proof.
  unfold lower. intros H. apply in_map_iff in H as (x & <- & _).
  apply lower_char_idem.
Qed.

(** A word of lower-case text is in lower case. *)
Lemma word_of_lower (s w : str) : In w (split_ws (lower s)) -> lower w = w.
Proof.
  intros H. apply split_ws_words in H as (_ & _ & p & q & E).
  apply lower_fixed. intros c Hc. apply (lower_In c s).
  rewrite E. apply in_or_app. right. apply in_or_app. now left.
Qed.

Lemma content_word (album_name w : str) :
  In w (content_words album_name) <->
  In w (split_ws (lower album_name)) /\ mem w STOP_WORDS = false.
Proof.
  unfold content_words. rewrite filter_In.
  split; intros [H1 H2]; (split; [exact H1|]).
  - now apply negb_true_iff.
  - now apply negb_true_iff.
Qed.

Lemma mem_In (x : str) (xs : list str) : mem x xs = true <-> In x xs.
Proof.
  unfold mem. rewrite existsb_exists. split.
  - intros (y & Hy & E). apply str_eqb_eq in E. now subst.
  - intros H. exists x. split; [exact H | apply str_eqb_refl].
Qed.

Lemma keywords_In (album_name k : str) :
  In k (extract_keywords album_name) <->
  k = lower album_name \/ In k (content_words album_name).
Proof.
  unfold extract_keywords. fold (content_words album_name).
  destruct (mem (lower album_name) (content_words album_name)) eqn:E; simpl.
  - apply mem_In in E. split; [auto|]. intros [->|H]; assumption.
  - split; intros [H|H]; auto.
Qed.

(** *** Keywords without [*] *)

Lemma starts_with_iff (p s : str) :
  starts_with p s = true <-> exists q, s = p ++ q.
Proof.
  revert s. induction p as [|x p IH]; intros s; simpl.
  - split; [intros _; now exists s | reflexivity].
  - destruct s as [|y s].
    + split; [discriminate | intros [q E]; discriminate].
    + rewrite andb_true_iff, IH. split.
      * intros [E [q ->]]. apply Ascii.eqb_eq in E. subst. now exists q.
      * intros [q E]. injection E as -> ->. split; [apply Ascii.eqb_refl | now exists q].
Qed.

Lemma contains_iff (needle hay : str) :
  contains needle hay = true <-> exists p q, hay = p ++ needle ++ q.
Proof.
  induction hay as [|c hay IH]; simpl; rewrite orb_true_iff, starts_with_iff.
  - split.
    + intros [[q E]|H]; [|discriminate]. exists [], q. exact E.
    + intros (p & q & E). left. destruct p; [now exists q | discriminate].
  - rewrite IH. split.
    + intros [[q E]|(p & q & E)].
      * exists [], q. exact E.
      * exists (c :: p), q. simpl. now rewrite E.
    + intros (p & q & E). destruct p as [|x p].
      * left. now exists q.
      * right. injection E as -> E. now exists p, q.
Qed.

Lemma contains_trans (a b c : str) :
  contains a b = true -> contains b c = true -> contains a c = true.
Proof.
  rewrite !contains_iff. intros (p & q & ->) (p' & q' & ->).
  exists (p' ++ p), (q ++ q'). now rewrite <- !app_assoc.
Qed.

Lemma existsb_ext_in {A : Type} (f g : A -> bool) (l : list A) :
  (forall x, In x l -> f x = g x) -> existsb f l = existsb g l.
Proof.
  induction l as [|x l IH]; intros H; [reflexivity|]. simpl.
  rewrite (H x (or_introl eq_refl)). f_equal. apply IH. intros y Hy. apply H. now right.
Qed.

Lemma match_keywords_substring (subject_lower : str) (keywords : list str) :
  (forall k, In k keywords -> has_char "*" k = false) ->
  PatternMatcher.match_keywords subject_lower keywords
  = Ok (existsb (fun k => contains (lower k) subject_lower) keywords).
Proof.
  induction keywords as [|k ks IH]; intros H; [reflexivity|].
  cbn [PatternMatcher.match_keywords existsb].
  rewrite (H k (or_introl eq_refl)).
  destruct (contains (lower k) subject_lower); [reflexivity|].
  apply IH. intros k' Hk'. apply H. now right.
Qed.

Lemma keyword_lower (album_name k : str) :
  In k (extract_keywords album_name) -> lower k = k.
Proof.
  intros H. apply keywords_In in H as [->|H]; [apply lower_idem|].
  apply content_word in H as [H _]. now apply word_of_lower in H.
Qed.

Lemma keyword_no_star (album_name k : str) :
  has_char "*" album_name = false ->
  In k (extract_keywords album_name) -> has_char "*" k = false.
Proof.
  intros Hn Hk. apply has_char_false. apply has_char_false in Hn. intros Hin.
  assert (Hl : In "*"%char (lower album_name)).
  { apply keywords_In in Hk as [->|Hk]; [exact Hin|].
    apply content_word in Hk as [Hk _].
    apply split_ws_words in Hk as (_ & _ & p & q & ->).
    apply in_or_app. right. apply in_or_app. now left. }
  apply Hn. unfold lower in Hl. apply in_map_iff in Hl as (x & E & Hx).
  assert (x = "*"%char); [|now subst].
  apply Ascii.eqb_eq. rewrite <- lower_char_star, E. reflexivity.
Qed.

Lemma existsb_keywords (f : str -> bool) (album_name : str) :
  existsb f (extract_keywords album_name)
  = existsb f (lower album_name :: content_words album_name).
Proof.
  unfold extract_keywords. fold (content_words album_name).
  destruct (mem (lower album_name) (content_words album_name)) eqn:E;
    [|reflexivity].
  cbn [negb existsb]. apply mem_In in E.
  destruct (f (lower album_name)) eqn:Ef; [|reflexivity].
  apply existsb_exists. eauto.
Qed.

(** The keyword test of a spec built from a name without [*]. *)
Lemma match_keywords_of_name (album_name subject_lower : str) :
  has_char "*" album_name = false ->
  PatternMatcher.match_keywords subject_lower (extract_keywords album_name)
  = Ok (mentions album_name subject_lower).
Proof.
  intros Hn. rewrite match_keywords_substring
    by (intros k Hk; now apply keyword_no_star with (album_name := album_name)).
  unfold mentions. rewrite <- existsb_keywords. f_equal.
  apply existsb_ext_in. intros k Hk. now rewrite (keyword_lower _ _ Hk).
Qed.

(** A candidate that holds the whole name holds each of its words. *)
Lemma mentions_words (album_name candidate_lower : str) :
  content_words album_name <> [] ->
  mentions album_name candidate_lower
  = existsb (fun w => contains w candidate_lower) (content_words album_name).
Proof.
  intros Hne. unfold mentions. cbn [existsb].
  destruct (contains (lower album_name) candidate_lower) eqn:E; [|reflexivity].
  symmetry. apply existsb_exists.
  destruct (content_words album_name) as [|w ws] eqn:Ew; [contradiction|].
  exists w. split; [now left|].
  assert (Hw : In w (content_words album_name)) by (rewrite Ew; now left).
  apply content_word in Hw as [Hw _].
  apply split_ws_words in Hw as (_ & _ & p & q & Es).
  apply contains_trans with (b := lower album_name); [|exact E].
  apply contains_iff. now exists p, q.
Qed.

(** *** What the parser hands to the matcher *)

Lemma parsed_spec (prompt : str) (specs : list AlbumSpec) (spec : AlbumSpec) :
  parse prompt = Ok specs -> In spec specs ->
  exists names,
    extract_album_names prompt = Ok names /\ In (name spec) names
    /\ keywords spec = extract_keywords (name spec).
Proof.
  intros Hp Hin. destruct (Claims.parse_specs prompt) as (names & En & Ep).
  rewrite Ep in Hp. injection Hp as <-.
  apply in_map_iff in Hin as (n & <- & Hn). exists names. auto.
Qed.

Lemma existsb_orb {A : Type} (f g : A -> bool) (l : list A) :
  existsb f l || existsb g l = existsb (fun x => f x || g x) l.
Proof.
  induction l as [|x l IH]; [reflexivity|]. simpl. rewrite <- IH.
  destruct (f x), (g x), (existsb f l); reflexivity.
Qed.

(** X7. The keywords of an album name are its lower-cased text and each of
    its words that is not a stop word, nothing else; all of them are in
    lower case, and none is empty unless the name is: a name made of stop
    words only still has itself as a keyword. *)
Theorem keywords_of_name (album_name : str) :
  let keywords := extract_keywords album_name in
  In (lower album_name) keywords
  /\ (forall k,
        In k keywords <->
        k = lower album_name
        \/ (In k (split_ws (lower album_name)) /\ mem k STOP_WORDS = false))
  /\ (forall k, In k keywords -> lower k = k)
  /\ (album_name <> [] -> forall k, In k keywords -> k <> [])
  /\ (content_words album_name = [] -> keywords = [lower album_name]).
Proof.
  intros keywords. unfold keywords. split; [|split; [|split; [|split]]].
  - apply keywords_In. now left.
  - intros k. rewrite keywords_In, content_word. reflexivity.
  - intros k. apply keyword_lower.
  - intros Hne k Hk. apply keywords_In in Hk as [->|Hk].
    + destruct album_name; [contradiction | discriminate].
    + apply content_word in Hk as [Hk _]. now apply split_ws_words in Hk.
  - intros E. unfold extract_keywords. fold (content_words album_name).
    rewrite E. reflexivity.
Qed.

(** X8. Every album name the parser extracts is in normal form: it is not
    empty, holds no comma, and is made of capitalised words separated by
    single spaces, without white space around it (normalising it again
    gives the same name). *)
Theorem album_names_normal_form (prompt : str) (names : list str) (n : str) :
  extract_album_names prompt = Ok names -> In n names ->
  n <> []
  /\ has_char "," n = false
  /\ (forall w, In w (split_ws n) -> capitalize w = w)
  /\ join (lit " ") (split_ws n) = n.
Proof.
  intros He Hin.
  destruct (names_of_parts _ _ _ He Hin) as (part & Hc & -> & Hne).
  destruct (normalised part) as [Ew En].
  split; [exact Hne|]. split; [|split].
  - apply has_char_false. now apply normalised_comma.
  - intros w Hw. rewrite Ew in Hw. apply in_map_iff in Hw as (v & <- & _).
    apply capitalize_idem.
  - now rewrite Ew.
Qed.

Lemma album_names_normal_form_witness :
  lit "College Fests" <> []
  /\ has_char "," (lit "College Fests") = false
  /\ (forall w, In w (split_ws (lit "College Fests")) -> capitalize w = w)
  /\ join (lit " ") (split_ws (lit "College Fests")) = lit "College Fests".
Proof.
  apply (album_names_normal_form
           (lit "Create albums for NCC events, college fests")
           [lit "Ncc Events"; lit "College Fests"]).
  - vm_compute. reflexivity.
  - right. left. reflexivity.
Defined.

(** X9. What a parsed spec matches: for a spec built by [parse] whose name
    has no [*], [_matches_spec] never raises and is true exactly when the
    lower-cased file name or folder name holds the lower-cased album name
    or one of its words that is not a stop word; when the name has such a
    word, holding one of these words is all it takes. *)
Theorem parsed_spec_matches_words
        (prompt : str) (specs : list AlbumSpec) (spec : AlbumSpec) (x : PhotoMetadata) :
  parse prompt = Ok specs -> In spec specs ->
  has_char "*" (name spec) = false ->
  PatternMatcher._matches_spec x spec
  = Ok (mentions (name spec) (lower (filename x))
        || mentions (name spec) (lower (folder_name x)))
  /\ (content_words (name spec) <> [] ->
      PatternMatcher._matches_spec x spec
      = Ok (existsb (fun w => contains w (lower (filename x))
                              || contains w (lower (folder_name x)))
                    (content_words (name spec)))).
Proof.
  intros Hp Hin Hstar.
  destruct (parsed_spec _ _ _ Hp Hin) as (names & _ & _ & Ek).
  assert (E : PatternMatcher._matches_spec x spec
              = Ok (mentions (name spec) (lower (filename x))
                    || mentions (name spec) (lower (folder_name x)))).
  { rewrite MatcherFacts.matches_spec_keyword.
    unfold PatternMatcher.keyword_match, PatternMatcher.match_filename,
      PatternMatcher.match_folder.
    rewrite Ek, !(match_keywords_of_name _ _ Hstar). cbn [bind].
    now destruct (mentions (name spec) (lower (filename x))). }
  split; [exact E|].
  intros Hne. rewrite E, !(mentions_words _ _ Hne), existsb_orb. reflexivity.
Qed.

Lemma parsed_spec_matches_words_witness :
  let spec := mk_AlbumSpec (lit "College Fests")
                           (map lit ["college fests"; "college"; "fests"]%string)
                           None (lit "Create albums for college fests") in
  let x := Samples.photo "IMG_01.jpg" "College 2024" None None in
  PatternMatcher._matches_spec x spec
  = Ok (mentions (name spec) (lower (filename x))
        || mentions (name spec) (lower (folder_name x)))
  /\ (content_words (name spec) <> [] ->
      PatternMatcher._matches_spec x spec
      = Ok (existsb (fun w => contains w (lower (filename x))
                              || contains w (lower (folder_name x)))
                    (content_words (name spec)))).
Proof.
  apply (parsed_spec_matches_words
           (lit "Create albums for college fests")
           [mk_AlbumSpec (lit "College Fests")
                         (map lit ["college fests"; "college"; "fests"]%string)
                         None (lit "Create albums for college fests")]).
  - vm_compute. reflexivity.
  - left. reflexivity.
  - reflexivity.
Defined.

(** X10. First match wins for parsed specs: the specs [parse] builds have
    names that are not empty, so a photo always lands in the bucket of the
    first of them it matches, in no other bucket and not in [unmatched]. *)
Theorem parsed_first_match_wins
        (prompt : str) (before after : list AlbumSpec) (spec : AlbumSpec)
        (x : PhotoMetadata) (photos : list PhotoMetadata) (r : MatchResult) :
  parse prompt = Ok (before ++ spec :: after) ->
  (forall s, In s before -> PatternMatcher._matches_spec x s = Ok false) ->
  PatternMatcher._matches_spec x spec = Ok true ->
  PatternMatcher.match_ (before ++ spec :: after) photos = Ok r -> In x photos ->
  (exists bucket, In (name spec, bucket) (matched r) /\ In x bucket)
  /\ ~ In x (unmatched r)
  /\ (forall n bucket, In (n, bucket) (matched r) -> In x bucket -> n = name spec).
Proof.
  intros Hp Hb Hs Hm Hx.
  assert (Hin : In spec (before ++ spec :: after))
    by (apply in_or_app; right; now left).
  destruct (parsed_spec _ _ _ Hp Hin) as (names & He & Hn & _).
  destruct (names_of_parts _ _ _ He Hn) as (_ & _ & _ & Hne).
  apply (MatcherFacts.match_places _ _ _ x (Some (name spec)) Hm Hx).
  unfold MatcherSpec.bucket_of.
  rewrite (MatcherFacts.first_match_split x before after spec Hb Hs).
  cbn [bind]. destruct (name spec); [contradiction | reflexivity].
Qed.

Lemma parsed_first_match_wins_witness :
  let prompt := lit "Create albums for fest, college fest" in
  let fest := mk_AlbumSpec (lit "Fest") [lit "fest"] None prompt in
  let x := Samples.photo "college fest 2024.jpg" "camera" None None in
  let r := mk_MatchResult [(lit "Fest", [x]); (lit "College Fest", [])] []
                          [(lit "Fest", 1%Z); (lit "College Fest", 0%Z)] in
  (exists bucket, In (name fest, bucket) (matched r) /\ In x bucket)
  /\ ~ In x (unmatched r)
  /\ (forall n bucket, In (n, bucket) (matched r) -> In x bucket -> n = name fest).
Proof.
  apply (parsed_first_match_wins
           (lit "Create albums for fest, college fest")
           []
           [mk_AlbumSpec (lit "College Fest")
                         (map lit ["college fest"; "college"; "fest"]%string)
                         None (lit "Create albums for fest, college fest")]
           (mk_AlbumSpec (lit "Fest") [lit "fest"] None
                         (lit "Create albums for fest, college fest"))
           (Samples.photo "college fest 2024.jpg" "camera" None None)
           [Samples.photo "college fest 2024.jpg" "camera" None None]).
  - vm_compute. reflexivity.
  - intros s [].
  - reflexivity.
  - reflexivity.
  - left. reflexivity.
Defined.



End NameFacts.

(* ================================================================== *)
(** * Dates *)

Module DateFacts.
Import PatternMatcher Albums DateNotions.

(** *** The order of datetimes *)

Lemma lex_irrefl (a : list Z) : lex_ltb a a = false.
Proof.
  induction a as [|x a IH]; [reflexivity|]. simpl.
  rewrite Z.ltb_irrefl, Z.eqb_refl, IH. reflexivity.
Qed.

Lemma lex_trans (a : list Z) :
  forall b c, lex_ltb a b = true -> lex_ltb b c = true -> lex_ltb a c = true.
Proof.
  induction a as [|x a IH]; intros [|y b] [|z c]; simpl; try discriminate.
  intros H1 H2.
  apply orb_true_iff in H1. apply orb_true_iff in H2. apply orb_true_iff.
  destruct H1 as [H1|H1], H2 as [H2|H2].
  - left. apply Z.ltb_lt in H1, H2. apply Z.ltb_lt. lia.
  - apply andb_true_iff in H2 as [H2 _].
    left. apply Z.ltb_lt in H1. apply Z.eqb_eq in H2. apply Z.ltb_lt. lia.
  - apply andb_true_iff in H1 as [H1 _].
    left. apply Z.eqb_eq in H1. apply Z.ltb_lt in H2. apply Z.ltb_lt. lia.
  - apply andb_true_iff in H1 as [H1 H1']. apply andb_true_iff in H2 as [H2 H2'].
    right. apply Z.eqb_eq in H1, H2. subst. rewrite Z.eqb_refl. simpl.
    now apply IH with (b := b).
Qed.

Lemma lex_total (a : list Z) :
  forall b, length a = length b ->
            lex_ltb a b = false -> lex_ltb b a = false -> a = b.
Proof.
  induction a as [|x a IH]; intros [|y b] Hlen H1 H2; try discriminate;
    [reflexivity|].
  simpl in *. injection Hlen as Hlen.
  apply orb_false_iff in H1 as [H1 H1']. apply orb_false_iff in H2 as [H2 H2'].
  apply Z.ltb_ge in H1, H2. assert (x = y) by lia. subst y.
  rewrite Z.eqb_refl in H1', H2'. simpl in H1', H2'.
  f_equal. now apply IH.
Qed.

Lemma dt_fields_inj (a b : datetime) : dt_fields a = dt_fields b -> a = b.
Proof.
  destruct a, b. unfold dt_fields. simpl. intros H. injection H. intros. subst.
  reflexivity.
Qed.

Lemma dt_ltb_irrefl (a : datetime) : dt_ltb a a = false.
Proof. apply lex_irrefl. Qed.

Lemma dt_ltb_trans (a b c : datetime) :
  dt_ltb a b = true -> dt_ltb b c = true -> dt_ltb a c = true.
Proof. apply lex_trans. Qed.

Lemma dt_ltb_asym (a b : datetime) : dt_ltb a b = true -> dt_ltb b a = false.
Proof.
  intros H. destruct (dt_ltb b a) eqn:E; [|reflexivity].
  pose proof (dt_ltb_trans _ _ _ H E) as F. now rewrite dt_ltb_irrefl in F.
Qed.

Lemma dt_ltb_total (a b : datetime) :
  dt_ltb a b = false -> dt_ltb b a = false -> a = b.
Proof.
  intros H1 H2. apply dt_fields_inj. now apply lex_total.
Qed.

Lemma dt_leb_refl (a : datetime) : dt_leb a a = true.
Proof. unfold dt_leb. now rewrite dt_ltb_irrefl. Qed.

Lemma dt_leb_antisym (a b : datetime) :
  dt_leb a b = true -> dt_leb b a = true -> a = b.
Proof.
  unfold dt_leb. intros H1 H2.
  apply negb_true_iff in H1, H2. now apply dt_ltb_total.
Qed.

Lemma dt_leb_total (a b : datetime) : dt_leb a b = true \/ dt_leb b a = true.
Proof.
  unfold dt_leb. destruct (dt_ltb b a) eqn:E; [|now left].
  right. now rewrite (dt_ltb_asym _ _ E).
Qed.

Lemma dt_leb_trans (a b c : datetime) :
  dt_leb a b = true -> dt_leb b c = true -> dt_leb a c = true.
Proof.
  unfold dt_leb. intros H1 H2. apply negb_true_iff in H1, H2.
  apply negb_true_iff. destruct (dt_ltb c a) eqn:E; [|reflexivity].
  destruct (dt_ltb a b) eqn:Eab.
  - pose proof (dt_ltb_trans _ _ _ E Eab) as F. congruence.
  - pose proof (dt_ltb_total _ _ Eab H1). subst b. congruence.
Qed.

Lemma dt_ltb_leb (a b : datetime) : dt_ltb a b = true -> dt_leb a b = true.
Proof. intros H. unfold dt_leb. now rewrite (dt_ltb_asym _ _ H). Qed.

(** *** [match_date] *)

Lemma match_date_bounds (x : PhotoMetadata) (f : DateFilter) (d : datetime) :
  photo_date x = Some d -> year f = None -> month f = None ->
  match_date x f
  = match start_date f with Some s => dt_leb s d | None => true end
    && match end_date f with Some e => dt_leb d e | None => true end.
Proof.
  unfold match_date, photo_date, dt_leb. intros -> -> ->. simpl.
  destruct (start_date f) as [s|], (end_date f) as [e|]; simpl;
    try destruct (dt_ltb d s); try destruct (dt_ltb e d); reflexivity.
Qed.

Lemma match_date_true (x : PhotoMetadata) (f : DateFilter) :
  match_date x f = true ->
  exists d,
    photo_date x = Some d
    /\ (forall s, start_date f = Some s -> dt_leb s d = true)
    /\ (forall e, end_date f = Some e -> dt_leb d e = true).
Proof.
  unfold match_date, photo_date, dt_leb.
  destruct (match exif_date x with Some d => Some d | None => file_created x end)
    as [d|]; [|discriminate].
  intros H. exists d. split; [reflexivity|].
  destruct (truthy_int (year f) && negb (int_is (year f) (dt_year d)));
    [discriminate|].
  destruct (truthy_int (month f) && negb (int_is (month f) (dt_month d)));
    [discriminate|].
  destruct (start_date f) as [s|], (end_date f) as [e|];
    try destruct (dt_ltb d s) eqn:E1; try destruct (dt_ltb e d) eqn:E2;
    try discriminate; split; intros ? [= <-]; try rewrite E1; try rewrite E2;
    reflexivity.
Qed.

(** X11. Date ranges: a filter with both bounds is matched only by photos
    whose date (EXIF first, else file creation) lies between them, bounds
    included; a range whose end is before its start is matched by no
    photo; without year and month the range is all that is tested; and a
    range that starts and ends at one instant is matched by the photos of
    exactly that instant. *)
Theorem date_range_inclusive (f : DateFilter) (s e : datetime) :
  start_date f = Some s -> end_date f = Some e ->
  (forall x, match_date x f = true ->
             exists d, photo_date x = Some d
                       /\ dt_leb s d = true /\ dt_leb d e = true)
  /\ (dt_ltb e s = true -> forall x, match_date x f = false)
  /\ (year f = None -> month f = None ->
      (forall x d, photo_date x = Some d ->
                   match_date x f = dt_leb s d && dt_leb d e)
      /\ (s = e -> forall x, match_date x f = true <-> photo_date x = Some s)).
Proof.
  intros Hs He.
  assert (H1 : forall x, match_date x f = true ->
                         exists d, photo_date x = Some d
                                   /\ dt_leb s d = true /\ dt_leb d e = true).
  { intros x H. apply match_date_true in H as (d & Hd & Hlo & Hhi).
    exists d. auto. }
  split; [exact H1|]. split.
  - intros Hinv x. destruct (match_date x f) eqn:E; [|reflexivity].
    apply H1 in E as (d & _ & Hlo & Hhi).
    pose proof (dt_leb_trans _ _ _ Hlo Hhi) as F.
    unfold dt_leb in F. rewrite Hinv in F. discriminate.
  - intros Hy Hm.
    assert (H2 : forall x d, photo_date x = Some d ->
                             match_date x f = dt_leb s d && dt_leb d e).
    { intros x d Hd. rewrite (match_date_bounds x f d Hd Hy Hm), Hs, He.
      reflexivity. }
    split; [exact H2|].
    intros <- x. split.
    + intros H. apply H1 in H as (d & Hd & Hlo & Hhi).
      rewrite Hd. f_equal. now apply dt_leb_antisym.
    + intros Hd. rewrite (H2 x s Hd), dt_leb_refl. reflexivity.
Qed.

Lemma date_range_inclusive_witness :
  let s := Samples.day 2024 3 1 in
  let e := Samples.day 2024 3 31 in
  let f := mk_DateFilter None None (Some s) (Some e) in
  (forall x, match_date x f = true ->
             exists d, photo_date x = Some d
                       /\ dt_leb s d = true /\ dt_leb d e = true)
  /\ (dt_ltb e s = true -> forall x, match_date x f = false)
  /\ (year f = None -> month f = None ->
      (forall x d, photo_date x = Some d ->
                   match_date x f = dt_leb s d && dt_leb d e)
      /\ (s = e -> forall x, match_date x f = true <-> photo_date x = Some s)).
Proof.
  apply (date_range_inclusive
           (mk_DateFilter None None (Some (Samples.day 2024 3 1))
                          (Some (Samples.day 2024 3 31))));
    reflexivity.
Defined.

End DateFacts.

(* ================================================================== *)
(** * Numbers as text *)

Module FormatFacts.
Import PyFormat DateLoops ParserFacts.

Lemma digit_char_spec (d : nat) :
  d < 10 ->
  digit_value (digit_char d) = Z.of_nat d /\ is_digit (digit_char d) = true.
Proof.
  intros H. do 10 (destruct d as [|d]; [split; reflexivity|]). lia.
Qed.

Lemma number_snoc (s : str) (c : ascii) :
  number (s ++ [c]) = (10 * number s + digit_value c)%Z.
Proof. unfold number. now rewrite fold_left_app. Qed.

Lemma digits_le_spec (fuel : nat) :
  forall n, n < fuel ->
    let ds := rev (digits_le fuel n) in
    ds <> [] /\ forallb is_digit ds = true /\ number ds = Z.of_nat n.
Proof.
  induction fuel as [|fuel IH]; intros n Hn; [lia|].
  cbn [digits_le]. cbn zeta.
  assert (Hd : n mod 10 < 10) by (apply Nat.mod_upper_bound; lia).
  destruct (digit_char_spec _ Hd) as [Hv Hdig].
  cbn [rev]. split; [|split].
  - intros E. apply app_eq_nil in E as [_ E]. discriminate.
  - rewrite forallb_app. cbn [forallb]. rewrite Hdig, andb_true_r.
    destruct (n <? 10) eqn:E; [reflexivity|].
    apply Nat.ltb_ge in E.
    assert (Hq : n / 10 < fuel).
    { pose proof (Nat.div_lt n 10). lia. }
    now destruct (IH _ Hq) as (_ & H & _).
  - rewrite number_snoc, Hv.
    destruct (n <? 10) eqn:E.
    + apply Nat.ltb_lt in E. cbn [rev number fold_left].
      rewrite Nat.mod_small by exact E. unfold number. simpl. lia.
    + apply Nat.ltb_ge in E.
      assert (Hq : n / 10 < fuel).
      { pose proof (Nat.div_lt n 10). lia. }
      destruct (IH _ Hq) as (_ & _ & H). cbn zeta in H. rewrite H.
      pose proof (Nat.div_mod_eq n 10). lia.
Qed.

Lemma digits_le_length (fuel : nat) :
  forall n k, n < 10 ^ S k -> length (digits_le fuel n) <= S k.
Proof.
  induction fuel as [|fuel IH]; intros n k Hn; cbn [digits_le length]; [lia|].
  destruct (n <? 10) eqn:E; [simpl; lia|].
  apply Nat.ltb_ge in E. destruct k as [|k]; [simpl in Hn; lia|].
  specialize (IH (n / 10) k).
  assert (n / 10 < 10 ^ S k).
  { apply Nat.Div0.div_lt_upper_bound. rewrite (Nat.pow_succ_r' 10 (S k)) in Hn. lia. }
  specialize (IH H). lia.
Qed.

(** [str(n)] is made of digits, and [int] reads [n] back from it. *)
Lemma decimal_spec (n : nat) :
  decimal n <> [] /\ forallb is_digit (decimal n) = true
  /\ number (decimal n) = Z.of_nat n.
Proof. apply (digits_le_spec (S n) n). lia. Qed.

Lemma decimal_length (n k : nat) : n < 10 ^ S k -> length (decimal n) <= S k.
Proof.
  intros H. unfold decimal. rewrite length_rev. now apply digits_le_length.
Qed.

Lemma decimal_inj (n m : nat) : decimal n = decimal m -> n = m.
Proof.
  intros E. destruct (decimal_spec n) as (_ & _ & Hn).
  destruct (decimal_spec m) as (_ & _ & Hm). rewrite E in Hn. lia.
Qed.

Lemma number_zeros (k : nat) (s : str) : number (zeros k ++ s) = number s.
Proof.
  induction k as [|k IH]; [reflexivity|].
  unfold number in *. simpl. exact IH.
Qed.

Lemma zeros_digits (k : nat) : forallb is_digit (zeros k) = true.
Proof. induction k as [|k IH]; [reflexivity|]. simpl. exact IH. Qed.

(** A number that fits the width is printed on exactly that many digits. *)
Lemma format_d_spec (k : nat) (z : Z) :
  (0 <= z < 10 ^ Z.of_nat (S k))%Z ->
  length (format_d (S k) z) = S k
  /\ forallb is_digit (format_d (S k) z) = true
  /\ number (format_d (S k) z) = z.
Proof.
  intros Hz. unfold format_d.
  replace (z <? 0)%Z with false by (symmetry; apply Z.ltb_ge; lia).
  destruct (decimal_spec (Z.abs_nat z)) as (Hne & Hd & Hn).
  assert (Hlen : length (decimal (Z.abs_nat z)) <= S k).
  { apply decimal_length. apply Nat2Z.inj_lt.
    rewrite Zabs2Nat.id_abs, Z.abs_eq by lia.
    rewrite Nat2Z.inj_pow. simpl Z.of_nat at 1. lia. }
  split; [|split].
  - rewrite length_app. unfold zeros. rewrite repeat_length. lia.
  - rewrite forallb_app, zeros_digits, Hd. reflexivity.
  - rewrite number_zeros, Hn, Zabs2Nat.id_abs, Z.abs_eq; lia.
Qed.

(** *** Fixed-width numbers compare like the numbers they print *)

Lemma number_from (s : str) :
  forall acc,
    fold_left (fun acc c => (10 * acc + digit_value c)%Z) s acc
    = (acc * 10 ^ Z.of_nat (length s) + number s)%Z.
Proof.
  unfold number. induction s as [|c s IH]; intros acc.
  - simpl. lia.
  - cbn [fold_left length]. rewrite IH, (IH (10 * 0 + digit_value c)%Z).
    rewrite Nat2Z.inj_succ, Z.pow_succ_r by lia. lia.
Qed.

Lemma number_cons (c : ascii) (s : str) :
  number (c :: s) = (digit_value c * 10 ^ Z.of_nat (length s) + number s)%Z.
Proof.
  unfold number at 1. cbn [fold_left]. rewrite number_from. lia.
Qed.

Lemma digit_value_range (c : ascii) :
  is_digit c = true ->
  (0 <= digit_value c <= 9)%Z /\ digit_value c = (Z.of_nat (code c) - 48)%Z.
Proof.
  unfold is_digit, between, digit_value. intros H.
  apply andb_true_iff in H as [H1 H2].
  apply Nat.leb_le in H1, H2. lia.
Qed.

Lemma number_bound (s : str) :
  forallb is_digit s = true -> (0 <= number s < 10 ^ Z.of_nat (length s))%Z.
Proof.
  induction s as [|c s IH]; intros H.
  - unfold number. simpl. lia.
  - simpl in H. apply andb_true_iff in H as [Hc Hs].
    rewrite number_cons. specialize (IH Hs).
    destruct (digit_value_range c Hc) as [Hr _].
    cbn [length]. rewrite Nat2Z.inj_succ, Z.pow_succ_r by lia. nia.
Qed.

Lemma code_eqb (x y : ascii) : (code x =? code y) = Ascii.eqb x y.
Proof.
  destruct (Ascii.eqb x y) eqn:E.
  - apply Ascii.eqb_eq in E. subst. apply Nat.eqb_refl.
  - apply Nat.eqb_neq. intros F. apply Ascii.eqb_neq in E. apply E.
    unfold code in F. rewrite <- (ascii_nat_embedding x), <- (ascii_nat_embedding y).
    now rewrite F.
Qed.

Lemma str_ltb_digits (s : str) :
  forall t,
    length s = length t ->
    forallb is_digit s = true -> forallb is_digit t = true ->
    str_ltb s t = (number s <? number t)%Z
    /\ str_eqb s t = (number s =? number t)%Z.
Proof.
  induction s as [|x s IH]; intros [|y t] Hlen Hs Ht; try discriminate.
  - split; reflexivity.
  - injection Hlen as Hlen. simpl in Hs, Ht.
    apply andb_true_iff in Hs as [Hx Hs]. apply andb_true_iff in Ht as [Hy Ht].
    destruct (IH t Hlen Hs Ht) as [IH1 IH2].
    rewrite !number_cons. cbn [str_ltb str_eqb]. rewrite IH1, IH2, <- Hlen.
    destruct (digit_value_range x Hx) as [Rx Ex].
    destruct (digit_value_range y Hy) as [Ry Ey].
    pose proof (number_bound s Hs) as Bs.
    pose proof (number_bound t Ht) as Bt. rewrite <- Hlen in Bt.
    set (P := (10 ^ Z.of_nat (length s))%Z) in *.
    set (a := number s) in *. set (b := number t) in *.
    rewrite <- code_eqb. split.
    + destruct (code x <? code y) eqn:E1; cbn [orb].
      * apply Nat.ltb_lt in E1. symmetry. apply Z.ltb_lt. nia.
      * apply Nat.ltb_ge in E1. destruct (code x =? code y) eqn:E2; cbn [andb].
        -- apply Nat.eqb_eq in E2. replace (digit_value y) with (digit_value x) by lia.
           destruct (a <? b)%Z eqn:E3.
           ++ apply Z.ltb_lt in E3. symmetry. apply Z.ltb_lt. lia.
           ++ apply Z.ltb_ge in E3. symmetry. apply Z.ltb_ge. lia.
        -- apply Nat.eqb_neq in E2. symmetry. apply Z.ltb_ge. nia.
    + destruct (code x =? code y) eqn:E2; cbn [andb].
      * apply Nat.eqb_eq in E2. replace (digit_value y) with (digit_value x) by lia.
        destruct (a =? b)%Z eqn:E3.
        -- apply Z.eqb_eq in E3. symmetry. apply Z.eqb_eq. lia.
        -- apply Z.eqb_neq in E3. symmetry. apply Z.eqb_neq. lia.
      * apply Nat.eqb_neq in E2. symmetry. apply Z.eqb_neq. nia.
Qed.

(** Behind prefixes of one length, the rest decides only when the
    prefixes are equal. *)
Lemma str_ltb_app (a : str) :
  forall b s t,
    length a = length b ->
    str_ltb (a ++ s) (b ++ t) = str_ltb a b || (str_eqb a b && str_ltb s t).
Proof.
  induction a as [|x a IH]; intros [|y b] s t Hlen; try discriminate.
  - simpl. now destruct t.
  - injection Hlen as Hlen. cbn [app str_ltb str_eqb].
    rewrite (IH b s t Hlen), code_eqb.
    destruct (code x <? code y), (Ascii.eqb x y), (str_ltb a b), (str_eqb a b);
      reflexivity.
Qed.

End FormatFacts.

(* ================================================================== *)
(** * Album folders *)

Module FolderFacts.
Import PyFormat Albums DateNotions DateLoops ParserFacts StrFacts FormatFacts.

Lemma year_text (d : datetime) :
  valid_date d ->
  exists a b c e,
    format_d 4 (dt_year d) = [a; b; c; e]
    /\ forallb is_digit [a; b; c; e] = true
    /\ number [a; b; c; e] = dt_year d.
Proof.
  intros [Hy _].
  destruct (format_d_spec 3 (dt_year d)) as (Hl & Hd & Hn).
  { change (10 ^ Z.of_nat 4)%Z with 10000%Z. lia. }
  destruct (format_d 4 (dt_year d)) as [|a [|b [|c [|e [|x t]]]]]; try discriminate.
  exists a, b, c, e. auto.
Qed.

Lemma month_text (d : datetime) :
  valid_date d ->
  exists a b,
    format_d 2 (dt_month d) = [a; b]
    /\ forallb is_digit [a; b] = true
    /\ number [a; b] = dt_month d.
Proof.
  intros [_ Hm].
  destruct (format_d_spec 1 (dt_month d)) as (Hl & Hd & Hn).
  { change (10 ^ Z.of_nat 2)%Z with 100%Z. lia. }
  destruct (format_d 2 (dt_month d)) as [|a [|b [|x t]]]; try discriminate.
  exists a, b. auto.
Qed.

Lemma digit_not_space (c : ascii) : is_digit c = true -> c <> " "%char.
Proof. intros H ->. discriminate. Qed.

Lemma replace_space (s : str) : ~ In " "%char (replace_char " " (lit "-") s).
Proof.
  unfold replace_char. intros H. apply in_flat_map in H as (c & _ & H).
  destruct (Ascii.eqb c " ") eqn:E.
  - destruct H as [H|[]]. discriminate.
  - destruct H as [H|[]]. subst c. discriminate.
Qed.

Lemma str_ltb_dash (u v : str) :
  str_ltb (lit "-" ++ u) (lit "-" ++ v) = str_ltb u v.
Proof. reflexivity. Qed.

(** X12. The folder of an album is named [YYYY-MM-Name]: for a date
    [datetime] can hold, the name starts with the year on four digits, a
    dash, the month on two digits and a dash, and goes on with the album
    name, its spaces turned into dashes; year and month are read back from
    it, and it holds no space. *)
Theorem folder_name_layout (target_folder : Path) (album_name : str) (d : datetime) :
  valid_date d ->
  let folder := folder_name_of album_name d in
  create_folder target_folder album_name (Some d) = Ok (target_folder ++ [folder])
  /\ int_of (firstn 4 folder) = Ok (dt_year d)
  /\ nth_error folder 4 = Some "-"%char
  /\ int_of (firstn 2 (skipn 5 folder)) = Ok (dt_month d)
  /\ nth_error folder 7 = Some "-"%char
  /\ skipn 8 folder = replace_char " " (lit "-") album_name
  /\ has_char " " folder = false.
Proof.
  intros Hv folder. unfold folder, create_folder, folder_name_of.
  destruct (year_text d Hv) as (y1 & y2 & y3 & y4 & -> & Hyd & Hyn).
  destruct (month_text d Hv) as (m1 & m2 & -> & Hmd & Hmn).
  split; [reflexivity|]. cbn [app lit list_ascii_of_string firstn skipn nth_error].
  split; [|split; [reflexivity|split; [|split; [reflexivity|split; [reflexivity|]]]]].
  - rewrite <- Hyn. apply int_of_digits. split; [discriminate | exact Hyd].
  - rewrite <- Hmn. apply int_of_digits. split; [discriminate | exact Hmd].
  - apply has_char_false. cbn [forallb] in Hyd, Hmd.
    repeat match goal with
           | H : _ && _ = true |- _ => apply andb_true_iff in H as [? H]
           end.
    intros Hin. cbn [In] in Hin.
    repeat match goal with
           | H : _ \/ _ |- _ => destruct H as [H|H]
           end;
      try discriminate;
      try (subst; discriminate).
    now apply replace_space in Hin.
Qed.

Lemma folder_name_layout_witness :
  let d := Samples.day 2024 3 15 in
  let folder := folder_name_of (lit "College Fests") d in
  create_folder [lit "albums"] (lit "College Fests") (Some d)
  = Ok ([lit "albums"] ++ [folder])
  /\ int_of (firstn 4 folder) = Ok (dt_year d)
  /\ nth_error folder 4 = Some "-"%char
  /\ int_of (firstn 2 (skipn 5 folder)) = Ok (dt_month d)
  /\ nth_error folder 7 = Some "-"%char
  /\ skipn 8 folder = replace_char " " (lit "-") (lit "College Fests")
  /\ has_char " " folder = false.
Proof.
  apply (folder_name_layout [lit "albums"] (lit "College Fests")
                            (Samples.day 2024 3 15)).
  split; simpl; lia.
Defined.

(** X13. Folder names sort by date: for dates [datetime] can hold, one
    folder name is before another, as strings are compared, exactly when
    its year and month are earlier, or they are the same and its album
    name, spaces turned into dashes, is before the other. *)
Theorem folder_names_sort_by_month (n1 n2 : str) (d1 d2 : datetime) :
  valid_date d1 -> valid_date d2 ->
  str_ltb (folder_name_of n1 d1) (folder_name_of n2 d2)
  = month_ltb d1 d2
    || ((dt_year d1 =? dt_year d2)%Z && (dt_month d1 =? dt_month d2)%Z
        && str_ltb (replace_char " " (lit "-") n1) (replace_char " " (lit "-") n2)).
Proof.
  intros H1 H2. unfold folder_name_of, month_ltb.
  destruct (format_d_spec 3 (dt_year d1)) as (Ly1 & Dy1 & Ny1);
    [change (10 ^ Z.of_nat 4)%Z with 10000%Z; destruct H1; lia|].
  destruct (format_d_spec 3 (dt_year d2)) as (Ly2 & Dy2 & Ny2);
    [change (10 ^ Z.of_nat 4)%Z with 10000%Z; destruct H2; lia|].
  destruct (format_d_spec 1 (dt_month d1)) as (Lm1 & Dm1 & Nm1);
    [change (10 ^ Z.of_nat 2)%Z with 100%Z; destruct H1; lia|].
  destruct (format_d_spec 1 (dt_month d2)) as (Lm2 & Dm2 & Nm2);
    [change (10 ^ Z.of_nat 2)%Z with 100%Z; destruct H2; lia|].
  rewrite str_ltb_app by congruence.
  destruct (str_ltb_digits _ _ (eq_trans Ly1 (eq_sym Ly2)) Dy1 Dy2) as [-> ->].
  rewrite Ny1, Ny2.
  rewrite str_ltb_dash, str_ltb_app by congruence.
  destruct (str_ltb_digits _ _ (eq_trans Lm1 (eq_sym Lm2)) Dm1 Dm2) as [-> ->].
  rewrite Nm1, Nm2, str_ltb_dash.
  destruct (dt_year d1 <? dt_year d2)%Z, (dt_year d1 =? dt_year d2)%Z,
    (dt_month d1 <? dt_month d2)%Z, (dt_month d1 =? dt_month d2)%Z; reflexivity.
Qed.

Lemma folder_names_sort_by_month_witness :
  let d1 := Samples.day 2023 12 24 in
  let d2 := Samples.day 2024 3 15 in
  str_ltb (folder_name_of (lit "Winter Trip") d1) (folder_name_of (lit "College Fests") d2)
  = month_ltb d1 d2
    || ((dt_year d1 =? dt_year d2)%Z && (dt_month d1 =? dt_month d2)%Z
        && str_ltb (replace_char " " (lit "-") (lit "Winter Trip"))
                   (replace_char " " (lit "-") (lit "College Fests"))).
Proof.
  apply (folder_names_sort_by_month (lit "Winter Trip") (lit "College Fests")
                                    (Samples.day 2023 12 24) (Samples.day 2024 3 15));
    split; simpl; lia.
Defined.

End FolderFacts.

(* ================================================================== *)
(** * The date of an album *)

Module AlbumDateFacts.
Import Re ReFacts PromptParser DateLoops ParserFacts PyFormat Albums DateNotions
       FormatFacts DateFacts.

(** *** The year the parser reads has at most four digits *)

Lemma ms_max_len (ic : bool) (r : regex) :
  forall k st st',
    max_len r = Some k -> In st' (ms ic r st) -> length (consumed st st') <= k.
Proof.
  induction r as [|a| | | |r1 IH1 r2 IH2|r1 IH1 r2 IH2|r1 IH1|i r1 IH1];
    intros k st st' Hk Hin; simpl in Hk.
  - simpl in Hin. destruct Hin as [<-|[]]. rewrite consumed_refl. simpl. lia.
  - injection Hk as <-. simpl in Hin.
    destruct (rest st) as [|c t] eqn:Er; [contradiction|].
    destruct (atom_match ic a c); [|contradiction].
    destruct Hin as [<-|[]].
    rewrite (consumed_app st _ [c]); [simpl; lia | simpl; now rewrite Er].
  - simpl in Hin. destruct (at_boundary st); [|contradiction].
    destruct Hin as [<-|[]]. rewrite consumed_refl. simpl. lia.
  - simpl in Hin. destruct (prev st); [contradiction|].
    destruct Hin as [<-|[]]. rewrite consumed_refl. simpl. lia.
  - simpl in Hin. destruct (at_end st); [|contradiction].
    destruct Hin as [<-|[]]. rewrite consumed_refl. simpl. lia.
  - destruct (max_len r1) as [k1|]; [|discriminate].
    destruct (max_len r2) as [k2|]; [|discriminate]. injection Hk as <-.
    simpl in Hin. apply in_flat_map in Hin as (x & Hx & Hin).
    rewrite (consumed_trans _ _ _ _ _ _ _ Hx Hin), length_app.
    specialize (IH1 _ _ _ eq_refl Hx). specialize (IH2 _ _ _ eq_refl Hin). lia.
  - destruct (max_len r1) as [k1|]; [|discriminate].
    destruct (max_len r2) as [k2|]; [|discriminate]. injection Hk as <-.
    simpl in Hin. apply in_app_or in Hin as [Hin|Hin].
    + specialize (IH1 _ _ _ eq_refl Hin). lia.
    + specialize (IH2 _ _ _ eq_refl Hin). lia.
  - discriminate.
  - simpl in Hin. apply in_map_iff in Hin as (x & <- & Hx).
    replace (consumed st (close_group i st x)) with (consumed st x) by reflexivity.
    now apply IH1.
Qed.

Lemma re1_year :
  all_groups (fun i r => forall a b, In b (ms true r a) -> year_group 2 i (consumed a b)) re1.
Proof.
  unfold re1. cbn [all_groups]. conj_split; intros a b Hin Hi; try discriminate.
  revert Hin. apply ms_max_len. reflexivity.
Qed.

Lemma re2_year :
  all_groups (fun i r => forall a b, In b (ms false r a) -> year_group 1 i (consumed a b)) re2.
Proof.
  unfold re2. cbn [all_groups]. conj_split; intros a b Hin Hi; try discriminate.
  revert Hin. apply ms_max_len. reflexivity.
Qed.

Lemma re3_year :
  all_groups (fun i r => forall a b, In b (ms false r a) -> year_group 1 i (consumed a b)) re3.
Proof.
  unfold re3. cbn [all_groups]. conj_split; intros a b Hin Hi; try discriminate.
  revert Hin. apply ms_max_len. reflexivity.
Qed.

Lemma year_number (w : str) :
  digits w -> length w <= 4 -> (0 <= number w <= 9999)%Z.
Proof.
  intros [_ Hd] Hlen. pose proof (number_bound w Hd) as H.
  assert (10 ^ Z.of_nat (length w) <= 10 ^ 4)%Z
    by (apply Z.pow_le_mono_r; lia).
  lia.
Qed.

Lemma filter_ok_intro (y : Z) (m : option Z) :
  (0 <= y <= 9999)%Z ->
  match m with Some v => (1 <= v <= 12)%Z | None => True end ->
  filter_ok (mk_DateFilter (Some y) m None None).
Proof.
  intros Hy Hm. split; simpl.
  - intros H. apply negb_true_iff in H. apply Z.eqb_neq in H. lia.
  - destruct m as [v|]; [intros _; exact Hm | discriminate].
Qed.

(** Every filter [extract_dates] builds is one [datetime] accepts. *)
Lemma dates_ok (prompt : str) (f : DateFilter) :
  In f (dates prompt) -> filter_ok f.
Proof.
  unfold dates. set (text := lower prompt).
  assert (Ha : forall f, In f (loop1 text) -> filter_ok f).
  { unfold loop1. intros g Hg. apply in_flat_map in Hg as (m & Hm & Hg).
    rewrite (matches_of_compiled _ _ _ _ compile_pattern1) in Hm.
    destruct (scan_group true group1_spec re1 1 _ _ _ _ _ m re1_groups
                         eq_refl (Nat.neq_succ_0 0) Hm) as (g1 & _ & T1 & P1).
    destruct (scan_group true group1_spec re1 2 _ _ _ _ _ m re1_groups
                         eq_refl (Nat.neq_succ_0 1) Hm) as (g2 & _ & T2 & P2).
    destruct (scan_group true (year_group 2) re1 2 _ _ _ _ _ m re1_year
                         eq_refl (Nat.neq_succ_0 1) Hm) as (g2' & _ & T2' & L2).
    rewrite T2 in T2'. subst g2'. specialize (L2 eq_refl). simpl in P1, P2.
    destruct Hg as [<-|[]]. rewrite T1, T2.
    apply filter_ok_intro; [now apply year_number|].
    unfold is_month_key in P1. unfold month_number.
    destruct (dict_find (lower g1) MONTH_NAMES) as [v|] eqn:Ev; [|discriminate].
    apply DictFacts.dict_find_In in Ev. pose proof Claims.month_values as Hv.
    rewrite forallb_forall in Hv. specialize (Hv _ Ev). simpl in Hv.
    unfold in_range in Hv. apply andb_true_iff in Hv as [H1 H2].
    apply Z.leb_le in H1, H2. lia. }
  assert (Hb : forall f, In f (loop2 text) -> filter_ok f).
  { unfold loop2. intros g Hg. apply in_flat_map in Hg as (m & Hm & Hg).
    rewrite (matches_of_compiled _ _ _ _ compile_pattern2) in Hm.
    destruct (scan_group false group23_spec re2 1 _ _ _ _ _ m re2_groups
                         eq_refl (Nat.neq_succ_0 0) Hm) as (g1 & _ & T1 & P1).
    destruct (scan_group false (year_group 1) re2 1 _ _ _ _ _ m re2_year
                         eq_refl (Nat.neq_succ_0 0) Hm) as (g1' & _ & T1' & L1).
    rewrite T1 in T1'. subst g1'. specialize (L1 eq_refl). simpl in P1.
    unfold iso_filter in Hg.
    destruct (in_range 1 12 (number (group_text m 2))) eqn:Er; [|contradiction].
    destruct Hg as [<-|[]]. rewrite T1.
    apply filter_ok_intro; [now apply year_number|].
    unfold in_range in Er. apply andb_true_iff in Er as [H1 H2].
    apply Z.leb_le in H1, H2. lia. }
  assert (Hc : forall f, In f (loop3 text) -> filter_ok f).
  { unfold loop3. intros g Hg. apply in_flat_map in Hg as (m & Hm & Hg).
    unfold year_filter in Hg.
    destruct (in_range 2000 2100 (number (group_text m 1))) eqn:Er; [|contradiction].
    destruct Hg as [<-|[]].
    unfold in_range in Er. apply andb_true_iff in Er as [H1 H2].
    apply Z.leb_le in H1, H2.
    apply filter_ok_intro; [lia | exact I]. }
  destruct (loop1 text ++ loop2 text) as [|d ds] eqn:E.
  - apply Hc.
  - rewrite <- E. intros Hin. apply in_app_or in Hin as [Hin|Hin]; auto.
Qed.

Lemma parsed_filter_ok (prompt : str) (specs : list AlbumSpec) (spec : AlbumSpec)
      (f : DateFilter) :
  parse prompt = Ok specs -> In spec specs -> date_filter spec = Some f ->
  filter_ok f.
Proof.
  intros Hp Hin Hf. destruct (Claims.parse_specs prompt) as (names & _ & Ep).
  rewrite Ep in Hp. injection Hp as <-.
  apply in_map_iff in Hin as (n & <- & _). simpl in Hf.
  apply (dates_ok prompt).
  destruct (dates prompt) as [|d ds]; [discriminate|].
  injection Hf as ->. now left.
Qed.

(** *** [min] and [max] of the photo dates *)

Lemma min_from_spec (items : list (option datetime)) :
  forall best m,
    min_from best items = Ok m ->
    In m (best :: items)
    /\ (items <> [] -> forall x, In x (best :: items) -> x <> None)
    /\ (forall e d, m = Some e -> In (Some d) (best :: items) -> dt_leb e d = true).
Proof.
  induction items as [|x items IH]; intros best m H; simpl in H.
  - injection H as <-. split; [now left|]. split; [intros F; contradiction|].
    intros e d -> [E|[]]. injection E as ->. apply dt_leb_refl.
  - apply bind_ok in H as (b & Hb & H).
    destruct x as [xv|]; [|destruct best; discriminate].
    destruct best as [bv|]; [|discriminate].
    simpl in Hb. injection Hb as <-.
    destruct (IH _ _ H) as (Hin & Hsome & Hle).
    assert (Hkept : In (if dt_ltb xv bv then Some xv else Some bv) [Some bv; Some xv])
      by (destruct (dt_ltb xv bv); simpl; auto).
    split; [|split].
    + destruct Hin as [<-|Hin].
      * destruct Hkept as [E|[E|[]]]; rewrite <- E; simpl; auto.
      * right. now right.
    + intros _ y [<-|[<-|Hy]]; try discriminate.
      destruct items as [|z items]; [contradiction|].
      apply Hsome; [discriminate | now right].
    + intros e d -> Hd.
      assert (Hbest : exists k, (if dt_ltb xv bv then Some xv else Some bv) = Some k
                                /\ dt_leb k bv = true /\ dt_leb k xv = true).
      { destruct (dt_ltb xv bv) eqn:E.
        - exists xv. split; [reflexivity|]. split; [now apply dt_ltb_leb | apply dt_leb_refl].
        - exists bv. split; [reflexivity|]. split; [apply dt_leb_refl|].
          unfold dt_leb. now rewrite E. }
      destruct Hbest as (k & Ek & Hkb & Hkx). rewrite Ek in Hle.
      assert (Hek : dt_leb e k = true) by (apply Hle; [reflexivity | now left]).
      destruct Hd as [E|[E|Hd]].
      * injection E as <-. now apply dt_leb_trans with (b := k).
      * injection E as <-. now apply dt_leb_trans with (b := k).
      * apply Hle; [reflexivity | now right].
Qed.

Lemma max_from_spec (items : list (option datetime)) :
  forall best m,
    max_from best items = Ok m ->
    In m (best :: items)
    /\ (forall l d, m = Some l -> In (Some d) (best :: items) -> dt_leb d l = true).
Proof.
  induction items as [|x items IH]; intros best m H; simpl in H.
  - injection H as <-. split; [now left|].
    intros e d -> [E|[]]. injection E as ->. apply dt_leb_refl.
  - apply bind_ok in H as (b & Hb & H).
    destruct best as [bv|]; [|discriminate].
    destruct x as [xv|]; [|discriminate].
    simpl in Hb. injection Hb as <-.
    destruct (IH _ _ H) as (Hin & Hle).
    assert (Hkept : In (if dt_ltb bv xv then Some xv else Some bv) [Some bv; Some xv])
      by (destruct (dt_ltb bv xv); simpl; auto).
    split.
    + destruct Hin as [<-|Hin].
      * destruct Hkept as [E|[E|[]]]; rewrite <- E; simpl; auto.
      * right. now right.
    + intros l d -> Hd.
      assert (Hbest : exists k, (if dt_ltb bv xv then Some xv else Some bv) = Some k
                                /\ dt_leb bv k = true /\ dt_leb xv k = true).
      { destruct (dt_ltb bv xv) eqn:E.
        - exists xv. split; [reflexivity|]. split; [now apply dt_ltb_leb | apply dt_leb_refl].
        - exists bv. split; [reflexivity|]. split; [apply dt_leb_refl|].
          unfold dt_leb. now rewrite E. }
      destruct Hbest as (k & Ek & Hkb & Hkx). rewrite Ek in Hle.
      assert (Hkl : dt_leb k l = true) by (apply Hle; [reflexivity | now left]).
      destruct Hd as [E|[E|Hd]].
      * injection E as <-. now apply dt_leb_trans with (b := k).
      * injection E as <-. now apply dt_leb_trans with (b := k).
      * apply Hle; [reflexivity | now right].
Qed.

Lemma min_from_total (items : list (option datetime)) :
  forall best,
    (forall x, In x (Some best :: items) -> x <> None) ->
    exists e, min_from (Some best) items = Ok (Some e).
Proof.
  induction items as [|x items IH]; intros best H; simpl; [eauto|].
  destruct x as [xv|]; [|exfalso; apply (H None); simpl; auto].
  simpl. destruct (dt_ltb xv best); apply IH; intros y [<-|Hy]; try discriminate;
    apply H; simpl; auto.
Qed.

Lemma max_from_total (items : list (option datetime)) :
  forall best,
    (forall x, In x (Some best :: items) -> x <> None) ->
    exists e, max_from (Some best) items = Ok (Some e).
Proof.
  induction items as [|x items IH]; intros best H; simpl; [eauto|].
  destruct x as [xv|]; [|exfalso; apply (H None); simpl; auto].
  simpl. destruct (dt_ltb best xv); apply IH; intros y [<-|Hy]; try discriminate;
    apply H; simpl; auto.
Qed.

Lemma py_min_total (dates : list (option datetime)) :
  dates <> [] -> (forall x, In x dates -> x <> None) ->
  exists e, py_min dates = Ok (Some e).
Proof.
  intros Hne H. destruct dates as [|[d|] dates]; [contradiction| |].
  - now apply min_from_total.
  - exfalso. apply (H None); simpl; auto.
Qed.

Lemma py_max_total (dates : list (option datetime)) :
  dates <> [] -> (forall x, In x dates -> x <> None) ->
  exists e, py_max dates = Ok (Some e).
Proof.
  intros Hne H. destruct dates as [|[d|] dates]; [contradiction| |].
  - now apply max_from_total.
  - exfalso. apply (H None); simpl; auto.
Qed.

End AlbumDateFacts.

(* ================================================================== *)
(** * Album creation *)

Module CreatorFacts.
Import PromptParser PatternMatcher MatcherSpec PyFormat Albums DateNotions CreatorSpec
       DictFacts MatcherFacts DateFacts AlbumDateFacts.

Lemma first_of_month_ok (y m : Z) :
  (1 <= y <= 9999)%Z -> (1 <= m <= 12)%Z ->
  first_of_month y m = Ok (mk_datetime y m 1 0 0 0 0).
Proof.
  intros Hy Hm. unfold first_of_month, in_range.
  replace (1 <=? y)%Z with true by (symmetry; apply Z.leb_le; lia).
  replace (y <=? 9999)%Z with true by (symmetry; apply Z.leb_le; lia).
  replace (1 <=? m)%Z with true by (symmetry; apply Z.leb_le; lia).
  replace (m <=? 12)%Z with true by (symmetry; apply Z.leb_le; lia).
  reflexivity.
Qed.

(** With a year to go by, the album date is the first of a month. *)
Lemma album_date_of_filter (photos : list PhotoMetadata) (spec : AlbumSpec)
      (f : DateFilter) :
  date_filter spec = Some f -> filter_ok f -> truthy_int (year f) = true ->
  _get_album_date photos spec
  = Ok (Some (mk_datetime (number_of (year f))
                          (if truthy_int (month f) then number_of (month f) else 1)
                          1 0 0 0 0)).
Proof.
  intros Hf [Hy Hm] Ht. unfold _get_album_date. rewrite Hf, Ht.
  specialize (Hy Ht). destruct (truthy_int (month f)) eqn:Em; cbn [andb].
  - rewrite first_of_month_ok by auto. reflexivity.
  - rewrite first_of_month_ok by (auto; lia). reflexivity.
Qed.

Lemma album_date_of_photos (photos : list PhotoMetadata) (spec : AlbumSpec) :
  (forall f, date_filter spec = Some f -> truthy_int (year f) = false) ->
  _get_album_date photos spec = py_min (map photo_date photos).
Proof.
  intros H. unfold _get_album_date.
  destruct (date_filter spec) as [f|]; [|reflexivity].
  rewrite (H f eq_refl). reflexivity.
Qed.

Lemma dated (photos : list PhotoMetadata) :
  (forall p, In p photos -> photo_date p <> None) ->
  forall x, In x (map photo_date photos) -> x <> None.
Proof.
  intros H x Hx. apply in_map_iff in Hx as (p & <- & Hp). now apply H.
Qed.

Lemma album_date_total (photos : list PhotoMetadata) (spec : AlbumSpec) :
  (forall f, date_filter spec = Some f -> filter_ok f) ->
  photos <> [] -> (forall p, In p photos -> photo_date p <> None) ->
  exists d, _get_album_date photos spec = Ok (Some d).
Proof.
  intros Hok Hne Hd.
  assert (Hmin : exists d, py_min (map photo_date photos) = Ok (Some d)).
  { apply py_min_total; [|now apply dated].
    destruct photos; [contradiction | discriminate]. }
  destruct (date_filter spec) as [f|] eqn:Ef.
  - destruct (truthy_int (year f)) eqn:Ey.
    + rewrite (album_date_of_filter photos spec f Ef (Hok f eq_refl) Ey). eauto.
    + rewrite album_date_of_photos; [exact Hmin|].
      intros g Hg. rewrite Ef in Hg. now injection Hg as <-.
  - rewrite album_date_of_photos; [exact Hmin|].
    intros g Hg. rewrite Ef in Hg. discriminate.
Qed.

(** X14. The album date of a parsed spec: for a spec built by [parse],
    [_get_album_date] never hands [datetime] a year or month it rejects.
    When the spec's filter has a year that counts, the date is the first
    day of the filter's month, of January without a month, in that year;
    otherwise it is the earliest photo date.  It is always found when the
    album has photos and each of them has a date. *)
Theorem album_date_of_parsed_spec
        (prompt : str) (specs : list AlbumSpec) (spec : AlbumSpec)
        (photos : list PhotoMetadata) :
  parse prompt = Ok specs -> In spec specs ->
  (forall f, date_filter spec = Some f -> truthy_int (year f) = true ->
     exists d,
       _get_album_date photos spec = Ok (Some d)
       /\ valid_date d
       /\ year f = Some (dt_year d)
       /\ dt_month d = (if truthy_int (month f) then number_of (month f) else 1%Z)
       /\ dt_day d = 1%Z)
  /\ ((forall f, date_filter spec = Some f -> truthy_int (year f) = false) ->
      _get_album_date photos spec = py_min (map photo_date photos))
  /\ (photos <> [] -> (forall p, In p photos -> photo_date p <> None) ->
      exists d, _get_album_date photos spec = Ok (Some d)).
Proof.
  intros Hp Hin.
  assert (Hok : forall f, date_filter spec = Some f -> filter_ok f)
    by (intros f Hf; exact (parsed_filter_ok _ _ _ _ Hp Hin Hf)).
  split; [|split].
  - intros f Hf Hy. eexists. split; [apply (album_date_of_filter _ _ f Hf (Hok f Hf) Hy)|].
    destruct (Hok f Hf) as [Hyr Hmr]. specialize (Hyr Hy). simpl.
    split; [|split; [|split; reflexivity]].
    + split; simpl; [exact Hyr|].
      destruct (truthy_int (month f)) eqn:Em; [now apply Hmr | lia].
    + destruct (year f) as [y|]; [reflexivity | discriminate].
  - apply album_date_of_photos.
  - now apply album_date_total.
Qed.

Lemma album_date_of_parsed_spec_witness :
  let prompt := lit "Sort by NCC events in March 2024" in
  let spec := mk_AlbumSpec (lit "Ncc Events In")
                           (map lit ["ncc events in"; "ncc"; "events"]%string)
                           (Some (Samples.in_month 2024 3)) prompt in
  let photos := [Samples.photo "ncc_01.jpg" "camera" (Some (Samples.day 2023 7 1)) None] in
  (forall f, date_filter spec = Some f -> truthy_int (year f) = true ->
     exists d,
       _get_album_date photos spec = Ok (Some d)
       /\ valid_date d
       /\ year f = Some (dt_year d)
       /\ dt_month d = (if truthy_int (month f) then number_of (month f) else 1%Z)
       /\ dt_day d = 1%Z)
  /\ ((forall f, date_filter spec = Some f -> truthy_int (year f) = false) ->
      _get_album_date photos spec = py_min (map photo_date photos))
  /\ (photos <> [] -> (forall p, In p photos -> photo_date p <> None) ->
      exists d, _get_album_date photos spec = Ok (Some d)).
Proof.
  apply (album_date_of_parsed_spec
           (lit "Sort by NCC events in March 2024")
           [mk_AlbumSpec (lit "Ncc Events In")
                         (map lit ["ncc events in"; "ncc"; "events"]%string)
                         (Some (Samples.in_month 2024 3))
                         (lit "Sort by NCC events in March 2024")]).
  - vm_compute. reflexivity.
  - left. reflexivity.
Defined.

(** *** The loop of [create_albums] *)

Lemma add_album_spec (target_folder : Path) (r : MatchResult)
      (acc : list Album) (spec : AlbumSpec) (albums : list Album) :
  add_album target_folder r acc spec = Ok albums ->
  (has_photos r spec = false /\ albums = acc)
  \/ (has_photos r spec = true
      /\ exists a, albums = acc ++ [a] /\ made target_folder r spec a).
Proof.
  unfold add_album, has_photos, bucket_for.
  destruct (get_or (matched r) (name spec) []) as [|p ps] eqn:Eb.
  - intros H. injection H as <-. now left.
  - intros H. right. split; [reflexivity|].
    apply bind_ok in H as (date & Hd & H).
    apply bind_ok in H as (folder & Hp & H).
    apply bind_ok in H as (earliest & Hmin & H).
    apply bind_ok in H as (latest & Hmax & H).
    injection H as <-. eexists. split; [reflexivity|].
    unfold made, bucket_for. cbn [album_name album_keywords photos earliest_date
                                   latest_date album_path].
    rewrite Eb. repeat split; try assumption; try discriminate.
    destruct date as [d|]; [|discriminate].
    exists d. split; [exact Hd|]. simpl in Hp. now injection Hp as <-.
Qed.

Lemma foldM_add_album (target_folder : Path) (r : MatchResult)
      (specs : list AlbumSpec) :
  forall acc albums,
    foldM (add_album target_folder r) specs acc = Ok albums ->
    exists news,
      albums = acc ++ news
      /\ Forall2 (made target_folder r) (filter (has_photos r) specs) news.
Proof.
  induction specs as [|spec specs IH]; intros acc albums H; simpl in H.
  - injection H as <-. exists []. split; [now rewrite app_nil_r | constructor].
  - apply bind_ok in H as (acc' & Hs & H).
    destruct (IH _ _ H) as (news & -> & Hnews).
    apply add_album_spec in Hs as [[Hh ->]|(Hh & a & -> & Ha)]; simpl; rewrite Hh.
    + exists news. auto.
    + exists (a :: news). split; [now rewrite <- app_assoc|]. now constructor.
Qed.

Lemma create_albums_made (target_folder : Path) (r : MatchResult)
      (specs : list AlbumSpec) (albums : list Album) :
  create_albums target_folder r specs = Ok albums ->
  Forall2 (made target_folder r) (filter (has_photos r) specs) albums.
Proof.
  intros H. apply foldM_add_album in H as (news & -> & H). exact H.
Qed.

(** *** Counting *)

Lemma list_sum_cons (x : nat) (l : list nat) : list_sum (x :: l) = x + list_sum l.
Proof. reflexivity. Qed.

Lemma made_count (target_folder : Path) (r : MatchResult)
      (specs : list AlbumSpec) (albums : list Album) :
  Forall2 (made target_folder r) (filter (has_photos r) specs) albums ->
  matched_count albums
  = list_sum (map (fun spec => length (bucket_for r spec)) specs).
Proof.
  unfold matched_count. revert albums.
  induction specs as [|spec specs IH]; intros albums H; simpl in H.
  - inversion H. reflexivity.
  - cbn [map]. rewrite list_sum_cons. unfold has_photos in H at 1.
    destruct (bucket_for r spec) as [|p ps] eqn:Eb.
    + simpl. now apply IH.
    + inversion H as [|s a ss as_ Ha Hrest]; subst. cbn [map].
      rewrite list_sum_cons.
      destruct Ha as (_ & _ & -> & _). rewrite Eb. f_equal. now apply IH.
Qed.

Lemma keys_of_fold (specs : list AlbumSpec) :
  forall d : dict (list PhotoMetadata),
    NoDup (dict_keys d ++ map name specs) ->
    dict_keys (fold_left (fun d spec => dict_set (name spec) [] d) specs d)
    = dict_keys d ++ map name specs.
Proof.
  induction specs as [|spec specs IH]; intros d Hnd; simpl.
  - now rewrite app_nil_r.
  - assert (Hfresh : ~ In (name spec) (dict_keys d)).
    { intros Hin. apply NoDup_remove_2 in Hnd. apply Hnd.
      apply in_or_app. now left. }
    rewrite IH; rewrite (keys_set_absent _ _ _ Hfresh), <- app_assoc; [reflexivity|].
    exact Hnd.
Qed.

Lemma distinct_names_keys (specs : list AlbumSpec) :
  NoDup (map name specs) -> dict_keys (empty_buckets specs) = map name specs.
Proof. intros H. unfold empty_buckets. now rewrite keys_of_fold. Qed.

Lemma total_len_by_key {A : Type} (d : dict (list A)) :
  NoDup (dict_keys d) ->
  list_sum (map (fun k => length (get_or d k [])) (dict_keys d)) = total_len d.
Proof.
  unfold total_len. induction d as [|[k v] d IH]; intros Hnd; [reflexivity|].
  simpl in Hnd. apply NoDup_cons_iff in Hnd as [Hk Hnd].
  cbn [dict_keys map fst snd]. rewrite !list_sum_cons.
  unfold get_or at 1. cbn [dict_find].
  rewrite str_eqb_refl. f_equal. rewrite <- (IH Hnd). f_equal.
  apply map_ext_in. intros k' Hk'. unfold get_or. cbn [dict_find].
  destruct (str_eqb k' k) eqn:E; [|reflexivity].
  apply str_eqb_eq in E. subst. contradiction.
Qed.

(** *** Photos of an album are photos of the input *)

Lemma bucket_photos (specs : list AlbumSpec) (xs : list PhotoMetadata)
      (r : MatchResult) (spec : AlbumSpec) (p : PhotoMetadata) :
  match_ specs xs = Ok r -> In p (bucket_for r spec) -> In p xs.
Proof.
  intros Hm Hp. destruct (match_buckets _ _ _ Hm) as (_ & _ & Hperm & _).
  apply (Permutation_in _ Hperm). apply in_or_app. left.
  unfold bucket_for, get_or in Hp.
  destruct (dict_find (name spec) (matched r)) as [b|] eqn:Ef; [|contradiction].
  apply dict_find_In in Ef. unfold all_values. apply in_concat.
  exists b. split; [|exact Hp].
  apply in_map_iff. now exists (name spec, b).
Qed.

(** X15. A dry run over scanned photos returns: when every filter is one
    [datetime] accepts, as the filters of [parse] are, and every photo has
    a date, as scanned photos have, [create_albums] returns a list of
    albums for every result of [match]. *)
Theorem dry_run_returns
        (target_folder : Path) (specs : list AlbumSpec) (xs : list PhotoMetadata)
        (r : MatchResult) :
  (forall spec f, In spec specs -> date_filter spec = Some f -> filter_ok f) ->
  (forall x, In x xs -> photo_date x <> None) ->
  match_ specs xs = Ok r ->
  exists albums, create_albums target_folder r specs = Ok albums.
Proof.
  intros Hok Hdated Hm. unfold create_albums.
  assert (H : forall todo acc,
             (forall spec, In spec todo -> In spec specs) ->
             exists albums, foldM (add_album target_folder r) todo acc = Ok albums).
  { induction todo as [|spec todo IH]; intros acc Hsub; simpl; [eauto|].
    assert (Hstep : exists acc', add_album target_folder r acc spec = Ok acc').
    { unfold add_album.
      destruct (get_or (matched r) (name spec) []) as [|p ps] eqn:Eb; [eauto|].
      assert (Hin : forall q, In q (p :: ps) -> photo_date q <> None).
      { intros q Hq. apply Hdated. apply (bucket_photos specs xs r spec q Hm).
        unfold bucket_for. now rewrite Eb. }
      destruct (album_date_total (p :: ps) spec) as [d ->];
        [intros f Hf; apply (Hok spec f); [apply Hsub; now left | exact Hf]
        | discriminate | exact Hin |].
      cbn [bind create_folder].
      destruct (py_min_total (map photo_date (p :: ps))) as [e ->];
        [discriminate | now apply dated |].
      destruct (py_max_total (map photo_date (p :: ps))) as [l ->];
        [discriminate | now apply dated |].
      cbn [bind]. eauto. }
    destruct Hstep as [acc' ->]. cbn [bind]. apply IH.
    intros s Hs. apply Hsub. now right. }
  apply H. auto.
Qed.

Lemma dry_run_returns_witness :
  exists albums,
    create_albums [lit "albums"]
                  (mk_MatchResult [(lit "Fest", [Samples.photo "fest.jpg" "camera"
                                                   (Some (Samples.day 2024 3 15)) None])]
                                  [] [(lit "Fest", 1%Z)])
                  [Samples.spec_of "Fest" ["fest"]%string (Some (Samples.in_month 2024 3))]
    = Ok albums.
Proof.
  apply (dry_run_returns
           [lit "albums"]
           [Samples.spec_of "Fest" ["fest"]%string (Some (Samples.in_month 2024 3))]
           [Samples.photo "fest.jpg" "camera" (Some (Samples.day 2024 3 15)) None]).
  - intros spec f [<-|[]] Hf. injection Hf as <-. split; simpl; intros _; lia.
  - intros x [<-|[]]. discriminate.
  - reflexivity.
Defined.

Lemma keys_of_fold_incl (specs : list AlbumSpec) :
  forall (d : dict (list PhotoMetadata)) k,
    In k (dict_keys (fold_left (fun d spec => dict_set (name spec) [] d) specs d)) ->
    In k (dict_keys d) \/ In k (map name specs).
Proof.
  induction specs as [|spec specs IH]; intros d k H; simpl in H; [now left|].
  apply IH in H as [H|H]; [|right; now right].
  destruct (in_dec (list_eq_dec ascii_dec) (name spec) (dict_keys d)) as [Hin|Hout].
  - rewrite (keys_set_present _ _ _ Hin) in H. now left.
  - rewrite (keys_set_absent _ _ _ Hout) in H.
    apply in_app_or in H as [H|[<-|[]]]; [now left|]. right. now left.
Qed.

Lemma list_sum_incl {A : Type} (f : A -> nat) (l : list A) :
  forall l', NoDup l -> incl l l' ->
             list_sum (map f l) <= list_sum (map f l').
Proof.
  induction l as [|x l IH]; intros l' Hnd Hincl; [simpl; lia|].
  apply NoDup_cons_iff in Hnd as [Hx Hnd].
  destruct (in_split x l' (Hincl x (or_introl eq_refl))) as (a & b & ->).
  assert (Hrest : incl l (a ++ b)).
  { intros z Hz. pose proof (Hincl z (or_intror Hz)) as H.
    apply in_app_or in H as [H|[H|H]].
    - apply in_or_app. now left.
    - subst. contradiction.
    - apply in_or_app. now right. }
  specialize (IH (a ++ b) Hnd Hrest).
  rewrite !map_app, !list_sum_app in *. cbn [map]. rewrite !list_sum_cons. lia.
Qed.

(** X16. The summary never loses a photo: the photos of the albums
    [create_albums] returns and the unmatched photos of the match result
    are at least as many as the photos that were matched against, and
    exactly as many when the spec names are distinct; these are the
    numbers [display_summary] prints as matched, unmatched and scanned.
    (A name given twice makes two albums of one bucket.) *)
Theorem summary_counts_add_up
        (target_folder : Path) (specs : list AlbumSpec) (xs : list PhotoMetadata)
        (r : MatchResult) (albums : list Album) :
  match_ specs xs = Ok r ->
  create_albums target_folder r specs = Ok albums ->
  length xs <= matched_count albums + length (unmatched r)
  /\ (NoDup (map name specs) ->
      matched_count albums + length (unmatched r) = length xs).
Proof.
  intros Hm Hc.
  rewrite (made_count _ _ _ _ (create_albums_made _ _ _ _ Hc)).
  destruct (match_buckets _ _ _ Hm) as (Hkeys & Hlen & _).
  destruct (empty_buckets_spec specs) as (Hnd & _).
  rewrite <- Hlen. unfold bucket_for.
  rewrite <- (map_map name (fun k => length (get_or (matched r) k []))).
  rewrite <- (total_len_by_key (matched r)) by (now rewrite Hkeys).
  split.
  - apply Nat.add_le_mono_r. apply list_sum_incl; [now rewrite Hkeys|].
    intros k Hk. rewrite Hkeys in Hk. unfold empty_buckets in Hk.
    apply keys_of_fold_incl in Hk as [[]|Hk]. exact Hk.
  - intros Hdistinct. now rewrite Hkeys, (distinct_names_keys _ Hdistinct).
Qed.

Lemma summary_counts_add_up_witness :
  let a := Samples.photo "fest_a.jpg" "camera" (Some (Samples.day 2024 3 15)) None in
  let b := Samples.photo "random.jpg" "camera" (Some (Samples.day 2024 3 16)) None in
  let album := mk_Album (lit "Fest") [lit "albums"; lit "2024-03-Fest"] [a]
                        (Some (Samples.day 2024 3 15)) (Some (Samples.day 2024 3 15))
                        [lit "fest"] in
  let r := mk_MatchResult [(lit "Fest", [a])] [b] [(lit "Fest", 1%Z)] in
  length [a; b] <= matched_count [album] + length (unmatched r)
  /\ (NoDup (map name [Samples.spec_of "Fest" ["fest"]%string None]) ->
      matched_count [album] + length (unmatched r) = length [a; b]).
Proof.
  apply (summary_counts_add_up
           [lit "albums"]
           [Samples.spec_of "Fest" ["fest"]%string None]
           [Samples.photo "fest_a.jpg" "camera" (Some (Samples.day 2024 3 15)) None;
            Samples.photo "random.jpg" "camera" (Some (Samples.day 2024 3 16)) None]);
    reflexivity.
Defined.

(** X17. Albums follow the buckets: [create_albums] returns one album for
    each spec whose bucket is not empty, in the order of the specs, and
    none for the others; the album has the spec's name and keywords and
    the bucket as its photos, its folder is named after the album date,
    and its earliest and latest dates are dates of its photos that bound
    the date of every photo in it. *)
Theorem albums_follow_buckets
        (target_folder : Path) (r : MatchResult) (specs : list AlbumSpec)
        (albums : list Album) :
  create_albums target_folder r specs = Ok albums ->
  Forall2 (made target_folder r) (filter (has_photos r) specs) albums
  /\ (forall a, In a albums ->
        In (earliest_date a) (map photo_date (photos a))
        /\ In (latest_date a) (map photo_date (photos a))
        /\ (forall p d, In p (photos a) -> photo_date p = Some d ->
              (forall e, earliest_date a = Some e -> dt_leb e d = true)
              /\ (forall l, latest_date a = Some l -> dt_leb d l = true))).
Proof.
  intros Hc. pose proof (create_albums_made _ _ _ _ Hc) as Hmade.
  split; [exact Hmade|].
  intros a Ha.
  assert (Hone : exists spec, made target_folder r spec a).
  { clear Hc. induction Hmade as [|s b ss bs Hsb _ IH]; [contradiction|].
    destruct Ha as [<-|Ha]; eauto. }
  destruct Hone as (spec & _ & _ & _ & _ & Hmin & Hmax & _).
  destruct (map photo_date (photos a)) as [|first others] eqn:Ed; [discriminate|].
  simpl in Hmin, Hmax.
  destruct (min_from_spec _ _ _ Hmin) as (Hin1 & _ & Hle1).
  destruct (max_from_spec _ _ _ Hmax) as (Hin2 & Hle2).
  split; [exact Hin1|]. split; [exact Hin2|].
  intros p d Hp Hd.
  assert (Hdin : In (Some d) (first :: others)).
  { rewrite <- Ed, <- Hd. now apply in_map. }
  split; [intros e He; now apply Hle1 | intros l Hl; now apply Hle2].
Qed.

Lemma albums_follow_buckets_witness :
  let a := Samples.photo "fest_a.jpg" "camera" (Some (Samples.day 2024 3 15)) None in
  let r := mk_MatchResult [(lit "Fest", [a]); (lit "Trip", [])] [] 
                          [(lit "Fest", 1%Z); (lit "Trip", 0%Z)] in
  let specs := [Samples.spec_of "Fest" ["fest"]%string None;
                Samples.spec_of "Trip" ["trip"]%string None] in
  let albums := [mk_Album (lit "Fest") [lit "albums"; lit "2024-03-Fest"] [a]
                          (Some (Samples.day 2024 3 15)) (Some (Samples.day 2024 3 15))
                          [lit "fest"]] in
  Forall2 (made [lit "albums"] r) (filter (has_photos r) specs) albums
  /\ (forall a, In a albums ->
        In (earliest_date a) (map photo_date (photos a))
        /\ In (latest_date a) (map photo_date (photos a))
        /\ (forall p d, In p (photos a) -> photo_date p = Some d ->
              (forall e, earliest_date a = Some e -> dt_leb e d = true)
              /\ (forall l, latest_date a = Some l -> dt_leb d l = true))).
Proof.
  apply (albums_follow_buckets
           [lit "albums"]
           (mk_MatchResult
              [(lit "Fest", [Samples.photo "fest_a.jpg" "camera"
                               (Some (Samples.day 2024 3 15)) None]);
               (lit "Trip", [])]
              [] [(lit "Fest", 1%Z); (lit "Trip", 0%Z)])
           [Samples.spec_of "Fest" ["fest"]%string None;
            Samples.spec_of "Trip" ["trip"]%string None]).
  reflexivity.
Defined.

End CreatorFacts.

(* ================================================================== *)
(** * File name conflicts *)

Module ConflictFacts.
Import PyFormat Albums FormatFacts StrFacts.

(** *** The loop *)

Lemma probe_step (exists_ : Path -> bool) (parent : Path) (name : str)
      (fuel k : nat) :
  probe exists_ parent (stem name) (suffix name) (S fuel) k
  = if negb (exists_ (candidate parent name k))
    then Some (candidate parent name k)
    else probe exists_ parent (stem name) (suffix name) fuel (S k).
Proof. reflexivity. Qed.

Lemma probe_spec (exists_ : Path -> bool) (parent : Path) (name : str) :
  forall fuel k p,
    probe exists_ parent (stem name) (suffix name) fuel k = Some p ->
    exists j,
      k <= j < k + fuel
      /\ p = candidate parent name j
      /\ exists_ p = false
      /\ (forall i, k <= i < j -> exists_ (candidate parent name i) = true).
Proof.
  induction fuel as [|fuel IH]; intros k p H; [discriminate|].
  rewrite probe_step in H.
  destruct (exists_ (candidate parent name k)) eqn:E; cbn [negb] in H.
  - destruct (IH _ _ H) as (j & Hj & Hp & Hfree & Hbusy).
    exists j. split; [lia|]. split; [exact Hp|]. split; [exact Hfree|].
    intros i Hi. destruct (Nat.eq_dec i k) as [->|Hne]; [exact E|].
    apply Hbusy. lia.
  - injection H as <-. exists k. split; [lia|]. split; [reflexivity|].
    split; [exact E|]. intros i Hi. lia.
Qed.

Lemma probe_total (exists_ : Path -> bool) (parent : Path) (name : str) :
  forall fuel k j,
    k <= j < k + fuel -> exists_ (candidate parent name j) = false ->
    exists p, probe exists_ parent (stem name) (suffix name) fuel k = Some p.
Proof.
  induction fuel as [|fuel IH]; intros k j Hj Hfree; [lia|].
  rewrite probe_step.
  destruct (exists_ (candidate parent name k)) eqn:E; cbn [negb]; [|eauto].
  apply (IH (S k) j); [|exact Hfree].
  destruct (Nat.eq_dec j k) as [->|Hne]; [congruence | lia].
Qed.

(** More fuel does not change what the loop finds. *)
Lemma probe_more (exists_ : Path -> bool) (parent : Path) (st su : str) :
  forall fuel k p extra,
    probe exists_ parent st su fuel k = Some p ->
    probe exists_ parent st su (fuel + extra) k = Some p.
Proof.
  induction fuel as [|fuel IH]; intros k p extra H; simpl in H; [discriminate|].
  simpl.
  destruct (negb (exists_ (parent ++ [st ++ "_"%char :: decimal k ++ su])));
    [exact H | now apply IH].
Qed.

(** *** The candidates are all different *)

Lemma candidate_inj (parent : Path) (name : str) (i j : nat) :
  candidate parent name i = candidate parent name j -> i = j.
Proof.
  unfold candidate, renamed. intros H. apply app_inv_head in H.
  injection H as H. apply app_inv_head in H. injection H as H.
  apply app_inv_tail in H. now apply decimal_inj.
Qed.

Lemma listed_In (files : list Path) (p : Path) :
  listed files p = true <-> In p files.
Proof.
  unfold listed. rewrite existsb_exists. split.
  - intros (q & Hq & E).
    destruct (list_eq_dec (list_eq_dec ascii_dec) p q); [now subst | discriminate].
  - intros H. exists p. split; [exact H|].
    destruct (list_eq_dec (list_eq_dec ascii_dec) p p); [reflexivity | contradiction].
Qed.

Lemma forallb_false {A : Type} (f : A -> bool) (l : list A) :
  forallb f l = false -> exists x, In x l /\ f x = false.
Proof.
  induction l as [|x l IH]; simpl; [discriminate|].
  destruct (f x) eqn:E; simpl.
  - intros H. destruct (IH H) as (y & Hy & Ey). eauto.
  - intros _. eauto.
Qed.

Lemma NoDup_map_inj {A B : Type} (f : A -> B) (l : list A) :
  (forall x y, f x = f y -> x = y) -> NoDup l -> NoDup (map f l).
Proof.
  intros Hinj. induction 1 as [|x l Hx Hnd IH]; simpl; constructor; [|exact IH].
  intros Hin. apply in_map_iff in Hin as (y & E & Hy).
  apply Hinj in E. now subst.
Qed.

(** Among more candidates than there are files, one is free. *)
Lemma free_candidate (files : list Path) (parent : Path) (name : str) (k : nat) :
  exists j,
    k <= j < k + S (length files)
    /\ listed files (candidate parent name j) = false.
Proof.
  set (cs := map (candidate parent name) (seq k (S (length files)))).
  destruct (forallb (listed files) cs) eqn:E.
  - exfalso. rewrite forallb_forall in E.
    assert (Hnd : NoDup cs).
    { apply NoDup_map_inj; [|apply seq_NoDup].
      intros i j. apply candidate_inj. }
    assert (Hincl : incl cs files).
    { intros c Hc. apply listed_In. now apply E. }
    pose proof (NoDup_incl_length Hnd Hincl) as Hlen.
    unfold cs in Hlen. rewrite length_map, length_seq in Hlen. lia.
  - apply forallb_false in E as (c & Hc & Hfree).
    unfold cs in Hc. apply in_map_iff in Hc as (j & <- & Hj).
    apply in_seq in Hj. exists j. split; [lia | exact Hfree].
Qed.

(** X18. A conflict is always resolved, and by the first free name: in a
    folder holding finitely many files, [_resolve_conflict] stops after at
    most as many tries as there are files, plus one; the path it returns
    does not exist; it is the destination itself when that is free, and
    otherwise [stem_k.suffix] for the least [k >= 1] that is free. *)
Theorem conflict_resolved_by_first_free_name
        (files : list Path) (parent : Path) (name : str) :
  exists p,
    (forall fuel, S (length files) <= fuel ->
                  _resolve_conflict (listed files) fuel parent name = Some p)
    /\ listed files p = false
    /\ (listed files (parent ++ [name]) = false -> p = parent ++ [name])
    /\ (listed files (parent ++ [name]) = true ->
        exists k,
          1 <= k <= S (length files)
          /\ p = candidate parent name k
          /\ forall i, 1 <= i < k -> listed files (candidate parent name i) = true).
Proof.
  unfold _resolve_conflict.
  destruct (listed files (parent ++ [name])) eqn:E; simpl.
  - destruct (free_candidate files parent name 1) as (j & Hj & Hfree).
    destruct (probe_total (listed files) parent name _ 1 j Hj Hfree) as [p Hp].
    exists p. destruct (probe_spec _ _ _ _ _ _ Hp) as (k & Hk & Ek & Hk_free & Hbusy).
    split; [|split; [exact Hk_free | split; [discriminate|]]].
    + intros fuel Hfuel.
      replace fuel with (S (length files) + (fuel - S (length files))) by lia.
      now apply probe_more.
    + intros _. exists k. split; [lia|]. split; [exact Ek | exact Hbusy].
  - exists (parent ++ [name]). split; [reflexivity|]. split; [exact E|].
    split; [reflexivity | discriminate].
Qed.

(** *** The suffix of a renamed file *)

Lemma rfind_none (c : ascii) (s : str) : rfind c s = None <-> ~ In c s.
Proof.
  induction s as [|x s IH]; simpl; [tauto|].
  destruct (rfind c s) as [i|].
  - split; [discriminate|]. intros H. exfalso.
    assert (Hs : ~ In c s) by tauto. apply IH in Hs. discriminate.
  - destruct (Ascii.eqb x c) eqn:E.
    + apply Ascii.eqb_eq in E. subst. split; [discriminate | tauto].
    + apply Ascii.eqb_neq in E. split; [|reflexivity].
      intros _ [H|H]; [contradiction|]. now apply IH in H.
Qed.

Lemma rfind_last (c : ascii) (a t : str) :
  ~ In c t -> rfind c (a ++ c :: t) = Some (length a).
Proof.
  intros Ht. induction a as [|x a IH]; simpl.
  - apply rfind_none in Ht. rewrite Ht, Ascii.eqb_refl. reflexivity.
  - now rewrite IH.
Qed.

Lemma rfind_some (c : ascii) (s : str) :
  forall i, rfind c s = Some i ->
            exists a t, s = a ++ c :: t /\ length a = i /\ ~ In c t.
Proof.
  induction s as [|x s IH]; intros i H; simpl in H; [discriminate|].
  destruct (rfind c s) as [j|] eqn:E.
  - injection H as <-. destruct (IH j eq_refl) as (a & t & -> & <- & Ht).
    exists (x :: a), t. auto.
  - destruct (Ascii.eqb x c) eqn:Ex; [|discriminate]. injection H as <-.
    apply Ascii.eqb_eq in Ex. subst. exists [], s. split; [reflexivity|].
    split; [reflexivity|]. now apply rfind_none.
Qed.

(** A name with a suffix is its stem, a dot and an extension without
    dots that is not empty. *)
Lemma suffix_parts (name : str) :
  suffix name <> [] ->
  exists ext,
    name = stem name ++ "."%char :: ext
    /\ suffix name = "."%char :: ext
    /\ stem name <> [] /\ ext <> [] /\ ~ In "."%char ext.
Proof.
  unfold suffix, stem, suffix_at.
  destruct (rfind "." name) as [i|] eqn:E; [|intros H; contradiction].
  destruct ((0 <? i) && (i <? length name - 1)) eqn:Eb; [|intros H; contradiction].
  intros _. apply andb_true_iff in Eb as [H0 H1].
  apply Nat.ltb_lt in H0, H1.
  destruct (rfind_some _ _ _ E) as (a & t & -> & <- & Ht).
  rewrite length_app in H1. simpl in H1.
  exists t. rewrite firstn_app, firstn_all, Nat.sub_diag, app_nil_r.
  rewrite skipn_app, skipn_all, Nat.sub_diag. simpl.
  repeat split; try assumption.
  - destruct a; [simpl in H0; lia | discriminate].
  - destruct t; [simpl in H1; lia | discriminate].
Qed.

Lemma suffix_of_parts (a ext : str) :
  a <> [] -> ext <> [] -> ~ In "."%char ext ->
  suffix (a ++ "."%char :: ext) = "."%char :: ext
  /\ stem (a ++ "."%char :: ext) = a.
Proof.
  intros Ha He Hdot. unfold suffix, stem, suffix_at.
  rewrite (rfind_last _ a ext Hdot).
  assert (H0 : (0 <? length a) = true).
  { apply Nat.ltb_lt. destruct a; [contradiction | simpl; lia]. }
  assert (H1 : (length a <? length (a ++ "."%char :: ext) - 1) = true).
  { apply Nat.ltb_lt. rewrite length_app. simpl.
    destruct ext; [contradiction | simpl; lia]. }
  rewrite H0, H1. simpl.
  rewrite firstn_app, firstn_all, Nat.sub_diag, app_nil_r.
  rewrite skipn_app, skipn_all, Nat.sub_diag. auto.
Qed.

(** X19. A renamed photo keeps its extension: when the file name has a
    suffix, every name [_resolve_conflict] tries has the same suffix and
    the stem followed by [_k], so the scanner's test on the extension
    answers for the new name what it answers for the old one. *)
Theorem renamed_keeps_extension
        (supported_extensions : option (list str)) (name : str) (k : nat) :
  suffix name <> [] ->
  suffix (renamed name k) = suffix name
  /\ stem (renamed name k) = stem name ++ lit "_" ++ decimal k
  /\ supported supported_extensions (renamed name k)
     = supported supported_extensions name.
Proof.
  intros Hs. destruct (suffix_parts name Hs) as (ext & _ & Esuf & Hstem & Hext & Hdot).
  assert (E : renamed name k = (stem name ++ lit "_" ++ decimal k) ++ "."%char :: ext).
  { unfold renamed. rewrite Esuf. now rewrite <- !app_assoc. }
  destruct (suffix_of_parts (stem name ++ lit "_" ++ decimal k) ext) as [H1 H2];
    try assumption.
  { intros F. apply app_eq_nil in F as [F _]. contradiction. }
  rewrite <- E in H1, H2.
  assert (Hsuffix : suffix (renamed name k) = suffix name) by congruence.
  split; [exact Hsuffix|]. split; [exact H2|].
  unfold supported. now rewrite Hsuffix.
Qed.

Lemma renamed_keeps_extension_witness :
  suffix (renamed (lit "IMG_01.JPG") 2) = suffix (lit "IMG_01.JPG")
  /\ stem (renamed (lit "IMG_01.JPG") 2) = stem (lit "IMG_01.JPG") ++ lit "_" ++ decimal 2
  /\ supported None (renamed (lit "IMG_01.JPG") 2) = supported None (lit "IMG_01.JPG").
Proof.
  apply (renamed_keeps_extension None (lit "IMG_01.JPG") 2).
  discriminate.
Defined.

(** *** The scanner's test on the extension *)

Lemma lower_char_dot (c : ascii) : Ascii.eqb (lower_char c) "." = Ascii.eqb c ".".
Proof. WildcardFacts.every_char c. Qed.

Lemma rfind_lower (s : str) : rfind "." (lower s) = rfind "." s.
Proof.
  induction s as [|x s IH]; [reflexivity|]. simpl.
  fold (lower s). now rewrite IH, lower_char_dot.
Qed.

Lemma suffix_lower (name : str) : suffix (lower name) = lower (suffix name).
Proof.
  unfold suffix, suffix_at. rewrite rfind_lower. unfold lower at 1 2.
  rewrite length_map. destruct (rfind "." name) as [i|]; [|reflexivity].
  destruct ((0 <? i) && (i <? length name - 1)); [|reflexivity].
  unfold lower. now rewrite skipn_map.
Qed.

(** X20. The scanner's test on the extension is blind to case: file
    names that agree up to case get the same answer, and so do lists of
    extensions that agree up to case; the answer is whether the
    lower-cased suffix of the name is among the lower-cased extensions,
    the default ones when no list or an empty list was given. *)
Theorem extension_test_ignores_case (filename : str) :
  (forall given filename',
      lower filename = lower filename' ->
      supported given filename = supported given filename')
  /\ (forall extensions extensions',
        map lower extensions = map lower extensions' ->
        supported (Some extensions) filename = supported (Some extensions') filename)
  /\ (forall given,
        supported given filename = true <->
        In (suffix (lower filename)) (extensions_of given))
  /\ supported (Some []) filename = supported None filename.
Proof.
  split; [|split; [|split]].
  - intros given filename' Hn. unfold supported.
    now rewrite <- !suffix_lower, Hn.
  - intros l l' E. unfold supported, extensions_of.
    destruct l as [|x l], l' as [|x' l']; try discriminate; [reflexivity|].
    now rewrite E.
  - intros given. unfold supported. rewrite <- suffix_lower.
    apply NameFacts.mem_In.
  - reflexivity.
Qed.

End ConflictFacts.

(* ================================================================== *)
(** * The sidebar filters *)

Module FilterFacts.
Import PromptParser PatternMatcher App MatcherFacts.

(** *** The heap *)

Lemma length_update (g : DateFilter -> DateFilter) (h : heap) :
  forall r, length (update r g h) = length h.
Proof.
  induction h as [|f h IH]; intros [|r]; simpl; auto.
Qed.

Lemma nth_update (g : DateFilter -> DateFilter) (h : heap) :
  forall r r',
    nth_error (update r g h) r'
    = if r' =? r then option_map g (nth_error h r') else nth_error h r'.
Proof.
  induction h as [|f h IH]; intros r r'.
  - simpl. destruct r; destruct r'; simpl; try reflexivity;
      destruct (r' =? r); reflexivity.
  - destruct r as [|r], r' as [|r']; simpl; try reflexivity. apply IH.
Qed.

Lemma update_update (g1 g2 : DateFilter -> DateFilter) (h : heap) :
  forall r, update r g2 (update r g1 h) = update r (fun f => g2 (g1 f)) h.
Proof.
  induction h as [|f h IH]; intros [|r]; simpl; try reflexivity. now rewrite IH.
Qed.

Lemma update_id (h : heap) : forall r, update r (fun f => f) h = h.
Proof.
  induction h as [|f h IH]; intros [|r]; simpl; try reflexivity. now rewrite IH.
Qed.

Lemma touch_idem (m y : option Z) (f : DateFilter) :
  touch m y (touch m y f) = touch m y f.
Proof.
  unfold touch. destruct (truthy_int y), (truthy_int m); reflexivity.
Qed.

(** The two assignments of the loop body are one update of the object. *)
Lemma assignments (m y : option Z) (r : ref) (h : heap) :
  (let h1 := if truthy_int y then update r (set_year y) h else h in
   if truthy_int m then update r (set_month m) h1 else h1)
  = update r (touch m y) h.
Proof.
  unfold touch. cbn zeta.
  destruct (truthy_int y), (truthy_int m);
    rewrite ?update_update; try reflexivity.
  symmetry. apply update_id.
Qed.

Lemma filter_spec_step (m y : option Z) (h : heap) (done : list SpecObject)
      (spec : SpecObject) :
  filter_spec m y (h, done) spec
  = match obj_date_filter spec with
    | Some r => (update r (touch m y) h, done ++ [spec])
    | None =>
        (update (length h) (touch m y) (h ++ [mk_DateFilter None None None None]),
         done ++ [mk_SpecObject (obj_name spec) (obj_keywords spec)
                                (Some (length h)) (obj_original_prompt spec)])
    end.
Proof.
  unfold filter_spec.
  destruct (obj_date_filter spec) as [r|]; cbn zeta; now rewrite <- assignments.
Qed.

Lemma touched_view (m y : option Z) (h h' : heap) (o : SpecObject) :
  (forall r f, obj_date_filter o = Some r -> nth_error h r = Some f ->
               nth_error h' r = Some f \/ nth_error h' r = Some (touch m y f)) ->
  (forall r, obj_date_filter o = Some r -> r < length h) ->
  touched m y (view h' o) = touched m y (view h o).
Proof.
  intros Hold Hwf. unfold touched, view. simpl.
  destruct (obj_date_filter o) as [r|]; [|reflexivity].
  destruct (nth_error h r) as [f|] eqn:E.
  - destruct (Hold r f eq_refl E) as [-> | ->]; [reflexivity|].
    now rewrite touch_idem.
  - apply nth_error_None in E. specialize (Hwf r eq_refl). lia.
Qed.

Lemma loop_spec (m y : option Z) (specs : list SpecObject) :
  forall h done h' done',
    well_formed h specs ->
    fold_left (filter_spec m y) specs (h, done) = (h', done') ->
    exists news,
      done' = done ++ news
      /\ length h <= length h'
      /\ map (view h') news = map (fun o => touched m y (view h o)) specs
      /\ (forall r f, nth_error h r = Some f ->
                      nth_error h' r
                      = Some (if referenced specs r then touch m y f else f)).
Proof.
  induction specs as [|spec specs IH]; intros h done h' done' Hwf H;
    cbn [fold_left] in H.
  - injection H as <- <-. exists []. rewrite app_nil_r. auto.
  - rewrite filter_spec_step in H.
    destruct (obj_date_filter spec) as [r|] eqn:Er.
    + assert (Hr : r < length h) by (apply (Hwf spec r); [now left | exact Er]).
      assert (Hwf1 : well_formed (update r (touch m y) h) specs).
      { intros o r' Ho Hr'. rewrite length_update. apply (Hwf o r'); [now right | exact Hr']. }
      destruct (IH _ _ _ _ Hwf1 H) as (news & -> & Hlen & Hviews & Hold).
      rewrite length_update in Hlen.
      destruct (nth_error h r) as [f|] eqn:Ef;
        [|apply nth_error_None in Ef; lia].
      assert (Hmine : nth_error h' r = Some (touch m y f)).
      { rewrite (Hold r (touch m y f)).
        - rewrite touch_idem. now destruct (referenced specs r).
        - rewrite nth_update, Nat.eqb_refl, Ef. reflexivity. }
      exists (spec :: news). split; [now rewrite <- app_assoc|].
      split; [exact Hlen|]. split.
      * cbn [map]. f_equal.
        -- unfold touched, view. rewrite Er, Hmine, Ef. reflexivity.
        -- rewrite Hviews. apply map_ext_in. intros o Ho.
           apply touched_view.
           ++ intros r' f' _ Hf'. rewrite nth_update.
              destruct (r' =? r); rewrite Hf'; simpl; auto.
           ++ intros r' Hr'. apply (Hwf o r'); [now right | exact Hr'].
      * intros r' f' Hf'. cbn [referenced existsb]. rewrite Er.
        fold (referenced specs r').
        destruct (r =? r') eqn:Err.
        -- apply Nat.eqb_eq in Err. subst r'. rewrite Hf' in Ef. injection Ef as ->.
           exact Hmine.
        -- cbn [orb]. apply Hold. rewrite nth_update, Nat.eqb_sym, Err. exact Hf'.
    + set (fresh := mk_DateFilter None None None None) in *.
      assert (Hwf1 : well_formed (update (length h) (touch m y) (h ++ [fresh])) specs).
      { intros o r' Ho Hr'. rewrite length_update, length_app. simpl.
        pose proof (Hwf o r' (or_intror Ho) Hr'). lia. }
      destruct (IH _ _ _ _ Hwf1 H) as (news & -> & Hlen & Hviews & Hold).
      rewrite length_update, length_app in Hlen. simpl in Hlen.
      assert (Hnew : nth_error (update (length h) (touch m y) (h ++ [fresh])) (length h)
                     = Some (touch m y fresh)).
      { rewrite nth_update, Nat.eqb_refl, nth_error_app2, Nat.sub_diag by lia.
        reflexivity. }
      assert (Hmine : nth_error h' (length h) = Some (touch m y fresh)).
      { rewrite (Hold _ _ Hnew), touch_idem.
        now destruct (referenced specs (length h)). }
      eexists (_ :: news). split; [now rewrite <- app_assoc|].
      split; [lia|]. split.
      * cbn [map]. f_equal.
        -- unfold touched, view. cbn [obj_date_filter obj_name obj_keywords
                                       obj_original_prompt name keywords date_filter
                                       original_prompt].
           rewrite Er, Hmine. reflexivity.
        -- rewrite Hviews. apply map_ext_in. intros o Ho.
           apply touched_view.
           ++ intros r' f' Hr' Hf'. rewrite nth_update.
              pose proof (Hwf o r' (or_intror Ho) Hr') as Hlt.
              replace (r' =? length h) with false by (symmetry; apply Nat.eqb_neq; lia).
              rewrite nth_error_app1 by exact Hlt. auto.
           ++ intros r' Hr'. apply (Hwf o r'); [now right | exact Hr'].
      * intros r' f' Hf'. cbn [referenced existsb]. rewrite Er. cbn [orb].
        fold (referenced specs r'). apply Hold.
        assert (Hlt : r' < length h) by (apply nth_error_Some; congruence).
        rewrite nth_update.
        replace (r' =? length h) with false by (symmetry; apply Nat.eqb_neq; lia).
        now rewrite nth_error_app1.
Qed.

Lemma filters_spec (m y : option Z) (h : heap) (specs : list SpecObject) :
  well_formed h specs ->
  exists h' specs',
    apply_additional_filters specs m y h = (h', specs')
    /\ map (view h') specs' = map (with_filters m y) (map (view h) specs)
    /\ length h <= length h'
    /\ (forall r, r < length h -> referenced specs r = false ->
                  nth_error h' r = nth_error h r).
Proof.
  intros Hwf. unfold apply_additional_filters, with_filters.
  destruct (negb (truthy_int m) && negb (truthy_int y)).
  - exists h, specs. split; [reflexivity|]. split; [|auto].
    rewrite map_map. apply map_ext. reflexivity.
  - destruct (fold_left (filter_spec m y) specs (h, [])) as [h' specs'] eqn:E.
    destruct (loop_spec _ _ _ _ _ _ _ Hwf E) as (news & -> & Hlen & Hviews & Hold).
    exists h', news. split; [reflexivity|]. split; [|split; [exact Hlen|]].
    + rewrite Hviews, map_map. reflexivity.
    + intros r Hr Href. destruct (nth_error h r) as [f|] eqn:Ef.
      * rewrite (Hold r f Ef), Href. reflexivity.
      * apply nth_error_None in Ef. lia.
Qed.

(** *** [match] reads names and keywords only *)

Lemma first_match_keywords (x : PhotoMetadata) (specs : list AlbumSpec) :
  forall specs',
    map name specs = map name specs' -> map keywords specs = map keywords specs' ->
    first_match x specs = first_match x specs'.
Proof.
  induction specs as [|s specs IH]; intros [|s' specs'] Hn Hk; try discriminate;
    [reflexivity|].
  injection Hn as Hn Hns. injection Hk as Hk Hks.
  cbn [first_match]. rewrite !matches_spec_keyword, Hk, Hn.
  now rewrite (IH specs' Hns Hks).
Qed.

Lemma empty_buckets_names (specs : list AlbumSpec) :
  empty_buckets specs
  = fold_left (fun d n => dict_set n [] d) (map name specs) [].
Proof.
  unfold empty_buckets. generalize (@nil (str * list PhotoMetadata)).
  induction specs as [|s specs IH]; intros d; [reflexivity|]. simpl. apply IH.
Qed.

Lemma foldM_ext {A S : Type} (f g : S -> A -> result S) (xs : list A) :
  (forall st x, f st x = g st x) -> forall st, foldM f xs st = foldM g xs st.
Proof.
  intros H. induction xs as [|x xs IH]; intros st; [reflexivity|].
  simpl. rewrite H. destruct (g st x); simpl; [apply IH | reflexivity].
Qed.

Lemma match_names_keywords (specs specs' : list AlbumSpec)
      (photos : list PhotoMetadata) :
  map name specs = map name specs' -> map keywords specs = map keywords specs' ->
  match_ specs photos = match_ specs' photos.
Proof.
  intros Hn Hk. unfold match_.
  rewrite !empty_buckets_names, Hn.
  rewrite (foldM_ext (place specs) (place specs')); [reflexivity|].
  intros [matched unmatched] x. unfold place.
  now rewrite (first_match_keywords x specs specs' Hn Hk).
Qed.

Lemma with_filters_name (m y : option Z) (spec : AlbumSpec) :
  name (with_filters m y spec) = name spec
  /\ keywords (with_filters m y spec) = keywords spec.
Proof.
  unfold with_filters.
  destruct (negb (truthy_int m) && negb (truthy_int y)); split; reflexivity.
Qed.

(** *** The objects of [parse] *)

Lemma parse_objects_spec (prompt : str) (h : heap) (objs : list SpecObject) :
  parse_objects prompt = Ok (h, objs) ->
  parse prompt = Ok (map (view h) objs)
  /\ well_formed h objs
  /\ (forall o, In o objs -> obj_date_filter o = match h with
                                                 | [] => None
                                                 | _ :: _ => Some 0
                                                 end).
Proof.
  unfold parse_objects, parse. intros H.
  apply bind_ok in H as (names & -> & H).
  apply bind_ok in H as (dates & -> & H). cbn [bind].
  injection H as <- <-. rewrite !Claims.fold_left_snoc. cbn [app].
  split; [|split].
  - rewrite map_map. f_equal. apply map_ext. intros n. unfold view. simpl.
    now destruct dates.
  - intros o r Ho Hr. apply in_map_iff in Ho as (n & <- & _). simpl in Hr.
    destruct dates; [discriminate|]. injection Hr as <-. simpl. lia.
  - intros o Ho. apply in_map_iff in Ho as (n & <- & _). reflexivity.
Qed.

(** X21. The sidebar filters, told by value: [apply_additional_filters]
    changes the specs in place, and specs may share one filter object, as
    the specs of [parse] do; still every spec ends up as if it alone had
    been given the selected year and month, on its own filter or on a
    fresh one when it had none.  Without a selection nothing changes; no
    filter object is removed, and objects no spec refers to stay as they
    are. *)
Theorem filters_update_every_spec
        (month_filter year_filter : option Z) (h : heap) (specs : list SpecObject) :
  well_formed h specs ->
  exists h' specs',
    apply_additional_filters specs month_filter year_filter h = (h', specs')
    /\ map (view h') specs'
       = map (with_filters month_filter year_filter) (map (view h) specs)
    /\ (truthy_int month_filter = false -> truthy_int year_filter = false ->
        h' = h /\ specs' = specs)
    /\ length h <= length h'
    /\ (forall r, r < length h -> referenced specs r = false ->
                  nth_error h' r = nth_error h r).
Proof.
  intros Hwf.
  destruct (filters_spec month_filter year_filter h specs Hwf)
    as (h' & specs' & E & Hviews & Hlen & Hframe).
  exists h', specs'. split; [exact E|]. split; [exact Hviews|].
  split; [|split; [exact Hlen | exact Hframe]].
  intros Hm Hy. unfold apply_additional_filters in E. rewrite Hm, Hy in E.
  simpl in E. now injection E as <- <-.
Qed.

Lemma filters_update_every_spec_witness :
  let h := [Samples.in_month 2024 3] in
  let specs := [mk_SpecObject (lit "Fest") [lit "fest"] (Some 0) [];
                mk_SpecObject (lit "Trip") [lit "trip"] (Some 0) []] in
  exists h' specs',
    apply_additional_filters specs (Some 5%Z) None h = (h', specs')
    /\ map (view h') specs' = map (with_filters (Some 5%Z) None) (map (view h) specs)
    /\ (truthy_int (Some 5%Z) = false -> truthy_int None = false ->
        h' = h /\ specs' = specs)
    /\ length h <= length h'
    /\ (forall r, r < length h -> referenced specs r = false ->
                  nth_error h' r = nth_error h r).
Proof.
  apply (filters_update_every_spec
           (Some 5%Z) None [Samples.in_month 2024 3]
           [mk_SpecObject (lit "Fest") [lit "fest"] (Some 0) [];
            mk_SpecObject (lit "Trip") [lit "trip"] (Some 0) []]).
  intros o r [<-|[<-|[]]] Hr; injection Hr as <-; simpl; lia.
Defined.

(** X22. The sidebar filters never change a match: [match] gives the
    same result, or raises the same error, on the specs
    [apply_additional_filters] returns as on the specs it was given,
    whatever month and year were selected; in particular on the specs of
    [parse], whose objects satisfy what the statement asks for. *)
Theorem sidebar_filters_leave_match_alone :
  (forall month_filter year_filter h specs photos,
      well_formed h specs ->
      exists h' specs',
        apply_additional_filters specs month_filter year_filter h = (h', specs')
        /\ match_ (map (view h') specs') photos = match_ (map (view h) specs) photos)
  /\ (forall prompt h objs,
        parse_objects prompt = Ok (h, objs) ->
        parse prompt = Ok (map (view h) objs) /\ well_formed h objs).
Proof.
  split.
  - intros m y h specs photos Hwf.
    destruct (filters_spec m y h specs Hwf) as (h' & specs' & E & Hviews & _).
    exists h', specs'. split; [exact E|]. rewrite Hviews.
    apply match_names_keywords; rewrite map_map; apply map_ext; intros spec;
      now destruct (with_filters_name m y spec).
  - intros prompt h objs H.
    destruct (parse_objects_spec _ _ _ H) as (Hp & Hwf & _). auto.
Qed.

(** *** What the filters change in a dry run *)

Lemma made_fields (target_folder : Albums.Path) (r : MatchResult)
      (s s' : AlbumSpec) (a a' : Albums.Album) :
  name s' = name s -> keywords s' = keywords s ->
  CreatorSpec.made target_folder r s a -> CreatorSpec.made target_folder r s' a' ->
  CreatorSpec.forget_path a' = CreatorSpec.forget_path a.
Proof.
  intros Hn Hk (N & K & P & _ & Hmin & Hmax & _) (N' & K' & P' & _ & Hmin' & Hmax' & _).
  unfold CreatorSpec.forget_path, CreatorSpec.bucket_for in *.
  rewrite Hn in N', P'. rewrite Hk in K'.
  rewrite P' in Hmin', Hmax'. rewrite P in Hmin, Hmax.
  rewrite Hmin in Hmin'. rewrite Hmax in Hmax'.
  injection Hmin' as ->. injection Hmax' as ->.
  now rewrite N, N', K, K', P, P'.
Qed.

Lemma has_photos_name (r : MatchResult) (s s' : AlbumSpec) :
  name s' = name s -> CreatorSpec.has_photos r s' = CreatorSpec.has_photos r s.
Proof.
  intros H. unfold CreatorSpec.has_photos, CreatorSpec.bucket_for. now rewrite H.
Qed.

Lemma made_forget (target_folder : Albums.Path) (r : MatchResult)
      (m y : option Z) (specs : list AlbumSpec) :
  forall albums albums',
    Forall2 (CreatorSpec.made target_folder r)
            (filter (CreatorSpec.has_photos r) specs) albums ->
    Forall2 (CreatorSpec.made target_folder r)
            (filter (CreatorSpec.has_photos r) (map (with_filters m y) specs)) albums' ->
    map CreatorSpec.forget_path albums' = map CreatorSpec.forget_path albums.
Proof.
  induction specs as [|s specs IH]; intros albums albums' H H'; simpl in H, H'.
  - inversion H. inversion H'. reflexivity.
  - destruct (with_filters_name m y s) as [Hn Hk].
    rewrite (has_photos_name r s _ Hn) in H'.
    destruct (CreatorSpec.has_photos r s).
    + inversion H as [|? a ? rest Ha Hrest]; subst.
      inversion H' as [|? a' ? rest' Ha' Hrest']; subst.
      cbn [map]. f_equal; [now apply (made_fields _ _ _ _ _ _ Hn Hk Ha Ha') | now apply IH].
    + now apply IH.
Qed.

Lemma album_date_month_only (m : option Z) (photos : list PhotoMetadata)
      (spec : AlbumSpec) :
  (forall f, date_filter spec = Some f -> truthy_int (year f) = false) ->
  Albums._get_album_date photos (with_filters m None spec)
  = Albums._get_album_date photos spec.
Proof.
  intros Hy. unfold with_filters. cbn [truthy_int negb andb].
  rewrite andb_true_r.
  destruct (truthy_int m) eqn:Em; cbn [negb]; [|reflexivity].
  rewrite (CreatorFacts.album_date_of_photos photos spec Hy).
  apply CreatorFacts.album_date_of_photos.
  unfold touched, touch. cbn [date_filter truthy_int]. rewrite Em.
  intros f Hf. injection Hf as <-. cbn [set_month year].
  destruct (date_filter spec) as [g|]; [now apply Hy | reflexivity].
Qed.

(** X23. In a dry run the sidebar filters can only rename folders: on one
    match result, the albums [create_albums] returns for the filtered
    specs and for the specs as parsed have the same names, photos,
    earliest and latest dates and keywords, one for one.  Selecting a
    month alone changes nothing at all for specs without a year that
    counts: the very same albums are returned. *)
Theorem filters_only_rename_folders
        (target_folder : Albums.Path) (r : MatchResult) (specs : list AlbumSpec)
        (month_filter year_filter : option Z) (albums albums' : list Albums.Album) :
  Albums.create_albums target_folder r specs = Ok albums ->
  Albums.create_albums target_folder r
                       (map (with_filters month_filter year_filter) specs)
  = Ok albums' ->
  map CreatorSpec.forget_path albums' = map CreatorSpec.forget_path albums
  /\ (truthy_int year_filter = false ->
      (forall spec f, In spec specs -> date_filter spec = Some f ->
                      truthy_int (year f) = false) ->
      albums' = albums).
Proof.
  intros H H'. split.
  - apply (made_forget target_folder r month_filter year_filter specs);
      now apply CreatorFacts.create_albums_made.
  - intros Hy Hspecs.
    assert (E : forall todo acc,
               (forall spec, In spec todo -> In spec specs) ->
               foldM (Albums.add_album target_folder r)
                     (map (with_filters month_filter year_filter) todo) acc
               = foldM (Albums.add_album target_folder r) todo acc).
    { induction todo as [|s todo IH]; intros acc Hsub; [reflexivity|].
      cbn [map foldM].
      assert (Es : Albums.add_album target_folder r acc
                                    (with_filters month_filter year_filter s)
                   = Albums.add_album target_folder r acc s).
      { unfold Albums.add_album.
        destruct (with_filters_name month_filter year_filter s) as [-> ->].
        destruct (Albums.get_or (matched r) (name s) []) as [|p ps]; [reflexivity|].
        assert (Ed : Albums._get_album_date (p :: ps)
                                            (with_filters month_filter year_filter s)
                     = Albums._get_album_date (p :: ps) s).
        { destruct year_filter as [v|].
          - unfold with_filters. rewrite Hy. 
            destruct (truthy_int month_filter) eqn:Em; cbn [negb andb]; [|reflexivity].
            rewrite (CreatorFacts.album_date_of_photos (p :: ps) s)
              by (intros f Hf; apply (Hspecs s f); [apply Hsub; now left | exact Hf]).
            apply CreatorFacts.album_date_of_photos.
            unfold touched, touch. cbn [date_filter]. rewrite Em, Hy.
            intros f Hf. injection Hf as <-. cbn [set_month year].
            destruct (date_filter s) as [g|] eqn:Eg; [|reflexivity].
            apply (Hspecs s g); [apply Hsub; now left | exact Eg].
          - apply album_date_month_only.
            intros f Hf. apply (Hspecs s f); [apply Hsub; now left | exact Hf]. }
        now rewrite Ed. }
      rewrite Es. destruct (Albums.add_album target_folder r acc s); cbn [bind];
        [|reflexivity].
      apply IH. intros spec Hspec. apply Hsub. now right. }
    unfold Albums.create_albums in H, H'. rewrite E in H' by auto.
    rewrite H in H'. now injection H' as <-.
Qed.

Lemma filters_only_rename_folders_witness :
  let a := Samples.photo "fest_a.jpg" "camera" (Some (Samples.day 2024 3 15)) None in
  let r := mk_MatchResult [(lit "Fest", [a])] [] [(lit "Fest", 1%Z)] in
  let before := Albums.mk_Album (lit "Fest") [lit "albums"; lit "2024-03-Fest"] [a]
                                (Some (Samples.day 2024 3 15))
                                (Some (Samples.day 2024 3 15)) [lit "fest"] in
  let after := Albums.mk_Album (lit "Fest") [lit "albums"; lit "2021-01-Fest"] [a]
                               (Some (Samples.day 2024 3 15))
                               (Some (Samples.day 2024 3 15)) [lit "fest"] in
  map CreatorSpec.forget_path [after] = map CreatorSpec.forget_path [before]
  /\ (truthy_int (Some 2021%Z) = false ->
      (forall spec f, In spec [Samples.spec_of "Fest" ["fest"]%string None] ->
                      date_filter spec = Some f -> truthy_int (year f) = false) ->
      [after] = [before]).
Proof.
  apply (filters_only_rename_folders
           [lit "albums"]
           (mk_MatchResult
              [(lit "Fest", [Samples.photo "fest_a.jpg" "camera"
                               (Some (Samples.day 2024 3 15)) None])]
              [] [(lit "Fest", 1%Z)])
           [Samples.spec_of "Fest" ["fest"]%string None]
           None (Some 2021%Z));
    reflexivity.
Defined.

End FilterFacts.

(* ================================================================== *)
(** * Matching in batches *)

Module BatchFacts.
Import PatternMatcher MatcherSpec BatchSpec DictFacts MatcherFacts.

Lemma foldM_app {A S : Type} (f : S -> A -> result S) (xs ys : list A) :
  forall st, foldM f (xs ++ ys) st = (st' <- foldM f xs st ;; foldM f ys st').
Proof.
  induction xs as [|x xs IH]; intros st; [reflexivity|].
  simpl. destruct (f st x) as [st1|e]; simpl; [apply IH | reflexivity].
Qed.

Lemma bucket_of_name (specs : list AlbumSpec) (x : PhotoMetadata) (album : str) :
  bucket_of specs x = Ok (Some album) ->
  exists spec, In spec specs /\ name spec = album.
Proof.
  unfold bucket_of. intros H. apply bind_ok in H as (a & Ha & H).
  destruct a as [n|]; [|discriminate].
  destruct (truthy n); [|discriminate]. injection H as <-.
  now apply first_match_name with (x := x).
Qed.

(** Whether the loop raises, and what, does not depend on what the
    buckets hold. *)
Lemma foldM_place_sync (specs : list AlbumSpec) (ys : list PhotoMetadata) :
  forall m u m' u',
    (forall spec, In spec specs -> In (name spec) (dict_keys m)) ->
    (forall spec, In spec specs -> In (name spec) (dict_keys m')) ->
    match foldM (place specs) ys (m, u) with
    | Ok _ => exists st, foldM (place specs) ys (m', u') = Ok st
    | Fail e => foldM (place specs) ys (m', u') = Fail e
    end.
Proof.
  induction ys as [|x ys IH]; intros m u m' u' Hk Hk'; cbn [foldM]; [eauto|].
  rewrite !place_bucket.
  destruct (bucket_of specs x) as [[album|]|e] eqn:Eb; cbn [bind];
    [|now apply IH | reflexivity].
  destruct (bucket_of_name _ _ _ Eb) as (spec & Hin & <-).
  pose proof (Hk spec Hin) as H1. pose proof (Hk' spec Hin) as H2.
  unfold dict_get.
  destruct (dict_find (name spec) m) as [b|] eqn:E1;
    [|exfalso; apply dict_find_In_key in H1; contradiction].
  destruct (dict_find (name spec) m') as [b'|] eqn:E2;
    [|exfalso; apply dict_find_In_key in H2; contradiction].
  cbn [bind]. apply IH; intros s Hs; rewrite keys_set_present by assumption; auto.
Qed.

Lemma dict_find_map {V W : Type} (g : str -> V -> W) (k : str) (d : dict V) :
  dict_find k (map (fun kv => (fst kv, g (fst kv) (snd kv))) d)
  = option_map (g k) (dict_find k d).
Proof.
  induction d as [|[k' v] d IH]; [reflexivity|]. simpl.
  destruct (str_eqb k k') eqn:E; [|exact IH].
  apply str_eqb_eq in E. now subst.
Qed.

Lemma keys_map {V W : Type} (g : str -> V -> W) (d : dict V) :
  dict_keys (map (fun kv => (fst kv, g (fst kv) (snd kv))) d) = dict_keys d.
Proof. unfold dict_keys. rewrite map_map. reflexivity. Qed.

(** X24. Matching goes photo by photo: [match] on a list of photos cut
    in two gives what [match] gives on the two parts, put together bucket
    by bucket and with the unmatched photos of the first part before
    those of the second; it raises what the first part raises, or else
    what the second part raises. *)
Theorem match_in_batches (specs : list AlbumSpec) (xs ys : list PhotoMetadata) :
  match_ specs (xs ++ ys)
  = (r1 <- match_ specs xs ;; r2 <- match_ specs ys ;; Ok (merge r1 r2)).
Proof.
  unfold match_. rewrite foldM_app.
  destruct (empty_buckets_spec specs) as (Hnd & Hempty & Hnames).
  destruct (foldM (place specs) xs (empty_buckets specs, [])) as [[m1 u1]|e] eqn:E1;
    cbn [bind]; [|reflexivity].
  destruct (foldM_place_filter _ _ _ _ _ _ Hnd E1) as [Em1 Eu1].
  assert (Hk1 : dict_keys m1 = dict_keys (empty_buckets specs)).
  { rewrite Em1.
    apply (keys_map (fun k v => v ++ filter (sent_to specs k) xs)). }
  assert (Hnames1 : forall spec, In spec specs -> In (name spec) (dict_keys m1))
    by (intros spec Hs; rewrite Hk1; now apply Hnames).
  pose proof (foldM_place_sync specs ys m1 u1 (empty_buckets specs) []
                               Hnames1 Hnames) as Hsync.
  destruct (foldM (place specs) ys (m1, u1)) as [[m u]|e] eqn:E;
    [|rewrite Hsync; reflexivity].
  destruct Hsync as [[m2 u2] E2]. rewrite E2. cbn [bind].
  assert (Hnd1 : NoDup (dict_keys m1)) by (now rewrite Hk1).
  destruct (foldM_place_filter _ _ _ _ _ _ Hnd1 E) as [-> ->].
  destruct (foldM_place_filter _ _ _ _ _ _ Hnd E2) as [-> ->].
  unfold merge. cbn [matched unmatched app].
  assert (Eb : map (fun kv => (fst kv, snd kv ++ filter (sent_to specs (fst kv)) ys)) m1
               = map (fun kv =>
                        (fst kv,
                         snd kv
                         ++ Albums.get_or
                              (map (fun kv =>
                                      (fst kv,
                                       snd kv ++ filter (sent_to specs (fst kv)) ys))
                                   (empty_buckets specs))
                              (fst kv) []))
                     m1).
  { apply map_ext_in. intros [k v] Hin. cbn [fst snd]. f_equal. f_equal.
    unfold Albums.get_or.
    rewrite (dict_find_map (fun k v => v ++ filter (sent_to specs k) ys)).
    assert (Hk : In k (dict_keys (empty_buckets specs))).
    { rewrite <- Hk1. unfold dict_keys. apply in_map_iff. now exists (k, v). }
    destruct (dict_find k (empty_buckets specs)) as [b|] eqn:Ef.
    - apply dict_find_In in Ef. rewrite (Hempty _ _ Ef). reflexivity.
    - apply dict_find_In_key in Hk. contradiction. }
  now rewrite <- Eb.
Qed.

End BatchFacts.
